(** * neuromancer: structured linear maps and simulators

    A shallow embedding of [linear.py] (the constrained linear map layers)
    and of [neuromancer/simulators.py] (the open-loop aggregation and the
    closed-loop stepping), with the properties the specification states
    about them.

    Tensors hold real numbers: arithmetic on tensor entries is the exact
    arithmetic of [R] and [torch.sigmoid] is the real function; rounding,
    overflow and the [nan] of a division by zero are not represented.  One
    effect of float32 is kept, because a property of the program depends
    on it: inside [F.softmax] an exponential of at most [2^-150] is
    [0.0].  Python dictionaries are finite maps from strings; Python
    exceptions are the [Err] results of an error monad. *)

From Stdlib Require Import Reals Lra Lia ZArith List String.
From stdpp Require Import gmap strings list fin_maps.

(** ** Python runtime: exceptions, results, slices and indexing *)

Inductive exn : Set :=
| AttributeError | KeyError | IndexError | ValueError
| AssertionError | TypeError | RuntimeError.

Inductive result (A : Type) : Type :=
| Ok (a : A)
| Err (e : exn).
Arguments Ok {A} a.
Arguments Err {A} e.

Global Instance result_ret : MRet result := λ A, Ok.
Global Instance result_bind : MBind result :=
  λ A B f r, match r with Ok a => f a | Err e => Err e end.

(** [d[key]] on a dictionary: [KeyError] when the key is missing. *)
Definition getitem {V} (d : gmap string V) (key : string) : result V :=
  match d !! key with Some v => Ok v | None => Err KeyError end.

(** A slice bound [i] on a sequence of length [n]: negative bounds count
    from the end, and every bound is clamped into [0..n]. *)
Definition slice_index (i : Z) (n : nat) : nat :=
  if (i <? 0)%Z then Z.to_nat (Z.max 0 (i + Z.of_nat n))
  else Z.to_nat (Z.min i (Z.of_nat n)).

(** [l[start:stop]], either bound optional. *)
Definition slice {A} (start stop : option Z) (l : list A) : list A :=
  let n := length l in
  let a := from_option (λ i, slice_index i n) 0%nat start in
  let b := from_option (λ i, slice_index i n) n stop in
  firstn (b - a) (skipn a l).

(** [l[i]] for an integer [i]: [IndexError] outside [-n..n-1]. *)
Definition index {A} (l : list A) (i : Z) : result A :=
  let n := Z.of_nat (length l) in
  let j := if (i <? 0)%Z then (i + n)%Z else i in
  if ((0 <=? j) && (j <? n))%Z then
    match l !! Z.to_nat j with Some a => Ok a | None => Err IndexError end
  else Err IndexError.

(** [list.remove(x)]: drops the first occurrence, [ValueError] if none. *)
Fixpoint list_remove (x : string) (l : list string) : result (list string) :=
  match l with
  | [] => Err ValueError
  | y :: l' =>
      if decide (x = y) then Ok l'
      else l'' ← list_remove x l'; Ok (y :: l'')
  end.

(** [range(a, b)] over the integers. *)
Definition range (a b : Z) : list Z :=
  map (λ i, (a + Z.of_nat i)%Z) (seq 0 (Z.to_nat (b - a))).

(** ** Matrices of [linear.py]: lists of rows *)

Local Open Scope R_scope.

Definition mat : Type := list (list R).

(** [x.shape[1]] of a matrix with at least one row. *)
Definition ncols (x : mat) : nat := length (hd [] x).

(** [x.shape[1] == n] for a batch [x]: every row has [n] entries.  The batch
    without rows stands for the empty batch of that width. *)
Definition has_width (x : mat) (n : nat) : bool :=
  forallb (λ row, (length row =? n)%nat) x.

(** A matrix of [rows] rows and [cols] columns. *)
Definition has_shape (m : mat) (rows cols : nat) : Prop :=
  length m = rows ∧ Forall (λ row, length row = cols) m.

Definition vsum (v : list R) : R := fold_right Rplus 0 v.

Definition sigmoid (x : R) : R := / (1 + exp (- x)).

(** [exp] in the float32 of the parameters, as far as underflow goes: a
    value of at most [2^-150], half the smallest positive float32, is
    rounded to [0.0]; every other value is kept as the exact real. *)
Definition exp_f32 (x : R) : R :=
  if Rle_dec (exp x) (/ 2 ^ 150) then 0 else exp x.

(** The largest entry of a row. *)
Definition vmax (v : list R) : R := fold_right Rmax (hd 0 v) v.

(** [F.softmax] of one row, as PyTorch computes it: the exponentials of
    the differences to the largest entry, divided by their sum. *)
Definition softmax (v : list R) : list R :=
  let e := map (λ x, exp_f32 (x - vmax v)) v in
  map (λ a, a / vsum e) e.

Definition dot (u v : list R) : R := vsum (zip_with Rmult u v).

(** [torch.diag(v)]: the square matrix with [v] on its diagonal. *)
Definition diag (v : list R) : mat :=
  map (λ i, map (λ j, if (i =? j)%nat then nth i v 0 else 0)
                (seq 0 (length v)))
      (seq 0 (length v)).

(** [torch.eye(n)]. *)
Definition eye (n : nat) : mat :=
  map (λ i, map (λ j, if (i =? j)%nat then 1 else 0) (seq 0 n)) (seq 0 n).

(** Column [j] of a matrix. *)
Definition col (j : nat) (m : mat) : list R := map (λ row, nth j row 0) m.

(** [torch.matmul(x, v)] of a matrix and a vector: every row of [x] must
    be as long as [v]. *)
Definition matvec (x : mat) (v : list R) : result (list R) :=
  if forallb (λ row, (length row =? length v)%nat) x
  then Ok (map (λ row, dot row v) x)
  else Err RuntimeError.

(** The product of a row vector with a matrix. *)
Definition vecmat (v : list R) (m : mat) : list R :=
  map (λ j, dot v (col j m)) (seq 0 (ncols m)).

(** [torch.matmul(x, m)] of two matrices: every row of [x] must be as long
    as [m] has rows. *)
Definition matmul (x m : mat) : result mat :=
  if forallb (λ row, (length row =? length m)%nat) x
  then Ok (map (λ row, vecmat row m) x)
  else Err RuntimeError.

(** [x += bias] for a matrix [x] and a vector [bias], with broadcasting: the
    bias has one entry per column, or a single entry. *)
Definition add_bias (x : mat) (bias : list R) : result mat :=
  match bias with
  | [b] =>
      if forallb (λ row, (length row =? 1)%nat) x
      then Ok (map (λ row, zip_with Rplus row bias) x)
      else Ok (map (map (λ a, a + b)) x)
  | _ =>
      if forallb (λ row, (length row =? length bias)%nat) x
      then Ok (map (λ row, zip_with Rplus row bias) x)
      else Err RuntimeError
  end.

(** ** [linear.py] *)

(** [LinearBase.__init__(self, insize, outsize, bias=False)]: the
    arguments [insize] and [outsize] are required, and a call without them
    raises [TypeError]. *)
Definition LinearBase_init (insize outsize : option nat) : result unit :=
  match insize, outsize with
  | Some _, Some _ => Ok tt
  | _, _ => Err TypeError
  end.

(** *** [PerronFrobeniusLinear] *)
Module PerronFrobeniusLinear.

(** The parameters [weight] and [scaling] are both allocated as
    [insize x outsize] matrices.  [__init__] also allocates a parameter
    [scalar], which no method reads. *)
Record t : Type := {
  weight : mat;
  scaling : mat;
  sigma_min : R;
  sigma_max : R;
  bias : list R
}.

(** [s_clamped]: the entrywise image of [scaling]. *)
Definition s_clamped (self : t) : mat :=
  map (map (λ s, sigma_max self
                 - (sigma_max self - sigma_min self) * sigmoid s))
      (scaling self).

(** [s_clamped * F.softmax(self.weight, dim=1)], an entrywise product of
    two matrices of the same shape. *)
Definition effective_W (self : t) : mat :=
  zip_with (zip_with Rmult) (s_clamped self) (map softmax (weight self)).

Definition forward (self : t) (x : mat) : result mat :=
  xw ← matmul x (effective_W self); add_bias xw (bias self).

End PerronFrobeniusLinear.

(** *** [SpectralLinear] *)
Module SpectralLinear.

Record t : Type := {
  insize : nat;
  outsize : nat;
  n_U_reflectors : nat;
  n_V_reflectors : nat;
  r : R;
  sigma_mean : R;
  U : mat;
  p : list R;
  V : mat;
  bias : option (list R)
}.

(** [__init__]: its first statement, [super().__init__()], calls
    [LinearBase.__init__] without [insize] and [outsize]; the attribute
    assignments come after it.  The margin [r] and the mean singular value
    are computed from the bounds; [U], [p], [V] and [bias] stand for the
    values drawn for the parameters. *)
Definition init (insize outsize n_U_reflectors n_V_reflectors : nat)
    (sigma_min sigma_max : R) (U : mat) (p : list R) (V : mat)
    (bias : list R) : result t :=
  _ ← LinearBase_init None None;
  let r := (sigma_max - sigma_min) / 2 in
  Ok {| insize := insize; outsize := outsize;
        n_U_reflectors := n_U_reflectors; n_V_reflectors := n_V_reflectors;
        r := r; sigma_mean := sigma_min + r;
        U := U; p := p; V := V; bias := Some bias |}.

(** The shapes the assignments of [__init__] give the parameters. *)
Record shaped (self : t) : Prop := {
  shaped_U : length (U self) = insize self
             ∧ Forall (λ row, length row = insize self) (U self);
  shaped_p : length (p self) = Nat.min (insize self) (outsize self);
  shaped_V : length (V self) = outsize self
             ∧ Forall (λ row, length row = outsize self) (V self)
}.

Definition sigmas (self : t) : list R :=
  map (λ pi, 2 * r self * (sigmoid pi - 0.5) + sigma_mean self) (p self).

Definition Sigma (self : t) : mat :=
  let pad := Z.abs_nat (Z.of_nat (insize self) - Z.of_nat (outsize self)) in
  let square_matrix := diag (sigmas self ++ repeat 0 pad) in
  map (slice None (Some (Z.of_nat (outsize self))))
      (slice None (Some (Z.of_nat (insize self))) square_matrix).

Definition Hprod (x : mat) (u : list R) (k : Z) : result mat :=
  let xk := map (slice (Some (- k)%Z) None) x in
  let uk := slice (Some (- k)%Z) None u in
  xu ← matvec xk uk;
  let alpha := map (λ a, 2 * a / vsum (zip_with Rmult uk uk)) xu in
  let outer := map (λ a, map (λ b, a * b) uk) alpha in
  let reflected := zip_with (zip_with Rminus) xk outer in
  if (k <? Z.of_nat (ncols x))%Z
  then Ok (zip_with app (map (slice None (Some (- k)%Z)) x) reflected)
  else Ok reflected.

(** The reflector loops: reflector [i] is row [i] of the parameter matrix
    and acts on the last [size - i] columns. *)
Fixpoint reflect (M : mat) (size : nat) (idx : list nat) (x : mat)
    : result mat :=
  match idx with
  | [] => Ok x
  | i :: idx' =>
      u ← index M (Z.of_nat i);
      x' ← Hprod x u (Z.of_nat size - Z.of_nat i);
      reflect M size idx' x'
  end.

Definition Umultiply (self : t) (x : mat) : result mat :=
  if has_width x (insize self)
  then reflect (U self) (insize self) (seq 0 (n_U_reflectors self)) x
  else Err AssertionError.

Definition Vmultiply (self : t) (x : mat) : result mat :=
  if has_width x (outsize self)
  then reflect (V self) (outsize self)
               (rev (seq 0 (n_V_reflectors self))) x
  else Err AssertionError.

Definition forward (self : t) (x : mat) : result mat :=
  x1 ← Umultiply self x;
  x2 ← matmul x1 (Sigma self);
  x3 ← Vmultiply self x2;
  match bias self with
  | Some b => add_bias x3 b
  | None => Ok x3
  end.

Definition effective_W (self : t) : result mat :=
  forward self (eye (insize self)).

End SpectralLinear.

(** *** [regularization_error] across the map variants *)

(** What [self.effective_W] evaluates to: the bound method when the
    attribute is read without being called, its matrix when it is called. *)
Inductive attribute : Type :=
| BoundMethod
| Tensor (m : mat).

(** [.norm(p=1)]: a tensor has it, a bound method has no such attribute. *)
Definition norm_p1 (a : attribute) : result R :=
  match a with
  | Tensor m => Ok (vsum (map (λ row, vsum (map Rabs row)) m))
  | BoundMethod => Err AttributeError
  end.

Module LassoLinear.

Record t : Type := {
  u_param : mat;
  v_param : mat;
  bias : list R;
  gamma : R
}.

Definition relu (m : mat) : mat := map (map (Rmax 0)) m.

Definition effective_W (self : t) : mat :=
  zip_with (zip_with Rminus) (relu (u_param self)) (relu (v_param self)).

(** [self.gamma*self.effective_W.norm(p=1)]: the method is not called. *)
Definition regularization_error (self : t) : result R :=
  n ← norm_p1 BoundMethod; Ok (gamma self * n).

End LassoLinear.

(** The map-layer variants.  [Linear], [NonnegativeLinear] and [SVDLinear]
    inherit [LinearBase.regularization_error]; their parameters play no
    part in it. *)
Inductive layer : Type :=
| Linear (weight : mat)
| NonnegativeLinear (weight : mat)
| LassoLinear (l : LassoLinear.t)
| PerronFrobeniusLinear (l : PerronFrobeniusLinear.t)
| SVDLinear (sigma : list R)
| SpectralLinear (l : SpectralLinear.t).

(** [LinearBase.regularization_error]. *)
Definition LinearBase_regularization_error : result R := Ok 0.

Definition regularization_error (l : layer) : result R :=
  match l with
  | LassoLinear l => LassoLinear.regularization_error l
  | _ => LinearBase_regularization_error
  end.

(** ** Tensors of [simulators.py]: a shape and the entries in row-major order *)

Record tensor : Type := { shape : list nat; data : list R }.

Definition ndim (t : tensor) : nat := length (shape t).

(** Number of entries of a tensor of shape [s]. *)
Definition numel (s : list nat) : nat := fold_right Nat.mul 1%nat s.

Definition sum_nat (l : list nat) : nat := fold_right Nat.add 0%nat l.

(** [t[a:b, :, :]]: three indices need three dimensions. *)
Definition slice_time (a b : Z) (t : tensor) : result tensor :=
  if (3 <=? ndim t)%nat then
    match shape t with
    | n :: s =>
        let i := slice_index a n in
        let j := slice_index b n in
        Ok {| shape := (j - i)%nat :: s;
              data := firstn ((j - i) * numel s) (skipn (i * numel s) (data t)) |}
    | [] => Err IndexError
    end
  else Err IndexError.

(** [t[k, :, :]]: the block at time [k], one dimension fewer. *)
Definition index_time (k : Z) (t : tensor) : result tensor :=
  if (3 <=? ndim t)%nat then
    match shape t with
    | n :: s =>
        let j := if (k <? 0)%Z then (k + Z.of_nat n)%Z else k in
        if ((0 <=? j) && (j <? Z.of_nat n))%Z
        then Ok {| shape := s;
                   data := firstn (numel s)
                             (skipn (Z.to_nat j * numel s) (data t)) |}
        else Err IndexError
    | [] => Err IndexError
    end
  else Err IndexError.

(** [torch.cat(ts)] along the leading axis: the list is not empty, no
    tensor is 0-dimensional and all agree on the remaining dimensions. *)
Definition torch_cat (ts : list tensor) : result tensor :=
  match ts with
  | [] => Err RuntimeError
  | t0 :: _ =>
      match shape t0 with
      | [] => Err RuntimeError
      | _ :: s =>
          if forallb (λ t, match shape t with
                           | [] => false
                           | _ :: s' => bool_decide (s' = s)
                           end) ts
          then Ok {| shape := sum_nat (map (λ t, hd 0%nat (shape t)) ts) :: s;
                     data := concat (map data ts) |}
          else Err RuntimeError
      end
  end.

(** [torch.stack(ts)]: a new leading axis over tensors of one shape. *)
Definition torch_stack (ts : list tensor) : result tensor :=
  match ts with
  | [] => Err RuntimeError
  | t0 :: _ =>
      if forallb (λ t, bool_decide (shape t = shape t0)) ts
      then Ok {| shape := length ts :: shape t0;
                 data := concat (map data ts) |}
      else Err RuntimeError
  end.

(** [t[idx, :, :]] for a list of time indices [idx]. *)
Definition select_time (idx : list Z) (t : tensor) : result tensor :=
  (fix go (idx : list Z) (acc : list tensor) : result tensor :=
     match idx with
     | [] =>
         Ok {| shape := length acc :: tl (shape t);
               data := concat (map data acc) |}
     | k :: idx' => b ← index_time k t; go idx' (acc ++ [b])
     end) idx [].

(** [torch.mean(t)]: a 0-dimensional tensor. *)
Definition torch_mean (t : tensor) : tensor :=
  {| shape := []; data := [vsum (data t) / INR (length (data t))] |}.

Local Close Scope R_scope.

(** ** Loops over dictionaries *)

(** [for k in d: d[k] = f(k, d[k])], stopping at the first exception. *)
Definition dict_mapM {A B} (f : string → A → result B) (d : gmap string A)
    : result (gmap string B) :=
  map_fold (λ k a acc, m ← acc; b ← f k a; Ok (<[k := b]> m)) (Ok ∅) d.

(** [for k in d: acc[k].append(d[k])]. *)
Definition append_all {V} (d : gmap string V) (acc : gmap string (list V))
    : result (gmap string (list V)) :=
  map_fold (λ k v r, m ← r; l ← getitem m k; Ok (<[k := l ++ [v]]> m))
           (Ok acc) d.

(** ** [simulators.py] *)

(** Values held by the output dictionaries of a model: strings (such as
    the data set name) and tensors. *)
Inductive value : Type :=
| VStr (s : string)
| VTensor (t : tensor).

(** An aggregated entry: the collected list (string entries are left as
    they are) or the tensor that replaced it. *)
Inductive aggregate : Type :=
| Collected (l : list value)
| Aggregated (t : tensor).

(** The tensors of a list passed to [torch.stack] or [torch.cat]. *)
Fixpoint tensors (l : list value) : result (list tensor) :=
  match l with
  | [] => Ok []
  | VTensor t :: l' => ts ← tensors l'; Ok (t :: ts)
  | VStr _ :: _ => Err TypeError
  end.

Module MultiSequenceOpenLoopSimulator.

Record t : Type := {
  model : gmap string value → result (gmap string value);
  stack : bool
}.

(** The last loop of [agg], on the list collected under one key. *)
Definition agg_entry (self : t) (l : list value) : result aggregate :=
  v0 ← index l 0;
  match v0 with
  | VStr _ => Ok (Collected l)
  | VTensor t0 =>
      ts ← tensors l;
      if (ndim t0 <? 2)%nat then
        s ← torch_stack ts; Ok (Aggregated (torch_mean s))
      else if stack self then
        s ← torch_stack ts; Ok (Aggregated s)
      else
        c ← torch_cat ts; Ok (Aggregated c)
  end.

(** The middle loop of [agg]. *)
Fixpoint collect (outputs : list (gmap string value))
    (agg_outputs : gmap string (list value))
    : result (gmap string (list value)) :=
  match outputs with
  | [] => Ok agg_outputs
  | data :: outputs' =>
      agg_outputs' ← append_all data agg_outputs;
      collect outputs' agg_outputs'
  end.

Definition agg (self : t) (outputs : list (gmap string value))
    : result (gmap string aggregate) :=
  first ← index outputs 0;
  let agg_outputs := (λ _, []) <$> first in
  agg_outputs ← collect outputs agg_outputs;
  dict_mapM (λ _ l, agg_entry self l) agg_outputs.

Fixpoint run_model (self : t) (data : list (gmap string value))
    : result (list (gmap string value)) :=
  match data with
  | [] => Ok []
  | d :: data' =>
      o ← model self d; outputs ← run_model self data'; Ok (o :: outputs)
  end.

Definition simulate (self : t) (data : list (gmap string value))
    : result (gmap string aggregate) :=
  outputs ← run_model self data; agg self outputs.

End MultiSequenceOpenLoopSimulator.

Module ClosedLoopSimulator.

(** A policy, emulator or estimator: its declared keys, its horizon
    attributes and its call on a dictionary of named tensors. *)
Record component : Type := {
  input_keys : list string;
  output_keys : list string;
  nsteps : Z;
  window_size : Z;
  call : gmap string tensor → result (gmap string tensor)
}.

Record t : Type := {
  sim_data : gmap string tensor;
  emulator : component;
  policy : component;
  estimator : option component
}.

(** [self.estimator.<attribute>]: [None] has no attributes. *)
Definition estimator_attr {A} (self : t) (attribute : component → A)
    : result A :=
  match estimator self with
  | Some est => Ok (attribute est)
  | None => Err AttributeError
  end.

(** The loop shared by the three [step_data_*] methods: keys missing
    from [data] are skipped. *)
Fixpoint step_data_loop (window : tensor → result tensor)
    (keys : list string) (data step_data : gmap string tensor)
    : result (gmap string tensor) :=
  match keys with
  | [] => Ok step_data
  | key :: keys' =>
      match data !! key with
      | Some v =>
          w ← window v;
          step_data_loop window keys' data (<[key := w]> step_data)
      | None => step_data_loop window keys' data step_data
      end
  end.

Definition step_data_policy (self : t) (data : gmap string tensor) (k : Z)
    : result (gmap string tensor) :=
  step_data_loop (slice_time (k - nsteps (policy self)) k)
                 (input_keys (policy self)) data ∅.

Definition step_data_estimator (self : t) (data : gmap string tensor)
    (k : Z) : result (gmap string tensor) :=
  keys ← estimator_attr self input_keys;
  step_data_loop (slice_time (k - nsteps (policy self)) k) keys data ∅.

Definition step_data_emulator (self : t) (data : gmap string tensor)
    (k : Z) : result (gmap string tensor) :=
  step_data_loop (index_time k) (input_keys (emulator self)) data ∅.

Definition rhc (self : t) (policy_out : gmap string tensor)
    : result (gmap string tensor) :=
  key ← index (output_keys (policy self)) 0;
  v ← getitem policy_out key;
  first ← select_time [0%Z] v;
  Ok (<[key := first]> policy_out).

Definition append_data (sim_data : gmap string (list tensor))
    (step_data : gmap string tensor) : result (gmap string (list tensor)) :=
  dict_mapM (λ key l, v ← getitem step_data key; Ok (l ++ [v])) sim_data.

(** [cl_keys]: the output keys without the regularization keys. *)
Definition cl_keys (self : t) : result (list string) :=
  est_keys ← estimator_attr self output_keys;
  let keys :=
    est_keys ++ output_keys (policy self) ++ output_keys (emulator self) in
  keys ← list_remove "reg_error_dynamics" keys;
  keys ← list_remove "reg_error_policy" keys;
  match estimator self with
  | Some _ => list_remove "reg_error_estim" keys
  | None => Ok keys
  end.

Definition start_k (self : t) : result Z :=
  w ← estimator_attr self window_size;
  Ok (if (w <=? nsteps (policy self))%Z then nsteps (policy self) else w).

(** One pass of the loop body, up to [cl_step_data]. *)
Definition step (self : t) (k : Z) : result (gmap string tensor) :=
  estim_out ←
    match estimator self with
    | Some est =>
        step_data ← step_data_estimator self (sim_data self) k;
        call est step_data
    | None => Ok ∅
    end;
  step_data ← step_data_policy self (sim_data self) k;
  policy_out ← call (policy self) (estim_out ∪ step_data);
  policy_out ← rhc self policy_out;
  step_data ← step_data_emulator self (sim_data self) k;
  emulator_out ←
    call (emulator self) (policy_out ∪ (estim_out ∪ step_data));
  Ok (emulator_out ∪ (policy_out ∪ estim_out)).

Fixpoint loop (self : t) (ks : list Z) (cl_data : gmap string (list tensor))
    : result (gmap string (list tensor)) :=
  match ks with
  | [] => Ok cl_data
  | k :: ks' =>
      cl_step_data ← step self k;
      cl_data' ← append_data cl_data cl_step_data;
      loop self ks' cl_data'
  end.

(** The time indices the loop of [simulate] visits. *)
Definition steps (self : t) (nsim : Z) : result (list Z) :=
  k0 ← start_k self; Ok (range k0 (k0 + nsim)).

Definition simulate (self : t) (nsim : Z) : result (gmap string tensor) :=
  keys ← cl_keys self;
  let cl_data := foldl (λ d key, <[key := []]> d) ∅ keys in
  ks ← steps self nsim;
  cl_data ← loop self ks cl_data;
  dict_mapM (λ _ l, torch_cat l) cl_data.

End ClosedLoopSimulator.

(** ** Vocabulary of the statements about [SpectralLinear] *)

Local Open Scope R_scope.

(** One Householder reflection read on a single row: the last [k] entries
    of [row] lose [alpha] times the last [k] entries of [u], where [alpha]
    is twice the inner product of the two tails over the squared norm of
    the tail of [u]; the entries before them are kept. *)
Definition reflect_row (u : list R) (k : nat) (row : list R) : list R :=
  let uk := skipn (length u - k) u in
  let tail := skipn (length row - k) row in
  let alpha := 2 * dot tail uk / dot uk uk in
  firstn (length row - k) row
  ++ zip_with Rminus tail (map (λ b, alpha * b) uk).

(** The reflector loop of [Umultiply] and [Vmultiply] read on one row. *)
Definition reflect_rows (M : mat) (size : nat) (idx : list nat)
    (row : list R) : list R :=
  foldl (λ row i, reflect_row (nth i M []) (size - i) row) row idx.

(** [forward] without bias, read on one row of the batch. *)
Definition forward_row (self : SpectralLinear.t) (row : list R) : list R :=
  reflect_rows (SpectralLinear.V self) (SpectralLinear.outsize self)
    (rev (seq 0 (SpectralLinear.n_V_reflectors self)))
    (vecmat
       (reflect_rows (SpectralLinear.U self) (SpectralLinear.insize self)
          (seq 0 (SpectralLinear.n_U_reflectors self)) row)
       (SpectralLinear.Sigma self)).

Definition vadd (u v : list R) : list R := zip_with Rplus u v.
Definition vscale (c : R) (v : list R) : list R := map (λ x, c * x) v.

(** [f] is a linear map from rows of length [n] to rows of length [m]. *)
Definition linear (n m : nat) (f : list R → list R) : Prop :=
  (∀ v, length v = n → length (f v) = m)
  ∧ (∀ a b u v, length u = n → length v = n →
       f (vadd (vscale a u) (vscale b v))
       = vadd (vscale a (f u)) (vscale b (f v))).

Local Close Scope R_scope.

(** ** The remaining maps of [linear.py] *)

Local Open Scope R_scope.

(** [F.relu]. *)
Definition relu (m : mat) : mat := map (map (Rmax 0)) m.

(** [y + bias] for a batch [y] and a bias of shape [1 x n], with
    broadcasting: the widths agree, or one of them is 1. *)
Definition add_row_bias (y : mat) (bias : list R) : result mat :=
  if forallb (λ row, (length row =? length bias)%nat) y
  then Ok (map (λ row, zip_with Rplus row bias) y)
  else match bias with
       | [b] => Ok (map (map (λ a, a + b)) y)
       | _ =>
           if forallb (λ row, (length row =? 1)%nat) y
           then Ok (map (λ row, map (λ b, hd 0 row + b) bias) y)
           else Err RuntimeError
       end.

(** [torch.t(m)]. *)
Definition transpose (m : mat) : mat := map (λ j, col j m) (seq 0 (ncols m)).

(** Whether two matrices have the same shape. *)
Fixpoint same_shape (a b : mat) : bool :=
  match a, b with
  | [], [] => true
  | ra :: a', rb :: b' => (length ra =? length rb)%nat && same_shape a' b'
  | _, _ => false
  end.

(** One row of [a - b] with broadcasting: the widths agree, or one of them
    is 1. *)
Definition row_sub (ra rb : list R) : result (list R) :=
  if (length ra =? length rb)%nat then Ok (zip_with Rminus ra rb)
  else match ra, rb with
       | [a], _ => Ok (map (λ b, a - b) rb)
       | _, [b] => Ok (map (λ a, a - b) ra)
       | _, _ => Err RuntimeError
       end.

Fixpoint rows_sub (a b : mat) : result mat :=
  match a, b with
  | ra :: a', rb :: b' =>
      r ← row_sub ra rb; rest ← rows_sub a' b'; Ok (r :: rest)
  | _, _ => Ok []
  end.

(** [a - b] for two matrices: entry by entry when the shapes agree, and
    with broadcasting when a dimension of one of them is 1. *)
Definition msub (a b : mat) : result mat :=
  if same_shape a b then Ok (zip_with (zip_with Rminus) a b)
  else if (length a =? length b)%nat then rows_sub a b
  else match a, b with
       | [ra], _ => rows_sub (repeat ra (length b)) b
       | _, [rb] => rows_sub a (repeat rb (length a))
       | _, _ => Err RuntimeError
       end.

(** [torch.norm(m, 2)] of a matrix: with no [dim], the 2-norm of the
    flattened tensor. *)
Definition norm2 (m : mat) : R := sqrt (vsum (map (λ row, dot row row) m)).

(** [torch.norm(s, 2)] of a 0-dimensional tensor. *)
Definition norm2_scalar (s : R) : R := sqrt (s * s).

(** [torch.eye(n, m)]. *)
Definition eye_rect (n m : nat) : mat :=
  map (λ i, map (λ j, if (i =? j)%nat then 1 else 0) (seq 0 m)) (seq 0 n).

Module NonnegativeLinear.

Record t : Type := {
  weight : mat;
  bias : list R
}.

Definition effective_W (self : t) : mat := relu (weight self).

Definition forward (self : t) (x : mat) : result mat :=
  y ← matmul x (effective_W self); add_row_bias y (bias self).

End NonnegativeLinear.

Module OrthogonalWeight.

Record t : Type := {
  Q : mat;
  nx : nat
}.

(** The orthogonality error. *)
Definition forward (self : t) : result R :=
  qqt ← matmul (Q self) (transpose (Q self));
  left ← msub (eye (nx self)) qqt;
  qtq ← matmul (transpose (Q self)) (Q self);
  right ← msub (eye (nx self)) qtq;
  Ok (norm2_scalar (norm2 left + norm2 right)).

End OrthogonalWeight.

Module SVDLinear.

(** [sigma] is allocated with [insize] rows and one column; it is held as
    the list of its rows' entries. *)
Record t : Type := {
  U : OrthogonalWeight.t;
  V : OrthogonalWeight.t;
  sigma : list R;
  sigma_min : R;
  sigma_max : R;
  insize : nat;
  outsize : nat;
  bias : list R
}.

Definition sigma_clamped (self : t) : list R :=
  map (λ s, sigma_max self - (sigma_max self - sigma_min self) * sigmoid s)
      (sigma self).

(** [torch.eye(insize, outsize) * sigma_clapmed]: the product of an
    [insize x outsize] matrix and a column, with broadcasting. *)
Definition Sigma_bounded (self : t) : result mat :=
  let I := eye_rect (insize self) (outsize self) in
  let s := sigma_clamped self in
  if (length s =? insize self)%nat
  then Ok (zip_with (λ row si, map (λ e, e * si) row) I s)
  else match s with
       | [s0] => Ok (map (map (λ e, e * s0)) I)
       | _ =>
           match I with
           | [row] => Ok (map (λ si, map (λ e, e * si) row) s)
           | _ => Err RuntimeError
           end
       end.

Definition effective_W (self : t) : result mat :=
  S ← Sigma_bounded self;
  inner ← matmul S (OrthogonalWeight.Q (V self));
  matmul (OrthogonalWeight.Q (U self)) inner.

Definition spectral_error (self : t) : result R :=
  u ← OrthogonalWeight.forward (U self);
  v ← OrthogonalWeight.forward (V self);
  Ok (u + v).

Definition forward (self : t) (x : mat) : result mat :=
  W ← effective_W self;
  y ← matmul x W;
  add_row_bias y (bias self).

End SVDLinear.

Local Close Scope R_scope.

(** ** The base simulators of [simulators.py] *)

Module Simulator.

(** A model, its three data partitions and the [eval_sim] switch; the
    partitions are of any type [D], the output values of any type [V]. *)
Record t (D V : Type) : Type := {
  model : D → result (gmap string V);
  train_data : D;
  dev_data : D;
  test_data : D;
  eval_sim : bool
}.
Arguments model {D V} _.
Arguments train_data {D V} _.
Arguments dev_data {D V} _.
Arguments test_data {D V} _.
Arguments eval_sim {D V} _.

(** [{**all_output, **out}]: [None] is no mapping. *)
Definition merge {V} (all_output : gmap string V)
    (out : option (gmap string V)) : result (gmap string V) :=
  match out with
  | Some out => Ok (out ∪ all_output)
  | None => Err TypeError
  end.

Definition dev_eval {D V} (self : t D V) : result (gmap string V) :=
  if eval_sim self then model self (dev_data self) else Ok ∅.

(** [test_eval], inherited by every simulator: [simulate] is the method of
    the class at hand. *)
Definition test_eval {D V}
    (simulate : t D V → D → result (option (gmap string V)))
    (self : t D V) : result (gmap string V) :=
  foldl (λ all_output data,
           all_output ← all_output;
           out ← simulate self data;
           merge all_output out)
        (Ok ∅) [train_data self; dev_data self; test_data self].

(** [Simulator.simulate]: [pass]. *)
Definition simulate {D V} (self : t D V) (data : D)
    : result (option (gmap string V)) := Ok None.

End Simulator.

Module OpenLoopSimulator.

(** [self.model(move_batch_to_device(data, self.device))]: the move to a
    device leaves the values of the batch as they are. *)
Definition simulate {D V} (self : Simulator.t D V) (data : D)
    : result (option (gmap string V)) :=
  out ← Simulator.model self data; Ok (Some out).

End OpenLoopSimulator.

(** ** Example instances *)

Local Open Scope R_scope.

(** A 2 by 2 spectral map with one reflector on each side, an all-zero
    bias, and the margin and mean of the default bounds 0.6 and 1. *)
Definition spectral_example : SpectralLinear.t :=
  {| SpectralLinear.insize := 2; SpectralLinear.outsize := 2;
     SpectralLinear.n_U_reflectors := 1; SpectralLinear.n_V_reflectors := 1;
     SpectralLinear.r := (1 - 0.6) / 2;
     SpectralLinear.sigma_mean := 0.6 + (1 - 0.6) / 2;
     SpectralLinear.U := [[1; 0]; [0; 1]];
     SpectralLinear.p := [0; 0];
     SpectralLinear.V := [[1; 0]; [0; 1]];
     SpectralLinear.bias := Some [0; 0] |}.

(** The same map with the default number of reflectors, 20 on each side. *)
Definition spectral_default_example : SpectralLinear.t :=
  {| SpectralLinear.insize := 2; SpectralLinear.outsize := 2;
     SpectralLinear.n_U_reflectors := 20; SpectralLinear.n_V_reflectors := 20;
     SpectralLinear.r := (1 - 0.6) / 2;
     SpectralLinear.sigma_mean := 0.6 + (1 - 0.6) / 2;
     SpectralLinear.U := [[1; 0]; [0; 1]];
     SpectralLinear.p := [0; 0];
     SpectralLinear.V := [[1; 0]; [0; 1]];
     SpectralLinear.bias := Some [0; 0] |}.

(** A 2 by 3 spectral map without reflectors. *)
Definition spectral_plain_example : SpectralLinear.t :=
  {| SpectralLinear.insize := 2; SpectralLinear.outsize := 3;
     SpectralLinear.n_U_reflectors := 0; SpectralLinear.n_V_reflectors := 0;
     SpectralLinear.r := (1 - 0.6) / 2;
     SpectralLinear.sigma_mean := 0.6 + (1 - 0.6) / 2;
     SpectralLinear.U := [[1; 0]; [0; 1]];
     SpectralLinear.p := [0; 0];
     SpectralLinear.V := [[1; 0; 0]; [0; 1; 0]; [0; 0; 1]];
     SpectralLinear.bias := Some [0; 0; 0] |}.

(** A 1 by 2 Perron-Frobenius map whose two scaling entries differ. *)
Definition pf_example : PerronFrobeniusLinear.t :=
  {| PerronFrobeniusLinear.weight := [[0; 0]];
     PerronFrobeniusLinear.scaling := [[0; 1]];
     PerronFrobeniusLinear.sigma_min := 0.95;
     PerronFrobeniusLinear.sigma_max := 1;
     PerronFrobeniusLinear.bias := [0; 0] |}.


(** The 0-dimensional tensor holding [x]. *)
Definition scalar (x : R) : tensor := {| shape := []; data := [x] |}.

(** A closed loop over one measured signal [Yp] with eight time steps:
    an estimator with a window of 3, a policy with a horizon of 2 and an
    emulator, each returning a fixed output. *)

Definition example_estimator : ClosedLoopSimulator.component :=
  {| ClosedLoopSimulator.input_keys := ["Yp"%string];
     ClosedLoopSimulator.output_keys :=
       ["x0_estim"%string; "reg_error_estim"%string];
     ClosedLoopSimulator.nsteps := 0;
     ClosedLoopSimulator.window_size := 3;
     ClosedLoopSimulator.call := λ _,
       Ok (<["x0_estim"%string := {| shape := [1; 1; 1]%nat; data := [0] |}]>
           (<["reg_error_estim"%string := scalar 0]> ∅)) |}.

Definition example_policy : ClosedLoopSimulator.component :=
  {| ClosedLoopSimulator.input_keys := ["Yp"%string; "x0_estim"%string];
     ClosedLoopSimulator.output_keys :=
       ["U_pred"%string; "reg_error_policy"%string];
     ClosedLoopSimulator.nsteps := 2;
     ClosedLoopSimulator.window_size := 0;
     ClosedLoopSimulator.call := λ _,
       Ok (<["U_pred"%string := {| shape := [2; 1; 1]%nat; data := [1; 2] |}]>
           (<["reg_error_policy"%string := scalar 0]> ∅)) |}.

Definition example_emulator : ClosedLoopSimulator.component :=
  {| ClosedLoopSimulator.input_keys := ["U_pred"%string; "Yp"%string];
     ClosedLoopSimulator.output_keys :=
       ["Y_pred"%string; "reg_error_dynamics"%string];
     ClosedLoopSimulator.nsteps := 0;
     ClosedLoopSimulator.window_size := 0;
     ClosedLoopSimulator.call := λ _,
       Ok (<["Y_pred"%string := {| shape := [1; 1; 1]%nat; data := [5] |}]>
           (<["reg_error_dynamics"%string := scalar 0]> ∅)) |}.

Definition example_loop : ClosedLoopSimulator.t :=
  {| ClosedLoopSimulator.sim_data :=
       <["Yp"%string := {| shape := [8; 1; 1]%nat;
                           data := [0; 1; 2; 3; 4; 5; 6; 7] |}]> ∅;
     ClosedLoopSimulator.emulator := example_emulator;
     ClosedLoopSimulator.policy := example_policy;
     ClosedLoopSimulator.estimator := Some example_estimator |}.

(** What every step of [example_loop] hands to [append_data]. *)
Definition example_step_output : gmap string tensor :=
  <["Y_pred"%string := {| shape := [1; 1; 1]%nat; data := [5] |}]>
  (<["reg_error_dynamics"%string := scalar 0]>
  (<["U_pred"%string := {| shape := [1; 1; 1]%nat; data := [1] |}]>
  (<["reg_error_policy"%string := scalar 0]>
  (<["x0_estim"%string := {| shape := [1; 1; 1]%nat; data := [0] |}]>
  (<["reg_error_estim"%string := scalar 0]> ∅))))).

(** An [SVDLinear] from 2 to 2 with both factors at the identity, the
    default bounds and an all-zero bias. *)
Definition svd_example : SVDLinear.t :=
  {| SVDLinear.U := {| OrthogonalWeight.Q := eye 2; OrthogonalWeight.nx := 2 |};
     SVDLinear.V := {| OrthogonalWeight.Q := eye 2; OrthogonalWeight.nx := 2 |};
     SVDLinear.sigma := [0; 0];
     SVDLinear.sigma_min := 0.1;
     SVDLinear.sigma_max := 1;
     SVDLinear.insize := 2;
     SVDLinear.outsize := 2;
     SVDLinear.bias := [0; 0] |}.

Local Close Scope R_scope.

(** * Properties *)

(** ** Slices and indexing *)

Section slices.
Context {A : Type}.
Implicit Types l : list A.

Lemma slice_index_nat (n len : nat) :
  slice_index (Z.of_nat n) len = Nat.min n len.
Proof.
  unfold slice_index.
  destruct (Z.ltb_spec (Z.of_nat n) 0); [lia|].
  by rewrite Z2Nat.inj_min, !Nat2Z.id.
Qed.

(** [l[:n]] keeps the first [n] entries. *)
Lemma slice_to_nat l (n : nat) :
  slice None (Some (Z.of_nat n)) l = firstn n l.
Proof.
  unfold slice; simpl. rewrite slice_index_nat, Nat.sub_0_r.
  destruct (Nat.le_ge_cases n (length l)) as [Hle|Hge].
  - by rewrite Nat.min_l.
  - rewrite Nat.min_r by done. simpl.
    by rewrite firstn_all, firstn_all2.
Qed.

(** [l[-k:]] for [1 <= k <= len(l)] drops the first [len(l) - k]. *)
Lemma slice_last l (k : Z) :
  (1 <= k <= Z.of_nat (length l))%Z →
  slice (Some (- k)%Z) None l = skipn (length l - Z.to_nat k) l.
Proof.
  intros Hk. unfold slice, slice_index; simpl.
  destruct (Z.ltb_spec (- k) 0); [|lia].
  replace (Z.to_nat (Z.max 0 (- k + Z.of_nat (length l))))
    with (length l - Z.to_nat k)%nat by lia.
  apply firstn_all2. rewrite length_skipn. lia.
Qed.

(** [l[:-k]] for [1 <= k <= len(l)] keeps the first [len(l) - k]. *)
Lemma slice_but_last l (k : Z) :
  (1 <= k <= Z.of_nat (length l))%Z →
  slice None (Some (- k)%Z) l = firstn (length l - Z.to_nat k) l.
Proof.
  intros Hk. unfold slice, slice_index; simpl.
  destruct (Z.ltb_spec (- k) 0); [|lia].
  replace (Z.to_nat (Z.max 0 (- k + Z.of_nat (length l))))
    with (length l - Z.to_nat k)%nat by lia.
  by rewrite Nat.sub_0_r.
Qed.

Lemma nth_map_lt {B} (f : A → B) l (i : nat) (d : B) (d' : A) :
  (i < length l)%nat → nth i (map f l) d = f (nth i l d').
Proof.
  intros Hi. rewrite (nth_indep _ d (f d')) by (by rewrite length_map).
  apply map_nth.
Qed.

Lemma index_nat l (i : nat) a :
  l !! i = Some a → index l (Z.of_nat i) = Ok a.
Proof.
  intros Hi. unfold index.
  pose proof (lookup_lt_Some _ _ _ Hi) as Hlt.
  destruct (Z.ltb_spec (Z.of_nat i) 0); [lia|].
  destruct (Z.leb_spec 0 (Z.of_nat i)); [|lia].
  destruct (Z.ltb_spec (Z.of_nat i) (Z.of_nat (length l))); [|lia].
  simpl. by rewrite Nat2Z.id, Hi.
Qed.
End slices.

(** ** Real-valued helpers *)

Local Open Scope R_scope.

Lemma sigmoid_bounds (x : R) : 0 < sigmoid x < 1.
Proof.
  unfold sigmoid. pose proof (exp_pos (- x)) as He.
  split.
  - apply Rinv_0_lt_compat. lra.
  - rewrite <- Rinv_1 at 2. apply Rinv_lt_contravar; lra.
Qed.

Lemma sigmoid_0 : sigmoid 0 = / 2.
Proof. unfold sigmoid. rewrite Ropp_0, exp_0. f_equal; lra. Qed.

Lemma nth_diag (v : list R) (i j : nat) :
  (i < length v)%nat → (j < length v)%nat →
  nth j (nth i (diag v) []) 0 = if (i =? j)%nat then nth i v 0 else 0.
Proof.
  intros Hi Hj. unfold diag.
  rewrite (nth_map_lt _ _ _ _ 0%nat) by (by rewrite length_seq).
  rewrite (nth_map_lt _ _ _ _ 0%nat) by (by rewrite length_seq).
  by rewrite !seq_nth.
Qed.

Lemma length_diag (v : list R) : length (diag v) = length v.
Proof. unfold diag. by rewrite length_map, length_seq. Qed.

Lemma diag_rows (v : list R) :
  Forall (λ row, length row = length v) (diag v).
Proof.
  unfold diag. apply Forall_map, Forall_forall. intros i _. simpl.
  by rewrite length_map, length_seq.
Qed.

(** ** [SpectralLinear.Sigma] *)

Section Sigma.
Import SpectralLinear.

Variable self : t.
Hypothesis Hp : length (p self) = Nat.min (insize self) (outsize self).

Lemma length_padded :
  length (sigmas self
          ++ repeat 0 (Z.abs_nat (Z.of_nat (insize self)
                                  - Z.of_nat (outsize self))))
  = Nat.max (insize self) (outsize self).
Proof.
  rewrite length_app, repeat_length. unfold sigmas.
  rewrite length_map, Hp.
  destruct (Nat.min_spec (insize self) (outsize self)) as [[? ->]|[? ->]];
    destruct (Nat.max_spec (insize self) (outsize self)) as [[? ->]|[? ->]];
    lia.
Qed.

Lemma Sigma_firstn :
  Sigma self
  = map (firstn (outsize self))
        (firstn (insize self)
           (diag (sigmas self
                  ++ repeat 0 (Z.abs_nat (Z.of_nat (insize self)
                                          - Z.of_nat (outsize self)))))).
Proof.
  unfold Sigma. rewrite slice_to_nat.
  apply map_ext. intros row. apply slice_to_nat.
Qed.

Lemma nth_sigmas (i : nat) :
  (i < Nat.min (insize self) (outsize self))%nat →
  nth i (sigmas self) 0
  = 2 * r self * (sigmoid (nth i (p self) 0) - 0.5) + sigma_mean self.
Proof.
  intros Hi. unfold sigmas.
  by rewrite (nth_map_lt _ _ _ _ 0) by lia.
Qed.

Lemma Sigma_length : length (Sigma self) = insize self.
Proof.
  rewrite Sigma_firstn, length_map, length_firstn, length_diag, length_padded.
  lia.
Qed.

Lemma Sigma_rows : Forall (λ row, length row = outsize self) (Sigma self).
Proof.
  rewrite Sigma_firstn. apply Forall_map.
  apply Forall_forall. intros row Hrow. simpl.
  apply subseteq_take in Hrow.
  pose proof (diag_rows (sigmas self
    ++ repeat 0 (Z.abs_nat (Z.of_nat (insize self)
                            - Z.of_nat (outsize self))))) as Hd.
  rewrite Forall_forall in Hd. apply Hd in Hrow.
  rewrite length_firstn, Hrow, length_padded. lia.
Qed.

Lemma Sigma_entry (i j : nat) :
  (i < insize self)%nat → (j < outsize self)%nat →
  nth j (nth i (Sigma self) []) 0
  = if (i =? j)%nat
    then 2 * r self * (sigmoid (nth i (p self) 0) - 0.5) + sigma_mean self
    else 0.
Proof.
  intros Hi Hj. rewrite Sigma_firstn.
  rewrite (nth_map_lt _ _ _ _ [])
    by (rewrite length_firstn, length_diag, length_padded; lia).
  rewrite !nth_firstn.
  destruct (Nat.ltb_spec j (outsize self)); [|lia].
  destruct (Nat.ltb_spec i (insize self)); [|lia].
  rewrite nth_diag by (rewrite length_padded; lia).
  destruct (Nat.eqb_spec i j) as [->|Hne]; [|done].
  rewrite app_nth1 by (unfold sigmas; rewrite length_map, Hp; lia).
  apply nth_sigmas. lia.
Qed.
End Sigma.

(** The singular values stay within the bounds: [r] and [sigma_mean] are
    written out as [__init__] computes them. *)
Lemma singular_value_bounds (sigma_min sigma_max x : R) :
  sigma_min <= sigma_max →
  sigma_min
  <= 2 * ((sigma_max - sigma_min) / 2) * (sigmoid x - 0.5)
     + (sigma_min + (sigma_max - sigma_min) / 2)
  <= sigma_max.
Proof.
  intros Hle. pose proof (sigmoid_bounds x) as [H0 H1].
  assert (0 <= (sigma_max - sigma_min) * sigmoid x) as Ha
    by (apply Rmult_le_pos; lra).
  assert ((sigma_max - sigma_min) * sigmoid x <= (sigma_max - sigma_min) * 1)
    as Hb by (apply Rmult_le_compat_l; lra).
  lra.
Qed.

(** The constructor never returns: [super().__init__()] lacks the two
    arguments [LinearBase.__init__] requires. *)
Lemma SpectralLinear_init_raises
    (insize outsize n_U n_V : nat) (sigma_min sigma_max : R)
    (U : mat) (p : list R) (V : mat) (b : list R) :
  SpectralLinear.init insize outsize n_U n_V sigma_min sigma_max U p V b
  = Err TypeError.
Proof. reflexivity. Qed.

(** C1.  On any instance state whose attributes [r] and [sigma_mean] hold
    [(sigma_max - sigma_min)/2] and [sigma_min + r], the values lines 180
    and 181 of [__init__] assign, with [sigma_min <= sigma_max] and a
    parameter vector [p] of the length [min(insize, outsize)], whatever
    its entries: [Sigma()] is an [insize] by [outsize] matrix; its entry
    [(i, i)] is the singular value [2*r*(sigmoid(p_i) - 0.5) + sigma_mean],
    which lies in [[sigma_min, sigma_max]]; every other entry is zero; and
    for [insize = outsize] it is the square diagonal matrix of the
    singular values, with no padding.  The statement is about the method
    on such a state, not about [init], which raises before it assigns
    anything. *)
Theorem Sigma_bounded_diagonal
    (self : SpectralLinear.t) (sigma_min sigma_max : R) :
  sigma_min <= sigma_max →
  SpectralLinear.r self = (sigma_max - sigma_min) / 2 →
  SpectralLinear.sigma_mean self = sigma_min + SpectralLinear.r self →
  length (SpectralLinear.p self)
  = Nat.min (SpectralLinear.insize self) (SpectralLinear.outsize self) →
  let S := SpectralLinear.Sigma self in
  length S = SpectralLinear.insize self
  ∧ Forall (λ row, length row = SpectralLinear.outsize self) S
  ∧ (∀ i j : nat,
       (i < SpectralLinear.insize self)%nat →
       (j < SpectralLinear.outsize self)%nat →
       nth j (nth i S []) 0
       = if (i =? j)%nat
         then 2 * SpectralLinear.r self
              * (sigmoid (nth i (SpectralLinear.p self) 0) - 0.5)
              + SpectralLinear.sigma_mean self
         else 0)
  ∧ (∀ i : nat,
       (i < Nat.min (SpectralLinear.insize self)
                    (SpectralLinear.outsize self))%nat →
       sigma_min <= nth i (nth i S []) 0 <= sigma_max)
  ∧ (SpectralLinear.insize self = SpectralLinear.outsize self →
       S = diag (SpectralLinear.sigmas self)
       ∧ length S = length (SpectralLinear.p self)).
Proof.
  intros Hle Hr Hmean Hp S. subst S.
  split; [exact (Sigma_length self Hp)|].
  split; [exact (Sigma_rows self Hp)|].
  split; [intros i j Hi Hj; exact (Sigma_entry self Hp i j Hi Hj)|].
  split.
  - intros i Hi. rewrite (Sigma_entry self Hp) by lia.
    rewrite Nat.eqb_refl, Hmean, Hr. by apply singular_value_bounds.
  - intros Heq.
    split; [|by rewrite (Sigma_length self Hp), Hp, Heq, Nat.min_id].
    rewrite (Sigma_firstn self). rewrite Heq, Z.sub_diag.
    cbn [Z.abs_nat repeat]. rewrite app_nil_r.
    set (s := SpectralLinear.sigmas _).
    assert (length s = SpectralLinear.outsize self) as Hs.
    { unfold s, SpectralLinear.sigmas.
      by rewrite length_map, Hp, Heq, Nat.min_id. }
    rewrite firstn_all2 by (rewrite length_diag; lia).
    rewrite <- (map_id (diag s)) at 2.
    apply map_ext_in. intros row Hrow.
    pose proof (diag_rows s) as Hd. rewrite Forall_forall in Hd.
    apply list_elem_of_In, Hd in Hrow.
    apply firstn_all2. lia.
Qed.

(** C1 at the 2 by 3 map [spectral_plain_example], whose [r] and
    [sigma_mean] are those of the bounds 0.6 and 1. *)
Lemma Sigma_bounded_diagonal_witness :
  0.6 <= 1
  ∧ length (SpectralLinear.Sigma spectral_plain_example) = 2%nat
  ∧ 0.6 <= nth 1 (nth 1 (SpectralLinear.Sigma spectral_plain_example) []) 0
         <= 1.
Proof.
  assert (0.6 <= 1) as Hle by lra.
  destruct (Sigma_bounded_diagonal spectral_plain_example 0.6 1
              Hle eq_refl eq_refl eq_refl) as (Hlen & _ & _ & Hbounds & _).
  split; [exact Hle|]. split; [exact Hlen|].
  apply (Hbounds 1%nat). simpl. lia.
Defined.

(** ** Sums, softmax and entrywise products *)

Lemma nth_zip_with {A B C} (f : A → B → C) (la : list A) (lb : list B)
    (i : nat) (da : A) (db : B) (dc : C) :
  (i < length la)%nat → (i < length lb)%nat →
  nth i (zip_with f la lb) dc = f (nth i la da) (nth i lb db).
Proof.
  revert lb i. induction la as [|a la IH]; intros [|b lb] [|i] Ha Hb;
    simpl in *; try lia; [done|]. apply IH; lia.
Qed.

Lemma zip_with_rows {A} (f : A → A → A) (m1 m2 : list (list A)) (n : nat) :
  Forall (λ row, length row = n) m1 → Forall (λ row, length row = n) m2 →
  Forall (λ row, length row = n) (zip_with (zip_with f) m1 m2).
Proof.
  intros H1. revert m2. induction H1 as [|a m1 Ha H1 IH]; intros m2 H2.
  - constructor.
  - destruct H2 as [|c m2 Hc H2]; simpl; constructor.
    + rewrite length_zip_with. lia.
    + by apply IH.
Qed.

Lemma vsum_app (u v : list R) : vsum (u ++ v) = vsum u + vsum v.
Proof. induction u as [|a u IH]; simpl; [lra|]. rewrite IH. lra. Qed.

Lemma vsum_scale (c : R) (v : list R) :
  vsum (map (λ x, x * c) v) = vsum v * c.
Proof. induction v as [|a v IH]; simpl; [lra|]. rewrite IH. lra. Qed.

(** *** Underflow of the exponential *)

Lemma tiny_lt_1 : / 2 ^ 150 < 1.
Proof.
  assert (1 < 2 ^ 150) as Hpow by (apply Rlt_pow_R1; [lra|lia]).
  pose proof (Rinv_lt_contravar 1 (2 ^ 150)) as H.
  rewrite Rinv_1 in H. apply H; [lra|done].
Qed.

Lemma exp_f32_nonneg (x : R) : 0 <= exp_f32 x.
Proof.
  unfold exp_f32. destruct (Rle_dec _ _); [lra|]. left. apply exp_pos.
Qed.

Lemma exp_f32_le_exp (x : R) : exp_f32 x <= exp x.
Proof.
  unfold exp_f32. destruct (Rle_dec _ _); [left; apply exp_pos|lra].
Qed.

Lemma exp_f32_0 : exp_f32 0 = 1.
Proof.
  unfold exp_f32. rewrite exp_0. pose proof tiny_lt_1.
  destruct (Rle_dec _ _); [lra|done].
Qed.


Lemma exp_le_1 (x : R) : x <= 0 → exp x <= 1.
Proof.
  intros [H| ->]; [|rewrite exp_0; lra].
  left. rewrite <- exp_0. by apply exp_increasing.
Qed.



(** *** The largest entry *)

Lemma fold_Rmax_ge (d : R) (l : list R) :
  d <= fold_right Rmax d l ∧ Forall (λ x, x <= fold_right Rmax d l) l.
Proof.
  induction l as [|a l [IH1 IH2]]; simpl; [split; [lra|constructor]|].
  split; [eapply Rle_trans; [exact IH1|apply Rmax_r]|].
  constructor; [apply Rmax_l|].
  eapply Forall_impl; [exact IH2|]. simpl. intros x Hx.
  eapply Rle_trans; [exact Hx|apply Rmax_r].
Qed.

Lemma fold_Rmax_in (d : R) (l : list R) :
  fold_right Rmax d l = d ∨ fold_right Rmax d l ∈ l.
Proof.
  induction l as [|a l IH]; simpl; [by left|].
  apply Rmax_case.
  - right. by left.
  - destruct IH as [IH|IH]; [by left|]. right. by right.
Qed.

Lemma vmax_ge (v : list R) : Forall (λ x, x <= vmax v) v.
Proof. apply fold_Rmax_ge. Qed.

Lemma vmax_in (v : list R) : v ≠ [] → vmax v ∈ v.
Proof.
  intros Hv. unfold vmax. destruct v as [|a v]; [done|].
  destruct (fold_Rmax_in (hd 0 (a :: v)) (a :: v)) as [->|H]; [|done].
  by left.
Qed.

(** *** [softmax] *)

Lemma softmax_terms (v : list R) :
  Forall (λ a, 0 <= a <= 1) (map (λ x, exp_f32 (x - vmax v)) v).
Proof.
  apply Forall_map. eapply Forall_impl; [apply vmax_ge|]. simpl.
  intros x Hx. split; [apply exp_f32_nonneg|].
  eapply Rle_trans; [apply exp_f32_le_exp|]. apply exp_le_1. lra.
Qed.

Lemma vsum_ge_term (l : list R) (a : R) :
  Forall (λ x, 0 <= x) l → a ∈ l → a <= vsum l.
Proof.
  intros Hl. induction Hl as [|x l Hx Hl IH]; intros Ha.
  - by apply elem_of_nil in Ha.
  - assert (0 <= vsum l) as Hsum.
    { clear -Hl. induction Hl as [|y l Hy Hl IH]; simpl; lra. }
    simpl. apply elem_of_cons in Ha as [->|Ha]; [lra|].
    specialize (IH Ha). lra.
Qed.

Lemma vsum_le_length (l : list R) :
  Forall (λ x, x <= 1) l → vsum l <= INR (length l).
Proof.
  intros Hl. induction Hl as [|x l Hx Hl IH]; [simpl; lra|].
  cbn [length vsum fold_right]. rewrite S_INR. fold (vsum l). lra.
Qed.

(** The sum the exponentials are divided by: the largest entry
    contributes [exp(0) = 1]. *)
Lemma softmax_denominator (v : list R) :
  v ≠ [] →
  1 <= vsum (map (λ x, exp_f32 (x - vmax v)) v) <= INR (length v).
Proof.
  intros Hv. pose proof (softmax_terms v) as Hterms. split.
  - apply vsum_ge_term.
    + eapply Forall_impl; [exact Hterms|]. simpl. intros; lra.
    + apply list_elem_of_fmap. exists (vmax v).
      split; [|by apply vmax_in].
      by rewrite Rminus_diag, exp_f32_0.
  - rewrite <- (length_map (λ x, exp_f32 (x - vmax v)) v).
    apply vsum_le_length.
    eapply Forall_impl; [exact Hterms|]. simpl. intros; lra.
Qed.

Lemma length_softmax (v : list R) : length (softmax v) = length v.
Proof. unfold softmax. by rewrite !length_map. Qed.

Lemma softmax_sum (v : list R) : v ≠ [] → vsum (softmax v) = 1.
Proof.
  intros Hv. unfold softmax.
  pose proof (softmax_denominator v Hv) as [Hz _].
  unfold Rdiv. rewrite vsum_scale. field. lra.
Qed.

Lemma softmax_nonneg (v : list R) : Forall (λ w, 0 <= w) (softmax v).
Proof.
  destruct v as [|a v]; [constructor|].
  pose proof (softmax_denominator (a :: v) ltac:(done)) as [Hz _].
  unfold softmax. apply Forall_map.
  eapply Forall_impl; [apply softmax_terms|]. cbn beta. intros x [Hx _].
  apply Rmult_le_pos; [done|]. left. apply Rinv_0_lt_compat. lra.
Qed.


Lemma softmax_zeros (c : R) : softmax [c; c] = [/ 2; / 2].
Proof.
  unfold softmax, vmax. cbn [hd fold_right map].
  rewrite !Rmax_left by (rewrite ?Rmax_left; lra).
  rewrite Rminus_diag, exp_f32_0. cbn [vsum fold_right].
  repeat f_equal; lra.
Qed.

(** A weighted sum with non-negative weights stays between the bounds of
    its terms, scaled by the total weight. *)
Lemma weighted_sum_bounds (s w : list R) (a b : R) :
  length s = length w →
  Forall (λ x, a <= x <= b) s → Forall (λ x, 0 <= x) w →
  a * vsum w <= vsum (zip_with Rmult s w) <= b * vsum w.
Proof.
  revert w. induction s as [|x s IH]; intros [|y w] Hlen Hs Hw;
    simpl in *; try discriminate; [lra|].
  inversion Hs as [|? ? [Hx1 Hx2] Hs']; subst.
  inversion Hw as [|? ? Hy Hw']; subst.
  destruct (IH w) as [IH1 IH2]; [lia|done|done|].
  assert (a * y <= x * y) by (apply Rmult_le_compat_r; lra).
  assert (x * y <= b * y) by (apply Rmult_le_compat_r; lra).
  lra.
Qed.

Lemma weighted_sum_const (s w : list R) (c : R) :
  length s = length w → Forall (λ x, x = c) s →
  vsum (zip_with Rmult s w) = c * vsum w.
Proof.
  revert w. induction s as [|x s IH]; intros [|y w] Hlen Hs;
    simpl in *; try discriminate; [lra|].
  inversion Hs; subst. rewrite IH by (lia || done). lra.
Qed.

(** ** [PerronFrobeniusLinear.effective_W] *)

Section PerronFrobenius.
Import PerronFrobeniusLinear.

Variable self : t.
Variables insize outsize : nat.
Hypothesis Hweight : has_shape (weight self) insize outsize.
Hypothesis Hscaling : has_shape (scaling self) insize outsize.

Lemma s_clamped_shape : has_shape (s_clamped self) insize outsize.
Proof.
  destruct Hscaling as [Hlen Hrows]. unfold s_clamped. split.
  - by rewrite length_map.
  - apply Forall_map. eapply Forall_impl; [exact Hrows|].
    intros row Hrow. simpl. by rewrite length_map.
Qed.

Lemma softmax_shape : has_shape (map softmax (weight self)) insize outsize.
Proof.
  destruct Hweight as [Hlen Hrows]. split.
  - by rewrite length_map.
  - apply Forall_map. eapply Forall_impl; [exact Hrows|].
    intros row Hrow. simpl. by rewrite length_softmax.
Qed.

Lemma has_shape_nth (m : mat) (i : nat) :
  has_shape m insize outsize → (i < insize)%nat →
  length (nth i m []) = outsize.
Proof.
  intros [Hlen Hrows] Hi. rewrite Forall_forall in Hrows.
  apply Hrows, list_elem_of_In, nth_In. lia.
Qed.

(** Row [i] of the effective weight is the entrywise product of row [i]
    of the clamped scaling and the softmax of row [i] of the weight. *)
Lemma effective_W_row (i : nat) :
  (i < insize)%nat →
  nth i (effective_W self) []
  = zip_with Rmult (nth i (s_clamped self) [])
                   (softmax (nth i (weight self) [])).
Proof.
  intros Hi. unfold effective_W.
  destruct s_clamped_shape as [Hs _]. destruct Hweight as [Hw _].
  rewrite (nth_zip_with _ _ _ _ [] [])
    by (rewrite ?length_map; lia).
  by rewrite (nth_map_lt _ _ _ _ []) by lia.
Qed.

Lemma effective_W_shape : has_shape (effective_W self) insize outsize.
Proof.
  destruct s_clamped_shape as [Hs Hsr]. destruct softmax_shape as [Hw Hwr].
  unfold effective_W. split.
  - rewrite length_zip_with. lia.
  - by apply zip_with_rows.
Qed.


Lemma s_clamped_row_bounds (i : nat) :
  sigma_min self <= sigma_max self →
  Forall (λ s, sigma_min self <= s <= sigma_max self)
         (nth i (s_clamped self) []).
Proof.
  intros Hle. unfold s_clamped.
  destruct (Nat.lt_ge_cases i (length (scaling self))) as [Hi|Hi].
  - rewrite (nth_map_lt _ _ _ _ []) by done.
    apply Forall_map, Forall_forall. intros x _. simpl.
    pose proof (sigmoid_bounds x) as [H0 H1].
    assert (0 <= (sigma_max self - sigma_min self) * sigmoid x)
      by (apply Rmult_le_pos; lra).
    assert ((sigma_max self - sigma_min self) * sigmoid x
            <= (sigma_max self - sigma_min self) * 1)
      by (apply Rmult_le_compat_l; lra).
    lra.
  - rewrite nth_overflow by (by rewrite length_map). constructor.
Qed.

Lemma row_sum_bounds (i : nat) :
  sigma_min self <= sigma_max self → (0 < outsize)%nat → (i < insize)%nat →
  sigma_min self <= vsum (nth i (effective_W self) []) <= sigma_max self.
Proof.
  intros Hle Hout Hi. rewrite effective_W_row by done.
  assert (length (nth i (weight self) []) = outsize) as Hw
    by (by apply has_shape_nth).
  assert (nth i (weight self) [] ≠ []) as Hne
    by (intros Heq; rewrite Heq in Hw; simpl in Hw; lia).
  pose proof (weighted_sum_bounds
                (nth i (s_clamped self) []) (softmax (nth i (weight self) []))
                (sigma_min self) (sigma_max self)) as Hb.
  rewrite softmax_sum in Hb by done.
  rewrite !Rmult_1_r in Hb. apply Hb.
  - rewrite length_softmax, Hw. apply has_shape_nth; [|done].
    apply s_clamped_shape.
  - by apply s_clamped_row_bounds.
  - apply softmax_nonneg.
Qed.

Lemma row_sum_common_scaling (i : nat) (c : R) :
  (0 < outsize)%nat → (i < insize)%nat →
  Forall (λ s, s = c) (nth i (scaling self) []) →
  vsum (nth i (effective_W self) [])
  = sigma_max self - (sigma_max self - sigma_min self) * sigmoid c.
Proof.
  intros Hout Hi Hc. rewrite effective_W_row by done.
  assert (length (nth i (weight self) []) = outsize) as Hw
    by (by apply has_shape_nth).
  assert (nth i (weight self) [] ≠ []) as Hne
    by (intros Heq; rewrite Heq in Hw; simpl in Hw; lia).
  rewrite (weighted_sum_const _ _
             (sigma_max self - (sigma_max self - sigma_min self) * sigmoid c)).
  - rewrite softmax_sum by done. lra.
  - rewrite length_softmax, Hw. apply has_shape_nth; [|done].
    apply s_clamped_shape.
  - destruct Hscaling as [Hlen _]. unfold s_clamped.
    rewrite (nth_map_lt _ _ _ _ []) by lia.
    apply Forall_map. eapply Forall_impl; [exact Hc|].
    simpl. by intros x ->.
Qed.


End PerronFrobenius.

Lemma sigmoid_pos_gt_half (x : R) : 0 < x → / 2 < sigmoid x.
Proof.
  intros Hx. unfold sigmoid.
  assert (exp (- x) < 1) as He
    by (rewrite <- exp_0; apply exp_increasing; lra).
  pose proof (exp_pos (- x)).
  apply Rinv_lt_contravar; lra.
Qed.

Lemma Forall2_zip_with {A} (P Q S : A → Prop) (f : A → A → A)
    (m1 m2 : list (list A)) :
  (∀ a c, P a → Q c → S (f a c)) →
  Forall (Forall P) m1 → Forall (Forall Q) m2 →
  Forall (Forall S) (zip_with (zip_with f) m1 m2).
Proof.
  intros Hf H1. revert m2. induction H1 as [|a m1 Ha H1 IH]; intros m2 H2.
  - constructor.
  - destruct H2 as [|c m2 Hc H2]; simpl; constructor; [|by apply IH].
    clear IH H1 H2. revert c Hc.
    induction Ha as [|x a Hx Ha IH]; intros c Hc; [constructor|].
    destruct Hc as [|y c Hy Hc]; simpl; constructor; [by apply Hf|by apply IH].
Qed.

(** C2, as amended.  With [sigma_min <= sigma_max], every row sum of
    [effective_W()] lies in [[sigma_min, sigma_max]].  The scaling is a
    matrix with one entry per weight, so a row has no single [sigma]: the
    row sum equals [sigma_max - (sigma_max - sigma_min) * sigmoid(c)] when
    all scaling entries of the row share the value [c]. *)
Theorem PerronFrobenius_row_sums
    (self : PerronFrobeniusLinear.t) (insize outsize : nat) :
  PerronFrobeniusLinear.sigma_min self <= PerronFrobeniusLinear.sigma_max self →
  has_shape (PerronFrobeniusLinear.weight self) insize outsize →
  has_shape (PerronFrobeniusLinear.scaling self) insize outsize →
  (0 < outsize)%nat →
  ∀ i : nat, (i < insize)%nat →
    let row_sum := vsum (nth i (PerronFrobeniusLinear.effective_W self) []) in
    PerronFrobeniusLinear.sigma_min self <= row_sum
    ∧ row_sum <= PerronFrobeniusLinear.sigma_max self
    ∧ ∀ c : R,
        Forall (λ s, s = c) (nth i (PerronFrobeniusLinear.scaling self) []) →
        row_sum = PerronFrobeniusLinear.sigma_max self
                  - (PerronFrobeniusLinear.sigma_max self
                     - PerronFrobeniusLinear.sigma_min self) * sigmoid c.
Proof.
  intros Hle Hw Hs Hout i Hi row_sum. subst row_sum.
  destruct (row_sum_bounds self insize outsize Hw Hs i Hle Hout Hi).
  repeat split; [done|done|].
  intros c Hc. by eapply row_sum_common_scaling.
Qed.

(** C2, as amended, on the 1 by 2 map [pf_example]. *)
Lemma PerronFrobenius_row_sums_witness :
  let row_sum := vsum (nth 0 (PerronFrobeniusLinear.effective_W pf_example) []) in
  0.95 <= row_sum
  ∧ row_sum <= 1
  ∧ ∀ c : R,
      Forall (λ s, s = c) [0; 1] →
      row_sum = 1 - (1 - 0.95) * sigmoid c.
Proof.
  apply (PerronFrobenius_row_sums pf_example 1 2).
  - simpl. lra.
  - split; [reflexivity|]. repeat constructor.
  - split; [reflexivity|]. repeat constructor.
  - lia.
  - lia.
Defined.

(** C2, as stated, fails: in the 1 by 2 map [pf_example] the row sum of
    [effective_W()] differs from the [sigma] of either entry of the row. *)
Lemma PerronFrobenius_row_sum_is_no_sigma :
  PerronFrobeniusLinear.sigma_min pf_example
    <= PerronFrobeniusLinear.sigma_max pf_example
  ∧ has_shape (PerronFrobeniusLinear.weight pf_example) 1 2
  ∧ has_shape (PerronFrobeniusLinear.scaling pf_example) 1 2
  ∧ ∀ j : nat, (j < 2)%nat →
      vsum (nth 0 (PerronFrobeniusLinear.effective_W pf_example) [])
      ≠ nth j (nth 0 (PerronFrobeniusLinear.s_clamped pf_example) []) 0.
Proof.
  split; [simpl; lra|].
  split; [split; [reflexivity|repeat constructor]|].
  split; [split; [reflexivity|repeat constructor]|].
  intros j Hj.
  pose proof (sigmoid_pos_gt_half 1 ltac:(lra)) as H1.
  pose proof (sigmoid_bounds 1) as [_ H1'].
  unfold PerronFrobeniusLinear.effective_W, PerronFrobeniusLinear.s_clamped,
    pf_example.
  cbn [map PerronFrobeniusLinear.weight
       PerronFrobeniusLinear.scaling PerronFrobeniusLinear.sigma_min
       PerronFrobeniusLinear.sigma_max].
  rewrite softmax_zeros. unfold vsum.
  cbn [zip_with nth fold_right]. rewrite sigmoid_0.
  destruct j as [|[|j]]; [| |lia]; cbn [nth]; lra.
Qed.




(** ** [regularization_error] *)

(** C8.  [LinearBase.regularization_error] returns zero, and so do the
    variants that inherit it; [LassoLinear.regularization_error] reads
    [self.effective_W] without calling it and raises [AttributeError]
    before any scalar is produced. *)
Theorem regularization_error_variants (l : layer) :
  regularization_error l
  = match l with
    | LassoLinear _ => Err AttributeError
    | _ => Ok 0
    end.
Proof. by destruct l. Qed.

(** ** [SpectralLinear.Hprod] *)

Section Hprod.
Import SpectralLinear.

Lemma zip_with_map_same {A B C D} (f : B → C → D) (g : A → B) (h : A → C)
    (l : list A) :
  zip_with f (map g l) (map h l) = map (λ a, f (g a) (h a)) l.
Proof. induction l as [|a l IH]; simpl; [done|]. by rewrite IH. Qed.

Lemma forallb_rows (x : mat) (n : nat) (g : list R → list R) :
  Forall (λ row, length (g row) = n) x →
  forallb (λ row, (length row =? n)%nat) (map g x) = true.
Proof.
  intros Hx. rewrite forallb_forall. intros row Hrow.
  apply in_map_iff in Hrow as (row' & <- & Hin).
  rewrite Forall_forall in Hx. apply Nat.eqb_eq, Hx.
  by apply list_elem_of_In.
Qed.

Variables (x : mat) (u : list R) (d : nat) (k : Z).
Hypothesis Hx : Forall (λ row, length row = d) x.
Hypothesis Hu : (k <= Z.of_nat (length u))%Z.
Hypothesis Hk : (1 <= k <= Z.of_nat d)%Z.

(** [Hprod] reflects every row of the batch. *)
Lemma Hprod_rows : Hprod x u k = Ok (map (reflect_row u (Z.to_nat k)) x).
Proof.
  unfold Hprod.
  rewrite (slice_last u) by lia.
  set (uk := skipn (length u - Z.to_nat k) u).
  assert (length uk = Z.to_nat k) as Huk
    by (unfold uk; rewrite length_skipn; lia).
  assert (map (slice (Some (- k)%Z) None) x
          = map (skipn (d - Z.to_nat k)) x) as ->.
  { apply map_ext_in. intros row Hrow.
    rewrite Forall_forall in Hx. apply list_elem_of_In, Hx in Hrow.
    rewrite slice_last by lia. by rewrite Hrow. }
  assert (map (slice None (Some (- k)%Z)) x
          = map (firstn (d - Z.to_nat k)) x) as ->.
  { apply map_ext_in. intros row Hrow.
    rewrite Forall_forall in Hx. apply list_elem_of_In, Hx in Hrow.
    rewrite slice_but_last by lia. by rewrite Hrow. }
  unfold matvec. rewrite forallb_rows; cycle 1.
  { eapply Forall_impl; [exact Hx|]. simpl. intros row Hrow.
    rewrite length_skipn. lia. }
  simpl. rewrite !map_map, zip_with_map_same.
  assert (map (reflect_row u (Z.to_nat k)) x
          = map (λ row, firstn (d - Z.to_nat k) row
                        ++ zip_with Rminus (skipn (d - Z.to_nat k) row)
                             (map (λ b, 2 * dot (skipn (d - Z.to_nat k) row) uk
                                        / vsum (zip_with Rmult uk uk) * b)
                                  uk)) x) as ->.
  { apply map_ext_in. intros row Hrow.
    rewrite Forall_forall in Hx. apply list_elem_of_In, Hx in Hrow.
    unfold reflect_row. by rewrite Hrow. }
  destruct (Z.ltb_spec k (Z.of_nat (ncols x))) as [Hlt|Hge].
  - by rewrite zip_with_map_same.
  - f_equal. apply map_ext_in. intros row Hrow.
    assert (d - Z.to_nat k = 0)%nat as ->; [|done].
    destruct x as [|row0 x']; [done|].
    inversion Hx; subst. unfold ncols in Hge; simpl in Hge. lia.
Qed.

Lemma length_reflect_row (row : list R) :
  length row = d → length (reflect_row u (Z.to_nat k) row) = d.
Proof.
  intros Hrow. unfold reflect_row.
  rewrite length_app, length_firstn, length_zip_with, length_map,
    !length_skipn. lia.
Qed.

Lemma nth_reflect_row (row : list R) (j : nat) :
  length row = d → (j < d)%nat →
  let uk := skipn (length u - Z.to_nat k) u in
  nth j (reflect_row u (Z.to_nat k) row) 0
  = if (j <? d - Z.to_nat k)%nat then nth j row 0
    else nth j row 0
         - 2 * dot (skipn (d - Z.to_nat k) row) uk / dot uk uk
           * nth (j - (d - Z.to_nat k)) uk 0.
Proof.
  intros Hrow Hj uk. unfold reflect_row. fold uk. rewrite Hrow.
  assert (length uk = Z.to_nat k) as Huk
    by (unfold uk; rewrite length_skipn; lia).
  destruct (Nat.ltb_spec j (d - Z.to_nat k)) as [Hlt|Hge].
  - rewrite app_nth1 by (rewrite length_firstn; lia).
    rewrite nth_firstn. by destruct (Nat.ltb_spec j (d - Z.to_nat k)); [|lia].
  - rewrite app_nth2 by (rewrite length_firstn; lia).
    rewrite length_firstn, Hrow, Nat.min_l by lia.
    rewrite (nth_zip_with _ _ _ _ 0 0)
      by (rewrite ?length_map, ?length_skipn; lia).
    rewrite (nth_map_lt _ _ _ _ 0) by lia.
    rewrite nth_skipn.
    replace (d - Z.to_nat k + (j - (d - Z.to_nat k)))%nat with j by lia.
    done.
Qed.
End Hprod.

(** C3.  For a batch [x] with [d] columns, [1 <= k <= d] and a reflector
    [u] with at least [k] entries, of which [uk = u[-k:]] are the last [k],
    [Hprod(x, u, k)] returns a batch of the same shape: in row [b], with
    [alpha_b = 2 (x[b, -k:] . uk) / ||uk||^2], column [j] of the last [k]
    columns is [x[b, j]] minus [alpha_b] times the matching entry of [uk],
    and the first [d - k] columns are those of [x]. *)
Theorem Hprod_reflects_last_columns
    (x : mat) (u : list R) (d : nat) (k : Z) :
  Forall (λ row, length row = d) x →
  (k <= Z.of_nat (length u))%Z →
  (1 <= k <= Z.of_nat d)%Z →
  ∃ y : mat,
    SpectralLinear.Hprod x u k = Ok y
    ∧ length y = length x
    ∧ Forall (λ row, length row = d) y
    ∧ ∀ b j : nat, (b < length x)%nat → (j < d)%nat →
        let first := (d - Z.to_nat k)%nat in
        let uk := skipn (length u - Z.to_nat k) u in
        let alpha := 2 * dot (skipn first (nth b x [])) uk / dot uk uk in
        nth j (nth b y []) 0
        = if (j <? first)%nat then nth j (nth b x []) 0
          else nth j (nth b x []) 0 - alpha * nth (j - first) uk 0.
Proof.
  intros Hx Hu Hk. exists (map (reflect_row u (Z.to_nat k)) x).
  split; [by apply (Hprod_rows x u d k)|].
  split; [by rewrite length_map|].
  split.
  - apply Forall_map. eapply Forall_impl; [exact Hx|]. simpl.
    intros row Hrow. by apply (length_reflect_row u d k).
  - intros b j Hb Hj first uk alpha. subst first uk alpha.
    rewrite (nth_map_lt _ _ _ _ []) by done.
    apply (nth_reflect_row u d k); [done|done| |done].
    rewrite Forall_forall in Hx. apply Hx, list_elem_of_In, nth_In. lia.
Qed.

(** C3 on one row [[1; 2; 3]] reflected by [[1; 1; 1]] on its last two
    columns. *)
Lemma Hprod_reflects_last_columns_witness :
  ∃ y : mat,
    SpectralLinear.Hprod [[1; 2; 3]] [1; 1; 1] 2 = Ok y
    ∧ length y = 1%nat
    ∧ nth 0 (nth 0 y []) 0 = 1.
Proof.
  destruct (Hprod_reflects_last_columns [[1; 2; 3]] [1; 1; 1] 3 2)
    as (y & Hy & Hlen & _ & Hentry).
  - repeat constructor.
  - simpl. lia.
  - lia.
  - exists y. split; [exact Hy|]. split; [exact Hlen|].
    apply (Hentry 0%nat 0%nat); simpl; lia.
Defined.

(** ** Loops over dictionaries *)

Section dict_loops.
Context {A B : Type}.

(** A loop whose body succeeds on every entry maps the dictionary. *)
Lemma dict_mapM_total (f : string → A → result B) (g : string → A → B)
    (d : gmap string A) :
  (∀ k a, d !! k = Some a → f k a = Ok (g k a)) →
  dict_mapM f d = Ok (map_imap (λ k a, Some (g k a)) d).
Proof.
  unfold dict_mapM.
  apply (map_fold_weak_ind (λ r m,
    (∀ k a, m !! k = Some a → f k a = Ok (g k a)) →
    r = Ok (map_imap (λ k a, Some (g k a)) m))).
  - intros _. by rewrite map_imap_empty.
  - intros i x m r Hi IH Hall.
    rewrite IH; cycle 1.
    { intros k a Hk. apply Hall. rewrite lookup_insert_ne; [done|].
      intros ->. congruence. }
    simpl. rewrite (Hall i x) by apply lookup_insert_eq. simpl.
    by erewrite map_imap_insert_Some.
Qed.

(** A loop whose body raises on some entry raises. *)
Lemma dict_mapM_raises (f : string → A → result B) (d : gmap string A)
    (k : string) (a : A) (e : exn) :
  d !! k = Some a → f k a = Err e → ∃ e', dict_mapM f d = Err e'.
Proof.
  unfold dict_mapM. revert k a e.
  apply (map_fold_weak_ind (λ r m,
    ∀ k a e, m !! k = Some a → f k a = Err e → ∃ e', r = Err e')).
  - intros k a e Hk. by rewrite lookup_empty in Hk.
  - intros i x m r Hi IH k a e Hk Hf.
    destruct r as [m'|e']; [|by eexists].
    simpl. destruct (decide (i = k)) as [->|Hne].
    + rewrite lookup_insert_eq in Hk. injection Hk as ->.
      rewrite Hf. by eexists.
    + rewrite lookup_insert_ne in Hk by done.
      destruct (IH k a e Hk Hf) as [e' He']. discriminate.
Qed.
End dict_loops.

Lemma append_all_total {V} (d : gmap string V) (acc : gmap string (list V)) :
  dom d ⊆ dom acc →
  append_all d acc
  = Ok (map_imap (λ k l, Some (l ++ option_list (d !! k))) acc).
Proof.
  unfold append_all.
  apply (map_fold_weak_ind (λ r m,
    dom m ⊆ dom acc →
    r = Ok (map_imap (λ k l, Some (l ++ option_list (m !! k))) acc))).
  - intros _. f_equal. apply map_eq. intros k.
    rewrite map_lookup_imap. destruct (acc !! k) as [l|]; simpl; [|done].
    by rewrite lookup_empty, app_nil_r.
  - intros i x m r Hi IH Hdom.
    rewrite dom_insert in Hdom.
    rewrite IH by set_solver. simpl.
    assert (i ∈ dom acc) as Hin by set_solver.
    apply elem_of_dom in Hin as [l Hl].
    unfold getitem. rewrite map_lookup_imap, Hl. simpl.
    rewrite Hi. simpl. f_equal. apply map_eq. intros k.
    destruct (decide (i = k)) as [<-|Hne].
    + rewrite lookup_insert_eq, map_lookup_imap, Hl. simpl.
      by rewrite lookup_insert_eq, app_nil_r.
    + rewrite lookup_insert_ne, !map_lookup_imap by done.
      destruct (acc !! k); simpl; [|done].
      by rewrite lookup_insert_ne.
Qed.

(** ** Tensor operations *)

Lemma torch_cat_uniform (ts : list tensor) (n : nat) (s : list nat) :
  ts ≠ [] → Forall (λ t, shape t = n :: s) ts →
  torch_cat ts
  = Ok {| shape := (length ts * n)%nat :: s; data := concat (map data ts) |}.
Proof.
  intros Hne Hts. unfold torch_cat.
  destruct ts as [|t0 ts']; [done|].
  pose proof (Forall_inv Hts) as H0. rewrite H0.
  assert (forallb (λ t, match shape t with
                        | [] => false
                        | _ :: s' => bool_decide (s' = s)
                        end) (t0 :: ts') = true) as ->.
  { apply forallb_forall. intros t Ht.
    rewrite Forall_forall in Hts. apply list_elem_of_In, Hts in Ht.
    rewrite Ht. by apply bool_decide_eq_true. }
  do 3 f_equal.
  clear H0 Hne. induction Hts as [|t ts Ht Hts IH]; [done|].
  simpl. rewrite Ht, IH. done.
Qed.

Lemma torch_stack_uniform (ts : list tensor) (s : list nat) :
  ts ≠ [] → Forall (λ t, shape t = s) ts →
  torch_stack ts
  = Ok {| shape := length ts :: s; data := concat (map data ts) |}.
Proof.
  intros Hne Hts. unfold torch_stack.
  destruct ts as [|t0 ts']; [done|].
  pose proof (Forall_inv Hts) as H0. rewrite H0.
  assert (forallb (λ t, bool_decide (shape t = s)) (t0 :: ts') = true) as ->.
  { apply forallb_forall. intros t Ht.
    rewrite Forall_forall in Hts. apply list_elem_of_In, Hts in Ht.
    by apply bool_decide_eq_true. }
  done.
Qed.

(** ** [ClosedLoopSimulator.rhc] *)

Lemma select_time_first (dt : list R) (n : nat) (s : list nat) :
  (2 <= length s)%nat →
  select_time [0%Z] {| shape := S n :: s; data := dt |}
  = Ok {| shape := 1%nat :: s; data := firstn (numel s) dt |}.
Proof.
  intros Hs. unfold select_time, index_time, ndim.
  cbn [shape data length].
  destruct (length s) as [|[|m]] eqn:Hlen; [lia|lia|].
  simpl. by rewrite app_nil_r.
Qed.

(** C5.  On a policy output that holds, under the policy's first output
    key, a tensor of at least three dimensions and at least one time step,
    [rhc] replaces that entry by its first time step alone (index 0 along
    the time axis, the time axis kept with length 1) and leaves every other
    entry of the dictionary as it is. *)
Theorem rhc_keeps_first_step
    (self : ClosedLoopSimulator.t) (policy_out : gmap string tensor)
    (key : string) (v : tensor) (n : nat) (s : list nat) :
  ClosedLoopSimulator.output_keys (ClosedLoopSimulator.policy self) !! 0%nat
    = Some key →
  policy_out !! key = Some v →
  shape v = S n :: s → (2 <= length s)%nat →
  ∃ out : gmap string tensor,
    ClosedLoopSimulator.rhc self policy_out = Ok out
    ∧ out !! key
      = Some {| shape := 1%nat :: s; data := firstn (numel s) (data v) |}
    ∧ ∀ key' : string, key' ≠ key → out !! key' = policy_out !! key'.
Proof.
  intros Hkey Hv Hshape Hs. destruct v as [sh dt]. simpl in *. subst sh.
  exists (<[key := {| shape := 1%nat :: s;
                      data := firstn (numel s) dt |}]> policy_out).
  split; [|split].
  - unfold ClosedLoopSimulator.rhc.
    pose proof (index_nat _ 0%nat key Hkey) as Hi.
    change (Z.of_nat 0) with 0%Z in Hi. rewrite Hi. simpl.
    unfold getitem. rewrite Hv. simpl.
    by rewrite select_time_first.
  - apply lookup_insert_eq.
  - intros key' Hne. by rewrite lookup_insert_ne.
Qed.

(** C5 on the output of [example_policy], a horizon of two steps. *)
Lemma rhc_keeps_first_step_witness :
  ∃ out : gmap string tensor,
    ClosedLoopSimulator.rhc example_loop
      (<["U_pred"%string := {| shape := [2; 1; 1]%nat; data := [1; 2] |}]>
         (<["reg_error_policy"%string := scalar 0]> ∅)) = Ok out
    ∧ out !! "U_pred"%string
      = Some {| shape := [1; 1; 1]%nat; data := [1] |}.
Proof.
  destruct (rhc_keeps_first_step example_loop
    (<["U_pred"%string := {| shape := [2; 1; 1]%nat; data := [1; 2] |}]>
       (<["reg_error_policy"%string := scalar 0]> ∅))
    "U_pred"%string {| shape := [2; 1; 1]%nat; data := [1; 2] |}
    1%nat [1; 1]%nat) as (out & Hout & Hkey & _).
  - reflexivity.
  - reflexivity.
  - reflexivity.
  - simpl. lia.
  - exists out. split; [exact Hout|exact Hkey].
Defined.

(** ** [ClosedLoopSimulator.simulate] *)

(** C6.  Built with [estimator = None], [simulate] reads
    [self.estimator.output_keys] before any of its [is not None] guards
    and raises [AttributeError], whatever the data, the policy, the
    emulator and [nsim]. *)
Theorem simulate_without_estimator_raises
    (sim_data : gmap string tensor)
    (emulator policy : ClosedLoopSimulator.component) (nsim : Z) :
  ClosedLoopSimulator.simulate
    {| ClosedLoopSimulator.sim_data := sim_data;
       ClosedLoopSimulator.emulator := emulator;
       ClosedLoopSimulator.policy := policy;
       ClosedLoopSimulator.estimator := None |} nsim
  = Err AttributeError.
Proof. reflexivity. Qed.

Lemma list_remove_NoDup (x : string) (l : list string) :
  x ∈ l → NoDup l →
  ∃ l', list_remove x l = Ok l' ∧ NoDup l' ∧ ∀ y, y ∈ l' ↔ y ∈ l ∧ y ≠ x.
Proof.
  induction l as [|a l IH]; intros Hin Hnd.
  - by apply not_elem_of_nil in Hin.
  - apply NoDup_cons in Hnd as [Ha Hnd]. simpl.
    destruct (decide (x = a)) as [->|Hne].
    + exists l. split; [done|]. split; [done|].
      intros y. rewrite elem_of_cons. split.
      * intros Hy. split; [by right|]. by intros ->.
      * by intros [[->|Hy] Hne].
    + apply elem_of_cons in Hin as [->|Hin]; [done|].
      destruct (IH Hin Hnd) as (l' & -> & Hnd' & Hl'). simpl.
      exists (a :: l'). split; [done|]. split.
      * apply NoDup_cons. split; [|done]. rewrite Hl'. tauto.
      * intros y. rewrite !elem_of_cons, Hl'. split.
        -- intros [->|[Hy Hyx]]; [split; [by left|congruence]|].
           split; [by right|done].
        -- intros [[->|Hy] Hyx]; [by left|by right].
Qed.

Lemma init_cl_data_lookup {V} (keys : list string)
    (d : gmap string (list V)) (k : string) :
  foldl (λ d key, <[key := []]> d) d keys !! k
  = if decide (k ∈ keys) then Some [] else d !! k.
Proof.
  revert d. induction keys as [|a keys IH]; intros d; simpl.
  - destruct (decide (k ∈ [])) as [Hin|_]; [|done].
    by apply not_elem_of_nil in Hin.
  - rewrite IH.
    destruct (decide (k ∈ keys)) as [Hin|Hnin].
    + rewrite decide_True; [done|]. by right.
    + destruct (decide (k = a)) as [->|Hne].
      * rewrite decide_True by (by left). apply lookup_insert_eq.
      * rewrite decide_False by (rewrite elem_of_cons; tauto).
        by rewrite lookup_insert_ne.
Qed.

Section closed_loop.
Import ClosedLoopSimulator.

Variable self : t.
(** The tensor step [k] puts under [key]. *)
Variable outs : Z → string → tensor.

Lemma append_data_total (cl_data : gmap string (list tensor))
    (step_data : gmap string tensor) (k : Z) :
  (∀ key, is_Some (cl_data !! key) → step_data !! key = Some (outs k key)) →
  append_data cl_data step_data
  = Ok (map_imap (λ key l, Some (l ++ [outs k key])) cl_data).
Proof.
  intros Hkeys. unfold append_data. apply dict_mapM_total.
  intros key l Hl. unfold getitem. by rewrite Hkeys.
Qed.

Lemma loop_total (ks : list Z) (cl_data : gmap string (list tensor)) :
  (∀ k, k ∈ ks →
     ∃ out, step self k = Ok out
            ∧ ∀ key, is_Some (cl_data !! key) → out !! key = Some (outs k key)) →
  loop self ks cl_data
  = Ok (map_imap (λ key l, Some (l ++ map (λ k, outs k key) ks)) cl_data).
Proof.
  revert cl_data. induction ks as [|k ks IH]; intros cl_data Hks; simpl.
  - f_equal. apply map_eq. intros key. rewrite map_lookup_imap.
    destruct (cl_data !! key); simpl; [|done]. by rewrite app_nil_r.
  - destruct (Hks k) as (out & -> & Hout); [by left|]. simpl.
    rewrite (append_data_total _ _ k) by done. simpl.
    rewrite IH; cycle 1.
    { intros k' Hk'. destruct (Hks k') as (out' & -> & Hout'); [by right|].
      exists out'. split; [done|]. intros key. rewrite map_lookup_imap.
      intros [l Hl]. apply Hout'.
      destruct (cl_data !! key); [done|discriminate]. }
    f_equal. apply map_eq. intros key. rewrite !map_lookup_imap.
    destruct (cl_data !! key); simpl; [|done].
    by rewrite <- app_assoc.
Qed.
End closed_loop.

Lemma cl_keys_retained (self : ClosedLoopSimulator.t)
    (est : ClosedLoopSimulator.component) :
  let keys :=
    ClosedLoopSimulator.output_keys est
    ++ ClosedLoopSimulator.output_keys (ClosedLoopSimulator.policy self)
    ++ ClosedLoopSimulator.output_keys (ClosedLoopSimulator.emulator self) in
  ClosedLoopSimulator.estimator self = Some est →
  NoDup keys →
  "reg_error_dynamics"%string ∈ keys →
  "reg_error_policy"%string ∈ keys →
  "reg_error_estim"%string ∈ keys →
  ∃ retained : list string,
    ClosedLoopSimulator.cl_keys self = Ok retained
    ∧ ∀ key, key ∈ retained
        ↔ key ∈ keys ∧ key ≠ "reg_error_dynamics"%string
          ∧ key ≠ "reg_error_policy"%string
          ∧ key ≠ "reg_error_estim"%string.
Proof.
  intros keys Hest Hnd Hdyn Hpol Hestim.
  unfold ClosedLoopSimulator.cl_keys, ClosedLoopSimulator.estimator_attr.
  rewrite Hest. simpl. fold keys.
  destruct (list_remove_NoDup "reg_error_dynamics" keys Hdyn Hnd)
    as (l1 & -> & Hnd1 & Hl1). simpl.
  destruct (list_remove_NoDup "reg_error_policy" l1) as (l2 & -> & Hnd2 & Hl2);
    [by apply Hl1|done|]. simpl.
  destruct (list_remove_NoDup "reg_error_estim" l2) as (l3 & -> & Hnd3 & Hl3);
    [apply Hl2; split; [by apply Hl1|done]|done|].
  exists l3. split; [done|].
  intros key. rewrite Hl3, Hl2, Hl1. tauto.
Qed.

(** C4.  With [policy.nsteps = 2], [estimator.window_size = 3] and
    [nsim = 5] (output keys pairwise distinct and holding the three
    regularization keys; every step [k = 3..7] succeeding with one time
    step per retained key), [simulate(5)] starts at [k = 3], visits exactly
    [k = 3, 4, 5, 6, 7], and returns, for every retained key and for no
    other, the concatenation of the five step outputs, of length 5 along
    the time axis; the three regularization keys are absent. *)
Theorem simulate_scenario
    (self : ClosedLoopSimulator.t) (est : ClosedLoopSimulator.component)
    (outs : Z → string → tensor) (tails : string → list nat) :
  let keys :=
    ClosedLoopSimulator.output_keys est
    ++ ClosedLoopSimulator.output_keys (ClosedLoopSimulator.policy self)
    ++ ClosedLoopSimulator.output_keys (ClosedLoopSimulator.emulator self) in
  let retained (key : string) :=
    key ∈ keys ∧ key ≠ "reg_error_dynamics"%string
    ∧ key ≠ "reg_error_policy"%string ∧ key ≠ "reg_error_estim"%string in
  ClosedLoopSimulator.estimator self = Some est →
  ClosedLoopSimulator.nsteps (ClosedLoopSimulator.policy self) = 2%Z →
  ClosedLoopSimulator.window_size est = 3%Z →
  NoDup keys →
  "reg_error_dynamics"%string ∈ keys →
  "reg_error_policy"%string ∈ keys →
  "reg_error_estim"%string ∈ keys →
  (∀ k : Z, (3 <= k <= 7)%Z →
     ∃ out, ClosedLoopSimulator.step self k = Ok out
            ∧ ∀ key, retained key →
                out !! key = Some (outs k key)
                ∧ shape (outs k key) = 1%nat :: tails key) →
  ClosedLoopSimulator.start_k self = Ok 3%Z
  ∧ ClosedLoopSimulator.steps self 5 = Ok [3; 4; 5; 6; 7]%Z
  ∧ ∃ res : gmap string tensor,
      ClosedLoopSimulator.simulate self 5 = Ok res
      ∧ (∀ key, is_Some (res !! key) ↔ retained key)
      ∧ res !! "reg_error_dynamics"%string = None
      ∧ res !! "reg_error_policy"%string = None
      ∧ res !! "reg_error_estim"%string = None
      ∧ ∀ key, retained key →
          res !! key
          = Some {| shape := 5%nat :: tails key;
                    data := concat (map (λ k, data (outs k key))
                                        [3; 4; 5; 6; 7]%Z) |}.
Proof.
  intros keys retained Hest Hnsteps Hwin Hnd Hdyn Hpol Hestim Hsteps.
  subst retained. cbn beta in *.
  assert (ClosedLoopSimulator.start_k self = Ok 3%Z) as Hstart.
  { unfold ClosedLoopSimulator.start_k, ClosedLoopSimulator.estimator_attr.
    rewrite Hest. simpl. by rewrite Hwin, Hnsteps. }
  assert (ClosedLoopSimulator.steps self 5 = Ok [3; 4; 5; 6; 7]%Z) as Hks.
  { unfold ClosedLoopSimulator.steps. by rewrite Hstart. }
  split; [done|]. split; [done|].
  destruct (cl_keys_retained self est Hest Hnd Hdyn Hpol Hestim)
    as (l & Hl & Hmem). fold keys in Hmem.
  unfold ClosedLoopSimulator.simulate. rewrite Hl. cbn [mbind result_bind].
  rewrite Hks. cbn [mbind result_bind].
  set (cl_data := foldl (λ d key, <[key := []]> d) ∅ l).
  assert (∀ key, cl_data !! key
                 = if decide (key ∈ l) then Some [] else None) as Hcl.
  { intros key. unfold cl_data. rewrite init_cl_data_lookup.
    by rewrite lookup_empty. }
  rewrite (loop_total self outs); cycle 1.
  { intros k Hk.
    assert (3 <= k <= 7)%Z as Hk'.
    { repeat (apply elem_of_cons in Hk as [->|Hk]; [lia|]).
      by apply not_elem_of_nil in Hk. }
    destruct (Hsteps k Hk') as (out & Hout & Hkeys).
    exists out. split; [done|]. intros key [l' Hl'].
    rewrite Hcl in Hl'. destruct (decide (key ∈ l)) as [Hin|]; [|done].
    by apply Hkeys, Hmem. }
  cbn [mbind result_bind].
  set (g := λ (key : string) (ts : list tensor),
              {| shape := 5%nat :: tails key; data := concat (map data ts) |}).
  rewrite (dict_mapM_total _ g); cycle 1.
  { intros key ts. rewrite map_lookup_imap, Hcl.
    destruct (decide (key ∈ l)) as [Hin|]; [|done]. simpl.
    intros [= <-]. cbn beta.
    rewrite (torch_cat_uniform _ 1 (tails key)); [done|done|].
    simpl. repeat constructor; apply Hmem in Hin;
      match goal with
      | |- shape (outs ?k _) = _ =>
          destruct (Hsteps k ltac:(lia)) as (? & _ & Hkeys);
          by apply Hkeys
      end. }
  eexists. split; [done|].
  assert (∀ key, map_imap (λ key ts, Some (g key ts))
                   (map_imap (λ key l0, Some (l0 ++ map (λ k, outs k key)
                                                       [3; 4; 5; 6; 7]%Z))
                      cl_data) !! key
                 = if decide (key ∈ l)
                   then Some {| shape := 5%nat :: tails key;
                                data := concat (map (λ k, data (outs k key))
                                                    [3; 4; 5; 6; 7]%Z) |}
                   else None) as Hres.
  { intros key. rewrite !map_lookup_imap, Hcl.
    by destruct (decide (key ∈ l)). }
  split; [|split; [|split; [|split]]].
  - intros key. rewrite Hres, <- Hmem.
    destruct (decide (key ∈ l)); split; intros H; try done.
  - rewrite Hres. rewrite decide_False; [done|]. rewrite Hmem. tauto.
  - rewrite Hres. rewrite decide_False; [done|]. rewrite Hmem. tauto.
  - rewrite Hres. rewrite decide_False; [done|]. rewrite Hmem. tauto.
  - intros key Hkey. rewrite Hres. rewrite decide_True; [done|].
    by apply Hmem.
Qed.

(** C4 on [example_loop]: five steps, each adding one time step. *)
Lemma simulate_scenario_witness :
  ∃ res : gmap string tensor,
    ClosedLoopSimulator.simulate example_loop 5 = Ok res
    ∧ res !! "reg_error_policy"%string = None
    ∧ res !! "U_pred"%string
      = Some {| shape := [5; 1; 1]%nat; data := [1; 1; 1; 1; 1]%R |}.
Proof.
  destruct (simulate_scenario example_loop example_estimator
              (λ _ key, default (scalar 0) (example_step_output !! key))
              (λ _, [1; 1]%nat))
    as (_ & _ & res & Hres & _ & _ & Hpol & _ & Hkeys).
  - reflexivity.
  - reflexivity.
  - reflexivity.
  - compute_done.
  - compute_done.
  - compute_done.
  - compute_done.
  - intros k Hk. exists example_step_output. split.
    + assert (k = 3 ∨ k = 4 ∨ k = 5 ∨ k = 6 ∨ k = 7)%Z
        as [->|[->|[->|[->| ->]]]] by lia; reflexivity.
    + intros key (Hin & Hdyn & Hpol & Hestim). simpl in Hin.
      repeat (apply elem_of_cons in Hin as [->|Hin]; [done|]).
      by apply not_elem_of_nil in Hin.
  - exists res. split; [exact Hres|]. split; [exact Hpol|].
    rewrite Hkeys; [reflexivity|]. compute_done.
Defined.

(** ** [MultiSequenceOpenLoopSimulator.agg] *)

Lemma dom_map_imap_total {A B} (g : string → A → B) (d : gmap string A) :
  dom (map_imap (λ k a, Some (g k a)) d) = dom d.
Proof.
  apply set_eq. intros k. rewrite !elem_of_dom, map_lookup_imap.
  destruct (d !! k); simpl; split; intros [? ?]; by eauto.
Qed.

Lemma omap_cons_app {A B} (f : A → option B) (a : A) (l : list A) :
  omap f (a :: l) = option_list (f a) ++ omap f l.
Proof. simpl. by destruct (f a). Qed.

Section agg.
Import MultiSequenceOpenLoopSimulator.

Variable self : t.

(** The middle loop gathers, under each key, the entries of the outputs in
    order. *)
Lemma collect_total (outputs : list (gmap string value))
    (agg_outputs : gmap string (list value)) :
  Forall (λ data, dom data ⊆ dom agg_outputs) outputs →
  collect outputs agg_outputs
  = Ok (map_imap (λ k l, Some (l ++ omap (λ data, data !! k) outputs))
                 agg_outputs).
Proof.
  revert agg_outputs.
  induction outputs as [|data outputs IH]; intros agg_outputs Hdom.
  - simpl. f_equal. apply map_eq. intros k. rewrite map_lookup_imap.
    destruct (agg_outputs !! k); simpl; [|done]. by rewrite app_nil_r.
  - apply Forall_cons in Hdom as [Hdata Hdom].
    cbn [collect]. rewrite append_all_total by done.
    cbn [mbind result_bind]. rewrite IH; cycle 1.
    { eapply Forall_impl; [exact Hdom|]. intros d Hd. simpl in Hd.
      by rewrite dom_map_imap_total. }
    f_equal. apply map_eq. intros k. rewrite !map_lookup_imap.
    destruct (agg_outputs !! k); simpl; [|done].
    rewrite <- app_assoc. do 2 f_equal.
    by destruct (data !! k).
Qed.

Lemma tensors_map (ts : list tensor) : tensors (map VTensor ts) = Ok ts.
Proof. induction ts as [|t0 ts IH]; simpl; [done|]. by rewrite IH. Qed.

(** What the last loop of [agg] computes from tensors of one shape. *)
Lemma agg_entry_tensors (t0 : tensor) (ts : list tensor) :
  Forall (λ t, shape t = shape t0) (t0 :: ts) →
  agg_entry self (map VTensor (t0 :: ts))
  = Ok (Aggregated
          (if (ndim t0 <? 2)%nat then
             torch_mean {| shape := length (t0 :: ts) :: shape t0;
                           data := concat (map data (t0 :: ts)) |}
           else if stack self then
             {| shape := length (t0 :: ts) :: shape t0;
                data := concat (map data (t0 :: ts)) |}
           else
             {| shape := (length (t0 :: ts) * hd 0 (shape t0))%nat
                         :: tl (shape t0);
                data := concat (map data (t0 :: ts)) |})).
Proof.
  intros Hts. unfold agg_entry.
  pose proof (index_nat (map VTensor (t0 :: ts)) 0%nat (VTensor t0) eq_refl)
    as Hi.
  change (Z.of_nat 0) with 0%Z in Hi. rewrite Hi.
  cbn [mbind result_bind]. rewrite tensors_map. cbn [mbind result_bind].
  destruct (ndim t0 <? 2)%nat eqn:Hdim.
  - by rewrite (torch_stack_uniform _ (shape t0)).
  - destruct (stack self).
    + by rewrite (torch_stack_uniform _ (shape t0)).
    + apply Nat.ltb_ge in Hdim. unfold ndim in Hdim.
      destruct (shape t0) as [|n s] eqn:Hshape; [simpl in Hdim; lia|].
      by rewrite (torch_cat_uniform _ n s).
Qed.

(** [agg] on outputs that all have the keys of the first one and hold,
    under each tensor key, tensors of one shape: [col k] lists them. *)
Lemma agg_uniform (first : gmap string value)
    (rest : list (gmap string value)) (col : string → list tensor) :
  Forall (λ data, dom data = dom first) rest →
  (∀ k t0, first !! k = Some (VTensor t0) →
     Forall2 (λ data t, data !! k = Some (VTensor t) ∧ shape t = shape t0)
             (first :: rest) (col k)) →
  ∃ res : gmap string aggregate,
    agg self (first :: rest) = Ok res
    ∧ dom res = dom first
    ∧ (∀ k s, first !! k = Some (VStr s) →
         ∃ l, res !! k = Some (Collected (VStr s :: l)))
    ∧ ∀ k t0, first !! k = Some (VTensor t0) →
        res !! k
        = Some (Aggregated
            (if (ndim t0 <? 2)%nat then
               {| shape := [];
                  data := [(vsum (concat (map data (col k)))
                            / INR (length (concat (map data (col k)))))%R] |}
             else if stack self then
               {| shape := S (length rest) :: shape t0;
                  data := concat (map data (col k)) |}
             else
               {| shape := (S (length rest) * hd 0 (shape t0))%nat
                           :: tl (shape t0);
                  data := concat (map data (col k)) |})).
Proof.
  intros Hdom Hcol. unfold agg.
  pose proof (index_nat (first :: rest) 0%nat first eq_refl) as Hi.
  change (Z.of_nat 0) with 0%Z in Hi. rewrite Hi.
  cbn [mbind result_bind]. rewrite collect_total; cycle 1.
  { rewrite dom_fmap_L. constructor; [done|].
    eapply Forall_impl; [exact Hdom|]. by intros d ->. }
  cbn [mbind result_bind].
  set (gathered := map_imap _ _).
  assert (∀ k, gathered !! k
               = (λ v, v :: omap (λ data, data !! k) rest) <$> first !! k)
    as Hgathered.
  { intros k. unfold gathered. rewrite map_lookup_imap, lookup_fmap.
    destruct (first !! k) as [v|] eqn:Hk; simpl; [|done].
    by rewrite Hk. }
  assert (∀ k t0, first !! k = Some (VTensor t0) →
            gathered !! k = Some (map VTensor (col k))
            ∧ ∃ ts, col k = t0 :: ts ∧ length ts = length rest
                    ∧ Forall (λ t, shape t = shape t0) (t0 :: ts)) as Htensor.
  { intros k t0 Hk. specialize (Hcol k t0 Hk).
    rewrite Hgathered, Hk. simpl.
    inversion Hcol as [|? t ? ts [Ht Hst] Hrest]; subst.
    rewrite Hk in Ht. injection Ht as <-.
    assert (omap (λ data, data !! k) rest = map VTensor ts
            ∧ length ts = length rest
            ∧ Forall (λ t, shape t = shape t0) ts) as (-> & Hlen & Hshapes).
    { clear -Hrest. induction Hrest as [|d t ds ts [Hd Hs] _ (IH1 & IH2 & IH3)].
      - done.
      - rewrite omap_cons_app, Hd, IH1. simpl. rewrite IH2.
        split; [done|]. split; [done|]. by constructor. }
    split; [done|]. exists ts.
    split; [done|]. split; [done|]. by constructor. }
  set (g := λ (k : string) (l : list value),
              match agg_entry self l with
              | Ok a => a
              | Err _ => Collected l
              end).
  rewrite (dict_mapM_total _ g); cycle 1.
  { intros k l. rewrite Hgathered. unfold g.
    destruct (first !! k) as [[s|t0]|] eqn:Hk; simpl; [| |done].
    - by intros [= <-].
    - destruct (Htensor k t0 Hk) as (Hg & ts & Hts & _ & Hshapes).
      rewrite Hgathered, Hk in Hg. simpl in Hg. rewrite Hg.
      intros [= <-]. rewrite Hts.
      by rewrite agg_entry_tensors. }
  eexists. split; [done|]. split; [|split].
  - rewrite dom_map_imap_total. unfold gathered.
    by rewrite dom_map_imap_total, dom_fmap_L.
  - intros k s Hk. rewrite map_lookup_imap, Hgathered, Hk. simpl.
    by eexists.
  - intros k t0 Hk.
    destruct (Htensor k t0 Hk) as (Hg & ts & Hts & Hlen & Hshapes).
    rewrite map_lookup_imap, Hg. simpl. unfold g.
    rewrite Hts, agg_entry_tensors by done.
    simpl. rewrite Hlen. done.
Qed.
End agg.

Lemma agg_two_scalars (self : MultiSequenceOpenLoopSimulator.t) :
  MultiSequenceOpenLoopSimulator.agg self
    [ {["loss"%string := VTensor (scalar 1)]};
      {["loss"%string := VTensor (scalar 3)]} ]
  = Ok {["loss"%string := Aggregated (scalar 2)]}.
Proof.
  destruct (agg_uniform self
              {["loss"%string := VTensor (scalar 1)]}
              [ {["loss"%string := VTensor (scalar 3)]} ]
              (λ _, [scalar 1; scalar 3]))
    as (res & -> & Hdom & _ & Hres).
  - constructor; [|done]. by rewrite !dom_singleton_L.
  - intros k t0 Hk. apply lookup_singleton_Some in Hk as [<- [= <-]].
    repeat constructor; apply lookup_singleton_eq.
  - f_equal. apply map_eq. intros k.
    destruct (decide (k = "loss"%string)) as [->|Hne].
    + rewrite (Hres _ (scalar 1)) by apply lookup_singleton_eq.
      rewrite lookup_singleton_eq. unfold scalar. simpl.
      do 4 f_equal. lra.
    + rewrite lookup_singleton_ne by done.
      apply not_elem_of_dom. rewrite Hdom, dom_singleton_L.
      by apply not_elem_of_singleton.
Qed.

Lemma agg_two_batches (self : MultiSequenceOpenLoopSimulator.t)
    (key : string) (t1 t2 : tensor) :
  shape t1 = [5; 3]%nat → shape t2 = [5; 3]%nat →
  MultiSequenceOpenLoopSimulator.agg self
    [ {[key := VTensor t1]}; {[key := VTensor t2]} ]
  = Ok {[key := Aggregated
            {| shape := if MultiSequenceOpenLoopSimulator.stack self
                        then [2; 5; 3]%nat else [10; 3]%nat;
               data := data t1 ++ data t2 |}]}.
Proof.
  intros H1 H2.
  destruct (agg_uniform self {[key := VTensor t1]} [ {[key := VTensor t2]} ]
              (λ _, [t1; t2]))
    as (res & -> & Hdom & _ & Hres).
  - constructor; [|done]. by rewrite !dom_singleton_L.
  - intros k t0 Hk. apply lookup_singleton_Some in Hk as [<- [= <-]].
    repeat constructor; try apply lookup_singleton_eq. congruence.
  - f_equal. apply map_eq. intros k.
    destruct (decide (k = key)) as [->|Hne].
    + rewrite (Hres _ t1) by apply lookup_singleton_eq.
      rewrite lookup_singleton_eq. unfold ndim. rewrite H1. simpl.
      rewrite app_nil_r. by destruct (MultiSequenceOpenLoopSimulator.stack self).
    + rewrite lookup_singleton_ne by done.
      apply not_elem_of_dom. rewrite Hdom, dom_singleton_L.
      by apply not_elem_of_singleton.
Qed.

(** C7.  (1) [agg] on [{"loss": 1.0}] and [{"loss": 3.0}] (0-dimensional
    tensors) yields [{"loss": 2.0}].  (2) On two dictionaries holding
    tensors of shape (5, 3) under one key it yields their concatenation of
    shape (10, 3) when [stack] is false and their stack of shape (2, 5, 3)
    when it is true.  (3) In general, on outputs that share the keys of the
    first and hold tensors of one shape under each tensor key, an entry of
    fewer than 2 dimensions becomes the mean over all the collected
    entries, and any other entry becomes the concatenation along the
    leading axis or, when [stack] is set, the stack along a new one. *)
Theorem agg_mean_cat_stack (self : MultiSequenceOpenLoopSimulator.t) :
  MultiSequenceOpenLoopSimulator.agg self
    [ {["loss"%string := VTensor (scalar 1)]};
      {["loss"%string := VTensor (scalar 3)]} ]
  = Ok {["loss"%string := Aggregated (scalar 2)]}
  ∧ (∀ (key : string) (t1 t2 : tensor),
       shape t1 = [5; 3]%nat → shape t2 = [5; 3]%nat →
       MultiSequenceOpenLoopSimulator.agg self
         [ {[key := VTensor t1]}; {[key := VTensor t2]} ]
       = Ok {[key := Aggregated
                 {| shape := if MultiSequenceOpenLoopSimulator.stack self
                             then [2; 5; 3]%nat else [10; 3]%nat;
                    data := data t1 ++ data t2 |}]})
  ∧ ∀ (first : gmap string value) (rest : list (gmap string value))
      (col : string → list tensor),
      Forall (λ data, dom data = dom first) rest →
      (∀ k t0, first !! k = Some (VTensor t0) →
         Forall2 (λ data t, data !! k = Some (VTensor t) ∧ shape t = shape t0)
                 (first :: rest) (col k)) →
      ∃ res : gmap string aggregate,
        MultiSequenceOpenLoopSimulator.agg self (first :: rest) = Ok res
        ∧ dom res = dom first
        ∧ ∀ k t0, first !! k = Some (VTensor t0) →
            res !! k
            = Some (Aggregated
                (if (ndim t0 <? 2)%nat then
                   {| shape := [];
                      data := [(vsum (concat (map data (col k)))
                                / INR (length (concat (map data (col k)))))%R]
                   |}
                 else if MultiSequenceOpenLoopSimulator.stack self then
                   {| shape := S (length rest) :: shape t0;
                      data := concat (map data (col k)) |}
                 else
                   {| shape := (S (length rest) * hd 0 (shape t0))%nat
                               :: tl (shape t0);
                      data := concat (map data (col k)) |})).
Proof.
  split; [apply agg_two_scalars|].
  split; [apply agg_two_batches|].
  intros first rest col Hdom Hcol.
  destruct (agg_uniform self first rest col Hdom Hcol)
    as (res & Hres & Hd & _ & Ht).
  by exists res.
Qed.

(** C7 on the two scalar losses, with [stack = False]. *)
Lemma agg_mean_cat_stack_witness :
  MultiSequenceOpenLoopSimulator.agg
    {| MultiSequenceOpenLoopSimulator.model := Ok;
       MultiSequenceOpenLoopSimulator.stack := false |}
    [ {["loss"%string := VTensor (scalar 1)]};
      {["loss"%string := VTensor (scalar 3)]} ]
  = Ok {["loss"%string := Aggregated (scalar 2)]}.
Proof.
  exact (proj1 (agg_mean_cat_stack
                  {| MultiSequenceOpenLoopSimulator.model := Ok;
                     MultiSequenceOpenLoopSimulator.stack := false |})).
Defined.

(** ** Linear maps on rows *)

Lemma length_vscale (c : R) (v : list R) : length (vscale c v) = length v.
Proof. unfold vscale. by rewrite length_map. Qed.

Lemma length_lincomb (a b : R) (u v : list R) :
  length u = length v →
  length (vadd (vscale a u) (vscale b v)) = length u.
Proof.
  intros Huv. unfold vadd. rewrite length_zip_with, !length_vscale. lia.
Qed.

Lemma nth_lincomb (a b : R) (u v : list R) (i : nat) :
  length u = length v →
  nth i (vadd (vscale a u) (vscale b v)) 0 = a * nth i u 0 + b * nth i v 0.
Proof.
  intros Huv. destruct (Nat.lt_ge_cases i (length u)) as [Hi|Hi].
  - unfold vadd, vscale.
    rewrite (nth_zip_with _ _ _ _ 0 0) by (rewrite length_map; lia).
    by rewrite !(nth_map_lt _ _ _ _ 0) by lia.
  - rewrite !nth_overflow by (rewrite ?length_lincomb; lia). lra.
Qed.

Lemma dot_lincomb (a b : R) (u v w : list R) :
  length u = length v →
  dot (vadd (vscale a u) (vscale b v)) w = a * dot u w + b * dot v w.
Proof.
  unfold dot, vadd, vscale. revert v w.
  induction u as [|x u IH]; intros [|y v] [|z w] Huv; simpl in *;
    try discriminate; try lra.
  rewrite IH by lia. lra.
Qed.

Lemma skipn_lincomb (n : nat) (a b : R) (u v : list R) :
  skipn n (vadd (vscale a u) (vscale b v))
  = vadd (vscale a (skipn n u)) (vscale b (skipn n v)).
Proof. unfold vadd, vscale. by rewrite zip_with_drop, !skipn_map. Qed.

Lemma map_lincomb {A} (a b : R) (f g : A → R) (l : list A) :
  map (λ x, a * f x + b * g x) l = vadd (vscale a (map f l)) (vscale b (map g l)).
Proof.
  unfold vadd, vscale. induction l as [|x l IH]; simpl; [done|].
  by rewrite IH.
Qed.

Lemma linear_compose (n m q : nat) (f g : list R → list R) :
  linear n m f → linear m q g → linear n q (λ v, g (f v)).
Proof.
  intros [Hf1 Hf2] [Hg1 Hg2]. split.
  - intros v Hv. by apply Hg1, Hf1.
  - intros a b u v Hu Hv. rewrite Hf2 by done. apply Hg2; by apply Hf1.
Qed.

Lemma linear_id (n : nat) : linear n n (λ v, v).
Proof. by split. Qed.

(** A Householder reflection of the last [k] entries is linear. *)
Lemma linear_reflect_row (u : list R) (d k : nat) :
  length u = d → (1 <= k <= d)%nat → linear d d (reflect_row u k).
Proof.
  intros Hu Hk.
  assert (1 <= Z.of_nat k <= Z.of_nat d)%Z as Hk' by lia.
  assert (Z.of_nat k <= Z.of_nat (length u))%Z as Hu' by lia.
  pose proof (length_reflect_row u d (Z.of_nat k) Hu' Hk') as Hlen.
  pose proof (nth_reflect_row u d (Z.of_nat k) Hu' Hk') as Hnth.
  cbn zeta in Hnth. rewrite Nat2Z.id in Hlen, Hnth.
  split; [exact Hlen|].
  intros a b p q Hp Hq.
  assert (length p = length q) as Hpq by congruence.
  apply (nth_ext _ _ 0 0).
  - rewrite Hlen by (rewrite length_lincomb; congruence).
    rewrite length_lincomb by (rewrite !Hlen; done).
    by rewrite Hlen.
  - intros j Hj.
    rewrite Hlen in Hj by (rewrite length_lincomb; congruence).
    rewrite nth_lincomb by (rewrite !Hlen; done).
    rewrite !Hnth by (rewrite ?length_lincomb; (congruence || done)).
    destruct (j <? d - k)%nat.
    + by apply nth_lincomb.
    + rewrite nth_lincomb, skipn_lincomb, dot_lincomb
        by (rewrite ?length_skipn; congruence).
      unfold Rdiv. ring.
Qed.

Lemma linear_reflect_rows (M : mat) (size : nat) (idx : list nat) :
  Forall (λ i, (i < size)%nat ∧ length (nth i M []) = size) idx →
  linear size size (reflect_rows M size idx).
Proof.
  unfold reflect_rows. induction idx as [|i idx IH] using rev_ind; intros Hidx.
  - apply linear_id.
  - apply Forall_app in Hidx as [Hidx Hi].
    apply Forall_inv in Hi as [Hi Hrow].
    eapply (linear_compose _ size _ (λ v, foldl _ v idx)
              (reflect_row (nth i M []) (size - i))) in IH; [|done|].
    + destruct IH as [H1 H2]. split.
      * intros v Hv. rewrite foldl_snoc. by apply H1.
      * intros a b u v Hu Hv. rewrite !foldl_snoc. by apply H2.
    + apply linear_reflect_row; [done|lia].
Qed.

Lemma length_vecmat (v : list R) (m : mat) :
  length (vecmat v m) = ncols m.
Proof. unfold vecmat. by rewrite length_map, length_seq. Qed.

Lemma linear_vecmat (m : mat) (n : nat) :
  linear n (ncols m) (λ v, vecmat v m).
Proof.
  split; [intros v _; apply length_vecmat|].
  intros a b u v Hu Hv. unfold vecmat.
  rewrite <- map_lincomb. apply map_ext. intros j.
  apply dot_lincomb. congruence.
Qed.

(** ** A linear map is the product with its image of the identity *)

Lemma eye_shape (n : nat) : has_shape (eye n) n n.
Proof.
  unfold eye. split.
  - by rewrite length_map, length_seq.
  - apply Forall_map, Forall_forall. intros i _. simpl.
    by rewrite length_map, length_seq.
Qed.

Lemma nth_eye_row (n i j : nat) :
  (j < n)%nat →
  nth j (map (λ j, if (i =? j)%nat then 1 else 0) (seq 0 n)) 0
  = if (i =? j)%nat then 1 else 0.
Proof.
  intros Hj. rewrite (nth_map_lt _ _ _ _ 0%nat) by (by rewrite length_seq).
  by rewrite seq_nth.
Qed.

Section representation.
Variable n : nat.
Variable phi : list R → R.
Hypothesis Hphi : ∀ a b u v, length u = n → length v = n →
  phi (vadd (vscale a u) (vscale b v)) = a * phi u + b * phi v.

Let e (i : nat) : list R :=
  map (λ j, if (i =? j)%nat then 1 else 0) (seq 0 n).

Lemma phi_zero : phi (repeat 0 n) = 0.
Proof.
  assert (vadd (vscale 0 (repeat 0 n)) (vscale 0 (repeat 0 n)) = repeat 0 n)
    as Hz.
  { apply (nth_ext _ _ 0 0).
    - by rewrite length_lincomb.
    - intros j _. rewrite nth_lincomb by done. rewrite nth_repeat. lra. }
  pose proof (Hphi 0 0 (repeat 0 n) (repeat 0 n)) as H.
  rewrite Hz, !repeat_length in H. specialize (H eq_refl eq_refl). lra.
Qed.

Lemma unit_step (k : nat) (a : R) (l : list R) :
  (k + S (length l) = n)%nat →
  repeat 0 k ++ a :: l
  = vadd (vscale a (e k)) (vscale 1 (repeat 0 (S k) ++ l)).
Proof.
  intros Hk.
  assert (length (e k) = n) as He
    by (unfold e; by rewrite length_map, length_seq).
  assert (length (repeat 0 (S k) ++ l) = n) as Hr
    by (rewrite length_app, repeat_length; lia).
  apply (nth_ext _ _ 0 0).
  - rewrite length_lincomb by congruence.
    rewrite length_app, repeat_length, He. simpl. lia.
  - intros j Hj. rewrite length_app, repeat_length in Hj. simpl in Hj.
    rewrite nth_lincomb by congruence.
    unfold e. rewrite nth_eye_row by lia.
    destruct (Nat.lt_trichotomy j k) as [Hlt|[->|Hgt]].
    + rewrite !app_nth1 by (rewrite repeat_length; lia).
      rewrite !nth_repeat.
      destruct (Nat.eqb_spec k j); [lia|lra].
    + rewrite app_nth2 by (rewrite repeat_length; lia).
      rewrite app_nth1 by (rewrite repeat_length; lia).
      rewrite repeat_length, Nat.sub_diag, nth_repeat, Nat.eqb_refl.
      simpl. lra.
    + rewrite !app_nth2 by (rewrite repeat_length; lia).
      rewrite !repeat_length.
      replace (j - k)%nat with (S (j - S k)) by lia. simpl.
      destruct (Nat.eqb_spec k j); [lia|lra].
Qed.

Lemma phi_suffix (l : list R) (k : nat) :
  (k + length l = n)%nat →
  phi (repeat 0 k ++ l) = dot l (map (λ i, phi (e i)) (seq k (length l))).
Proof.
  revert k. induction l as [|a l IH]; intros k Hk.
  - simpl in Hk. rewrite Nat.add_0_r in Hk. subst k.
    rewrite app_nil_r. unfold dot. simpl. apply phi_zero.
  - simpl in Hk. rewrite unit_step by lia.
    rewrite Hphi; cycle 1.
    { unfold e. by rewrite length_map, length_seq. }
    { rewrite length_app, repeat_length. lia. }
    rewrite IH by (simpl; lia).
    unfold dot. simpl. lra.
Qed.

Lemma functional_representation (v : list R) :
  length v = n → phi v = dot v (map phi (eye n)).
Proof.
  intros Hv. pose proof (phi_suffix v 0) as H. simpl in H.
  rewrite H by done. unfold eye. by rewrite map_map, Hv.
Qed.
End representation.

Lemma linear_representation (n m : nat) (f : list R → list R) (v : list R) :
  linear n m f → (0 < n)%nat → length v = n →
  vecmat v (map f (eye n)) = f v.
Proof.
  intros [Hf1 Hf2] Hn Hv.
  assert (ncols (map f (eye n)) = m) as Hcols.
  { unfold ncols, eye. destruct n as [|n']; [lia|]. simpl.
    apply Hf1. simpl. by rewrite length_map, length_seq. }
  apply (nth_ext _ _ 0 0).
  - rewrite length_vecmat, Hcols. symmetry. by apply Hf1.
  - intros j Hj. rewrite length_vecmat, Hcols in Hj.
    unfold vecmat. rewrite (nth_map_lt _ _ _ _ 0%nat)
      by (rewrite length_seq, Hcols; done).
    rewrite seq_nth by (by rewrite Hcols). simpl.
    unfold col. rewrite map_map.
    symmetry. apply (functional_representation n (λ u, nth j (f u) 0)); [|done].
    intros a b u w Hu Hw. rewrite Hf2 by done.
    apply nth_lincomb. rewrite !Hf1; done.
Qed.

(** ** [SpectralLinear.forward] and [SpectralLinear.effective_W] *)

Lemma forallb_lengths (x : mat) (n : nat) :
  Forall (λ row, length row = n) x →
  forallb (λ row, (length row =? n)%nat) x = true.
Proof.
  intros Hx. rewrite <- (map_id x). apply forallb_rows.
  by rewrite Forall_forall in *.
Qed.

Lemma ncols_rows (x : mat) (n : nat) :
  x ≠ [] → Forall (λ row, length row = n) x → ncols x = n.
Proof. intros Hne Hx. destruct x as [|row x]; [done|]. by inversion Hx. Qed.

Lemma zip_with_zeros (row : list R) :
  zip_with Rplus row (repeat 0 (length row)) = row.
Proof. induction row as [|a row IH]; simpl; [done|]. rewrite IH. f_equal. lra. Qed.

(** Adding an all-zero bias changes nothing. *)
Lemma add_bias_zeros (x : mat) (m : nat) :
  Forall (λ row, length row = m) x → add_bias x (repeat 0 m) = Ok x.
Proof.
  intros Hx.
  assert (map (λ row, zip_with Rplus row (repeat 0 m)) x = x) as Hmap.
  { rewrite <- (map_id x) at 2. apply map_ext_in. intros row Hrow.
    rewrite Forall_forall in Hx. apply list_elem_of_In, Hx in Hrow.
    rewrite <- Hrow. apply zip_with_zeros. }
  pose proof (forallb_lengths x m Hx) as Hall.
  unfold add_bias. destruct m as [|[|m]]; simpl repeat.
  - simpl length. rewrite Hall. by rewrite <- Hmap at 2.
  - rewrite Hall. by rewrite <- Hmap at 2.
  - simpl length. rewrite repeat_length, Hall. by rewrite <- Hmap at 2.
Qed.

Lemma reflect_total (M : mat) (size : nat) (idx : list nat) (x : mat) :
  Forall (λ i, (i < size)%nat ∧ (i < length M)%nat
               ∧ length (nth i M []) = size) idx →
  Forall (λ row, length row = size) x →
  SpectralLinear.reflect M size idx x = Ok (map (reflect_rows M size idx) x).
Proof.
  revert x. induction idx as [|i idx IH]; intros x Hidx Hx.
  - simpl. by rewrite map_id.
  - apply Forall_cons in Hidx as [(Hi & HiM & Hrow) Hidx].
    destruct (lookup_lt_is_Some_2 M i HiM) as [u Hu].
    rewrite (nth_lookup_Some _ _ [] _ Hu) in Hrow.
    cbn [SpectralLinear.reflect]. rewrite (index_nat _ _ _ Hu).
    cbn [mbind result_bind].
    rewrite (Hprod_rows x u size) by (done || lia).
    cbn [mbind result_bind].
    replace (Z.to_nat (Z.of_nat size - Z.of_nat i)) with (size - i)%nat by lia.
    rewrite IH; [|done|].
    + rewrite map_map. f_equal. apply map_ext. intros row.
      unfold reflect_rows. simpl.
      by rewrite (nth_lookup_Some _ _ [] _ Hu).
    + apply Forall_map. eapply Forall_impl; [exact Hx|]. simpl.
      intros row Hlen.
      apply (linear_reflect_row u size (size - i)); [done|lia|done].
Qed.

Section forward.
Import SpectralLinear.

Variable self : t.
Hypothesis Hshaped : shaped self.
Hypothesis HnU : (n_U_reflectors self <= insize self)%nat.
Hypothesis HnV : (n_V_reflectors self <= outsize self)%nat.
Hypothesis Hin : (0 < insize self)%nat.

Lemma U_reflectors :
  Forall (λ i, (i < insize self)%nat ∧ (i < length (U self))%nat
               ∧ length (nth i (U self) []) = insize self)
         (seq 0 (n_U_reflectors self)).
Proof.
  destruct Hshaped as [[HU HUrows] _ _].
  apply Forall_forall. intros i Hi. apply elem_of_seq in Hi.
  split; [lia|]. split; [lia|].
  rewrite Forall_forall in HUrows.
  apply HUrows, list_elem_of_In, nth_In. lia.
Qed.

Lemma V_reflectors :
  Forall (λ i, (i < outsize self)%nat ∧ (i < length (V self))%nat
               ∧ length (nth i (V self) []) = outsize self)
         (rev (seq 0 (n_V_reflectors self))).
Proof.
  destruct Hshaped as [_ _ [HV HVrows]].
  apply Forall_forall. intros i Hi.
  apply list_elem_of_In, in_rev, in_seq in Hi.
  split; [lia|]. split; [lia|].
  rewrite Forall_forall in HVrows.
  apply HVrows, list_elem_of_In, nth_In. lia.
Qed.

Lemma ncols_Sigma : ncols (Sigma self) = outsize self.
Proof.
  destruct Hshaped as [_ Hp _].
  apply ncols_rows; [|by apply Sigma_rows].
  intros Heq. pose proof (Sigma_length self Hp) as Hlen.
  rewrite Heq in Hlen. simpl in Hlen. lia.
Qed.

(** Without bias, [forward] is linear on every row. *)
Lemma linear_forward_row :
  linear (insize self) (outsize self) (forward_row self).
Proof.
  unfold forward_row.
  apply (linear_compose _ (outsize self) _
           (λ v, vecmat (reflect_rows (U self) (insize self)
                           (seq 0 (n_U_reflectors self)) v) (Sigma self))
           (reflect_rows (V self) (outsize self)
              (rev (seq 0 (n_V_reflectors self))))).
  - apply (linear_compose _ (insize self) _
             (reflect_rows (U self) (insize self)
                (seq 0 (n_U_reflectors self)))
             (λ v, vecmat v (Sigma self))).
    + apply linear_reflect_rows.
      eapply Forall_impl; [apply U_reflectors|]. simpl. tauto.
    + rewrite <- ncols_Sigma. apply linear_vecmat.
  - apply linear_reflect_rows.
    eapply Forall_impl; [apply V_reflectors|]. simpl. tauto.
Qed.

(** With an all-zero bias, [forward] maps every row of the batch. *)
Lemma forward_total (x : mat) :
  bias self = Some (repeat 0 (outsize self)) →
  Forall (λ row, length row = insize self) x →
  forward self x = Ok (map (forward_row self) x).
Proof.
  intros Hbias Hx. destruct Hshaped as [_ Hp _].
  assert (linear (insize self) (insize self)
            (reflect_rows (U self) (insize self)
               (seq 0 (n_U_reflectors self)))) as [HU _].
  { apply linear_reflect_rows.
    eapply Forall_impl; [apply U_reflectors|]. simpl. tauto. }
  unfold forward, Umultiply, has_width.
  rewrite forallb_lengths by done.
  rewrite reflect_total by (apply U_reflectors || done).
  cbn [mbind result_bind].
  unfold matmul. rewrite forallb_lengths; cycle 1.
  { rewrite (Sigma_length self Hp). apply Forall_map.
    eapply Forall_impl; [exact Hx|]. simpl. intros row Hrow. by apply HU. }
  cbn [mbind result_bind]. rewrite map_map.
  unfold Vmultiply, has_width.
  rewrite forallb_lengths; cycle 1.
  { apply Forall_map, Forall_forall. intros row _. simpl.
    by rewrite length_vecmat, ncols_Sigma. }
  rewrite reflect_total; [|apply V_reflectors|]; cycle 1.
  { apply Forall_map, Forall_forall. intros row _. simpl.
    by rewrite length_vecmat, ncols_Sigma. }
  cbn [mbind result_bind]. rewrite Hbias, map_map.
  apply add_bias_zeros.
  apply Forall_map. eapply Forall_impl; [exact Hx|]. simpl.
  intros row Hrow. by apply linear_forward_row.
Qed.
End forward.

(** C9, as amended.  For a [SpectralLinear] instance state with the
    allocated shapes, [insize >= 1], at most [insize] reflectors in [U] and
    [outsize] in [V], every reflector non-zero on its active window (so
    that no reflection divides by zero) and an all-zero bias, and for every
    batch [x] of rows of length [insize], the empty batch included:
    [forward(x)] and [effective_W()] both return, [effective_W()] is an
    [insize] by [outsize] matrix, [forward(x)] is the matrix product of [x]
    with it, and [forward] maps a linear combination of two rows to the
    same combination of their images.  The bound on the number of
    reflectors cannot be dropped, as
    [forward_of_default_reflectors_is_no_product] shows. *)
Theorem forward_is_product_with_effective_W
    (self : SpectralLinear.t) (x : mat) :
  SpectralLinear.shaped self →
  (SpectralLinear.n_U_reflectors self <= SpectralLinear.insize self)%nat →
  (SpectralLinear.n_V_reflectors self <= SpectralLinear.outsize self)%nat →
  (0 < SpectralLinear.insize self)%nat →
  (∀ i : nat, (i < SpectralLinear.n_U_reflectors self)%nat →
     let u := skipn i (nth i (SpectralLinear.U self) []) in dot u u ≠ 0) →
  (∀ i : nat, (i < SpectralLinear.n_V_reflectors self)%nat →
     let v := skipn i (nth i (SpectralLinear.V self) []) in dot v v ≠ 0) →
  SpectralLinear.bias self = Some (repeat 0 (SpectralLinear.outsize self)) →
  Forall (λ row, length row = SpectralLinear.insize self) x →
  ∃ y W : mat,
    SpectralLinear.forward self x = Ok y
    ∧ SpectralLinear.effective_W self = Ok W
    ∧ has_shape W (SpectralLinear.insize self) (SpectralLinear.outsize self)
    ∧ matmul x W = Ok y
    ∧ ∀ (a b : R) (u v : list R),
        length u = SpectralLinear.insize self →
        length v = SpectralLinear.insize self →
        ∃ yu yv : list R,
          SpectralLinear.forward self [u] = Ok [yu]
          ∧ SpectralLinear.forward self [v] = Ok [yv]
          ∧ SpectralLinear.forward self [vadd (vscale a u) (vscale b v)]
            = Ok [vadd (vscale a yu) (vscale b yv)].
Proof.
  intros Hshaped HnU HnV Hin _ _ Hbias Hx.
  pose proof (linear_forward_row self Hshaped HnU HnV Hin) as Hlin.
  pose proof (eye_shape (SpectralLinear.insize self)) as [Heye Heye_rows].
  exists (map (forward_row self) x),
         (map (forward_row self) (eye (SpectralLinear.insize self))).
  split; [by apply forward_total|].
  split.
  { unfold SpectralLinear.effective_W. by apply forward_total. }
  split.
  { split; [by rewrite length_map|].
    apply Forall_map. eapply Forall_impl; [exact Heye_rows|]. simpl.
    intros row Hrow. by apply Hlin. }
  split.
  { unfold matmul. rewrite forallb_lengths
      by (by rewrite length_map, Heye).
    f_equal. apply map_ext_in. intros row Hrow.
    rewrite Forall_forall in Hx. apply list_elem_of_In, Hx in Hrow.
    by apply (linear_representation _ (SpectralLinear.outsize self)). }
  intros a b u v Hu Hv.
  exists (forward_row self u), (forward_row self v).
  rewrite !forward_total; try done; try (by repeat constructor).
  - repeat split. simpl. do 2 f_equal. by apply Hlin.
  - repeat constructor. rewrite length_lincomb; congruence.
Qed.

(** C9 on [spectral_example] and the batch [[1; 2]]. *)
Lemma forward_is_product_with_effective_W_witness :
  ∃ y W : mat,
    SpectralLinear.forward spectral_example [[1; 2]] = Ok y
    ∧ SpectralLinear.effective_W spectral_example = Ok W
    ∧ has_shape W 2 2
    ∧ matmul [[1; 2]] W = Ok y.
Proof.
  destruct (forward_is_product_with_effective_W spectral_example [[1; 2]])
    as (y & W & Hy & HW & Hshape & Hprod & _).
  - split; [split; [reflexivity|repeat constructor]|reflexivity
           |split; [reflexivity|repeat constructor]].
  - simpl. lia.
  - simpl. lia.
  - simpl. lia.
  - intros i Hi. assert (i = 0)%nat as -> by (simpl in Hi; lia).
    unfold dot. simpl. lra.
  - intros i Hi. assert (i = 0)%nat as -> by (simpl in Hi; lia).
    unfold dot. simpl. lra.
  - reflexivity.
  - repeat constructor.
  - by exists y, W.
Defined.

(** * Further properties of [linear.py] *)

(** ** Householder reflections are orthogonal involutions *)

Lemma dot_app (a b c d : list R) :
  length a = length c → dot (a ++ b) (c ++ d) = dot a c + dot b d.
Proof.
  unfold dot. revert c. induction a as [|x a IH]; intros [|y c] Hlen;
    simpl in *; try discriminate; [lra|].
  rewrite IH by lia. lra.
Qed.

Lemma dot_split (n : nat) (v : list R) :
  dot v v = dot (firstn n v) (firstn n v) + dot (skipn n v) (skipn n v).
Proof. rewrite <- (firstn_skipn n v) at 1 2. by rewrite dot_app. Qed.

(** The tail [t] reflected along [u]: [t - alpha u]. *)
Lemma dot_reflected_self (t u : list R) (alpha : R) :
  length t = length u →
  dot (zip_with Rminus t (map (λ b, alpha * b) u))
      (zip_with Rminus t (map (λ b, alpha * b) u))
  = dot t t - 2 * alpha * dot t u + alpha * alpha * dot u u.
Proof.
  unfold dot. revert u. induction t as [|x t IH]; intros [|y u] Hlen;
    simpl in *; try discriminate; [lra|].
  rewrite IH by lia. lra.
Qed.

Lemma dot_reflected (t u : list R) (alpha : R) :
  length t = length u →
  dot (zip_with Rminus t (map (λ b, alpha * b) u)) u
  = dot t u - alpha * dot u u.
Proof.
  unfold dot. revert u. induction t as [|x t IH]; intros [|y u] Hlen;
    simpl in *; try discriminate; [lra|].
  rewrite IH by lia. lra.
Qed.

Lemma reflected_back (t u : list R) (alpha beta : R) :
  length t = length u → alpha + beta = 0 →
  zip_with Rminus (zip_with Rminus t (map (λ b, alpha * b) u))
                  (map (λ b, beta * b) u) = t.
Proof.
  intros Hlen Hab. revert u Hlen.
  induction t as [|x t IH]; intros [|y u] Hlen; simpl in *;
    try discriminate; [done|].
  rewrite IH by lia. f_equal.
  replace beta with (- alpha) by lra. lra.
Qed.

Section reflection.
Variables (u : list R) (d k : nat).
Hypothesis Hku : (k <= length u)%nat.
Hypothesis Hkd : (k <= d)%nat.
Hypothesis Hnorm : dot (skipn (length u - k) u) (skipn (length u - k) u) ≠ 0.

Lemma reflect_row_length (row : list R) :
  length row = d → length (reflect_row u k row) = d.
Proof.
  intros Hrow. unfold reflect_row.
  rewrite length_app, length_firstn, length_zip_with, length_map,
    !length_skipn. lia.
Qed.

(** A reflection keeps the squared Euclidean norm of the row. *)
Lemma reflect_row_norm (row : list R) :
  length row = d → dot (reflect_row u k row) (reflect_row u k row) = dot row row.
Proof.
  intros Hrow. unfold reflect_row. rewrite Hrow.
  set (uk := skipn (length u - k) u) in *.
  set (tail := skipn (d - k) row).
  assert (length tail = length uk) as Hlen
    by (unfold tail, uk; rewrite !length_skipn; lia).
  rewrite dot_app by done.
  rewrite dot_reflected_self by done.
  rewrite (dot_split (d - k) row). fold tail.
  field. exact Hnorm.
Qed.

(** Reflecting twice gives the row back. *)
Lemma reflect_row_involutive (row : list R) :
  length row = d → reflect_row u k (reflect_row u k row) = row.
Proof.
  intros Hrow.
  pose proof (reflect_row_length row Hrow) as Hlen'.
  unfold reflect_row at 1. rewrite Hlen'.
  unfold reflect_row. rewrite Hrow.
  set (uk := skipn (length u - k) u) in *.
  set (tail := skipn (d - k) row).
  assert (length tail = length uk) as Hlen
    by (unfold tail, uk; rewrite !length_skipn; lia).
  set (alpha := 2 * dot tail uk / dot uk uk).
  assert (length (firstn (d - k) row) = (d - k)%nat) as Hfirst
    by (rewrite length_firstn; lia).
  rewrite take_app_length' by done.
  rewrite drop_app_length' by done.
  rewrite dot_reflected by done.
  rewrite reflected_back; [|done|].
  - unfold tail. apply firstn_skipn.
  - unfold alpha. field. exact Hnorm.
Qed.
End reflection.

Section Hprod_orthogonal.
Variables (x : mat) (u : list R) (d : nat) (k : Z).
Hypothesis Hx : Forall (λ row, length row = d) x.
Hypothesis Hu : (k <= Z.of_nat (length u))%Z.
Hypothesis Hk : (1 <= k <= Z.of_nat d)%Z.
Hypothesis Hnorm :
  dot (skipn (length u - Z.to_nat k) u) (skipn (length u - Z.to_nat k) u) ≠ 0.

Lemma Hprod_rows_length :
  Forall (λ row, length row = d) (map (reflect_row u (Z.to_nat k)) x).
Proof.
  apply Forall_map. eapply Forall_impl; [exact Hx|]. simpl.
  intros row Hrow. apply reflect_row_length; (done || lia).
Qed.

Lemma Hprod_norms :
  ∃ y : mat,
    SpectralLinear.Hprod x u k = Ok y
    ∧ Forall2 (λ row_x row_y, dot row_y row_y = dot row_x row_x) x y.
Proof.
  exists (map (reflect_row u (Z.to_nat k)) x).
  split; [by apply (Hprod_rows x u d k)|].
  apply Forall2_fmap_r, Forall_Forall2_diag.
  eapply Forall_impl; [exact Hx|]. simpl. intros row Hrow.
  apply (reflect_row_norm u d); (done || lia).
Qed.

Lemma Hprod_twice :
  ∃ y : mat,
    SpectralLinear.Hprod x u k = Ok y ∧ SpectralLinear.Hprod y u k = Ok x.
Proof.
  exists (map (reflect_row u (Z.to_nat k)) x).
  split; [by apply (Hprod_rows x u d k)|].
  rewrite (Hprod_rows _ u d k) by (done || apply Hprod_rows_length).
  rewrite map_map. rewrite <- (map_id x) at 2. f_equal.
  apply map_ext_in. intros row Hrow.
  rewrite Forall_forall in Hx. apply list_elem_of_In, Hx in Hrow.
  apply (reflect_row_involutive u d); (done || lia).
Qed.
End Hprod_orthogonal.

(** X1.  For a batch [x] with [d] columns, [1 <= k <= d] and a reflector
    [u] whose last [k] entries are not all zero, [Hprod(x, u, k)] keeps the
    Euclidean norm of every row: it is an orthogonal transformation. *)
Theorem Hprod_preserves_row_norms (x : mat) (u : list R) (d : nat) (k : Z) :
  Forall (λ row, length row = d) x →
  (k <= Z.of_nat (length u))%Z →
  (1 <= k <= Z.of_nat d)%Z →
  dot (skipn (length u - Z.to_nat k) u) (skipn (length u - Z.to_nat k) u) ≠ 0 →
  ∃ y : mat,
    SpectralLinear.Hprod x u k = Ok y
    ∧ Forall2 (λ row_x row_y, dot row_y row_y = dot row_x row_x) x y.
Proof. apply Hprod_norms. Qed.

Lemma Hprod_preserves_row_norms_witness :
  ∃ y : mat,
    SpectralLinear.Hprod [[1; 2; 3]] [1; 1; 1] 2 = Ok y
    ∧ Forall2 (λ row_x row_y, dot row_y row_y = dot row_x row_x)
              [[1; 2; 3]] y.
Proof.
  apply (Hprod_preserves_row_norms [[1; 2; 3]] [1; 1; 1] 3 2).
  - repeat constructor.
  - simpl. lia.
  - lia.
  - unfold dot. simpl. lra.
Defined.

(** X2.  Under the same conditions [Hprod] is an involution: reflecting
    the result again with the same [u] and [k] returns the batch [x]. *)
Theorem Hprod_involutive (x : mat) (u : list R) (d : nat) (k : Z) :
  Forall (λ row, length row = d) x →
  (k <= Z.of_nat (length u))%Z →
  (1 <= k <= Z.of_nat d)%Z →
  dot (skipn (length u - Z.to_nat k) u) (skipn (length u - Z.to_nat k) u) ≠ 0 →
  ∃ y : mat,
    SpectralLinear.Hprod x u k = Ok y ∧ SpectralLinear.Hprod y u k = Ok x.
Proof. apply Hprod_twice. Qed.

Lemma Hprod_involutive_witness :
  ∃ y : mat,
    SpectralLinear.Hprod [[1; 2; 3]] [1; 1; 1] 2 = Ok y
    ∧ SpectralLinear.Hprod y [1; 1; 1] 2 = Ok [[1; 2; 3]].
Proof.
  apply (Hprod_involutive [[1; 2; 3]] [1; 1; 1] 3 2).
  - repeat constructor.
  - simpl. lia.
  - lia.
  - unfold dot. simpl. lra.
Defined.

(** ** The reflector loops are orthogonal *)

Lemma reflect_rows_norm (M : mat) (size : nat) (idx : list nat)
    (row : list R) :
  Forall (λ i, (i < size)%nat ∧ length (nth i M []) = size
               ∧ dot (skipn i (nth i M [])) (skipn i (nth i M [])) ≠ 0) idx →
  length row = size →
  length (reflect_rows M size idx row) = size
  ∧ dot (reflect_rows M size idx row) (reflect_rows M size idx row)
    = dot row row.
Proof.
  unfold reflect_rows. revert row.
  induction idx as [|i idx IH]; intros row Hidx Hrow; [done|].
  apply Forall_cons in Hidx as [(Hi & Hlen & Hnz) Hidx]. simpl.
  assert (length (nth i M []) - (size - i) = i)%nat as Hskip by lia.
  destruct (IH (reflect_row (nth i M []) (size - i) row)) as [H1 H2];
    [done| |].
  - apply (reflect_row_length _ size); (done || lia).
  - split; [done|]. rewrite H2.
    apply (reflect_row_norm _ size); try (done || lia).
    by rewrite Hskip.
Qed.

Section multiply_orthogonal.
Import SpectralLinear.

Variable self : t.
Hypothesis Hshaped : shaped self.
Hypothesis HnU : (n_U_reflectors self <= insize self)%nat.
Hypothesis HnV : (n_V_reflectors self <= outsize self)%nat.
Hypothesis HU : ∀ i : nat, (i < n_U_reflectors self)%nat →
  let u := skipn i (nth i (U self) []) in dot u u ≠ 0.
Hypothesis HV : ∀ i : nat, (i < n_V_reflectors self)%nat →
  let v := skipn i (nth i (V self) []) in dot v v ≠ 0.

Lemma U_reflectors_nonzero :
  Forall (λ i, (i < insize self)%nat ∧ length (nth i (U self) []) = insize self
               ∧ dot (skipn i (nth i (U self) []))
                     (skipn i (nth i (U self) [])) ≠ 0)
         (seq 0 (n_U_reflectors self)).
Proof.
  destruct Hshaped as [[HUlen HUrows] _ _].
  apply Forall_forall. intros i Hi. apply elem_of_seq in Hi.
  split; [lia|]. split; [|apply HU; lia].
  rewrite Forall_forall in HUrows.
  apply HUrows, list_elem_of_In, nth_In. lia.
Qed.

Lemma V_reflectors_nonzero :
  Forall (λ i, (i < outsize self)%nat
               ∧ length (nth i (V self) []) = outsize self
               ∧ dot (skipn i (nth i (V self) []))
                     (skipn i (nth i (V self) [])) ≠ 0)
         (rev (seq 0 (n_V_reflectors self))).
Proof.
  destruct Hshaped as [_ _ [HVlen HVrows]].
  apply Forall_forall. intros i Hi.
  apply list_elem_of_In, in_rev, in_seq in Hi.
  split; [lia|]. split; [|apply HV; lia].
  rewrite Forall_forall in HVrows.
  apply HVrows, list_elem_of_In, nth_In. lia.
Qed.

Lemma Umultiply_norms (x : mat) :
  x ≠ [] → Forall (λ row, length row = insize self) x →
  ∃ y : mat,
    Umultiply self x = Ok y
    ∧ Forall2 (λ row_x row_y, dot row_y row_y = dot row_x row_x) x y.
Proof.
  intros Hne Hx.
  exists (map (reflect_rows (U self) (insize self)
                 (seq 0 (n_U_reflectors self))) x).
  split.
  - unfold Umultiply, has_width.
    rewrite forallb_lengths by done.
    apply reflect_total; [|done].
    eapply Forall_impl; [apply U_reflectors_nonzero|]. simpl.
    intros i (Hi & Hlen & _). destruct Hshaped as [[HUlen _] _ _].
    split; [done|]. split; [lia|done].
  - apply Forall2_fmap_r, Forall_Forall2_diag.
    eapply Forall_impl; [exact Hx|]. simpl. intros row Hrow.
    by apply reflect_rows_norm; [apply U_reflectors_nonzero|].
Qed.

Lemma Vmultiply_norms (x : mat) :
  x ≠ [] → Forall (λ row, length row = outsize self) x →
  ∃ y : mat,
    Vmultiply self x = Ok y
    ∧ Forall2 (λ row_x row_y, dot row_y row_y = dot row_x row_x) x y.
Proof.
  intros Hne Hx.
  exists (map (reflect_rows (V self) (outsize self)
                 (rev (seq 0 (n_V_reflectors self)))) x).
  split.
  - unfold Vmultiply, has_width.
    rewrite forallb_lengths by done.
    apply reflect_total; [|done].
    eapply Forall_impl; [apply V_reflectors_nonzero|]. simpl.
    intros i (Hi & Hlen & _). destruct Hshaped as [_ _ [HVlen _]].
    split; [done|]. split; [lia|done].
  - apply Forall2_fmap_r, Forall_Forall2_diag.
    eapply Forall_impl; [exact Hx|]. simpl. intros row Hrow.
    by apply reflect_rows_norm; [apply V_reflectors_nonzero|].
Qed.
End multiply_orthogonal.

(** X3.  With the allocated shapes, at most [insize] reflectors in [U] and
    [outsize] in [V], each non-zero on its active window, [Umultiply] and
    [Vmultiply] return and keep the Euclidean norm of every row of a
    non-empty batch: the reflector products are orthogonal maps. *)
Theorem multiply_preserves_row_norms
    (self : SpectralLinear.t) (x_in x_out : mat) :
  SpectralLinear.shaped self →
  (SpectralLinear.n_U_reflectors self <= SpectralLinear.insize self)%nat →
  (SpectralLinear.n_V_reflectors self <= SpectralLinear.outsize self)%nat →
  (∀ i : nat, (i < SpectralLinear.n_U_reflectors self)%nat →
     let u := skipn i (nth i (SpectralLinear.U self) []) in dot u u ≠ 0) →
  (∀ i : nat, (i < SpectralLinear.n_V_reflectors self)%nat →
     let v := skipn i (nth i (SpectralLinear.V self) []) in dot v v ≠ 0) →
  x_in ≠ [] → Forall (λ row, length row = SpectralLinear.insize self) x_in →
  x_out ≠ [] → Forall (λ row, length row = SpectralLinear.outsize self) x_out →
  (∃ y : mat,
     SpectralLinear.Umultiply self x_in = Ok y
     ∧ Forall2 (λ row_x row_y, dot row_y row_y = dot row_x row_x) x_in y)
  ∧ (∃ y : mat,
       SpectralLinear.Vmultiply self x_out = Ok y
       ∧ Forall2 (λ row_x row_y, dot row_y row_y = dot row_x row_x) x_out y).
Proof.
  intros Hshaped HnU HnV HU HV Hin Hxin Hout Hxout. split.
  - by apply Umultiply_norms.
  - by apply Vmultiply_norms.
Qed.

Lemma multiply_preserves_row_norms_witness :
  (∃ y : mat,
     SpectralLinear.Umultiply spectral_example [[1; 2]] = Ok y
     ∧ Forall2 (λ row_x row_y, dot row_y row_y = dot row_x row_x) [[1; 2]] y)
  ∧ (∃ y : mat,
       SpectralLinear.Vmultiply spectral_example [[3; 4]] = Ok y
       ∧ Forall2 (λ row_x row_y, dot row_y row_y = dot row_x row_x)
                 [[3; 4]] y).
Proof.
  apply (multiply_preserves_row_norms spectral_example [[1; 2]] [[3; 4]]).
  - split; [split; [reflexivity|repeat constructor]|reflexivity
           |split; [reflexivity|repeat constructor]].
  - simpl. lia.
  - simpl. lia.
  - intros i Hi. assert (i = 0)%nat as -> by (simpl in Hi; lia).
    unfold dot. simpl. lra.
  - intros i Hi. assert (i = 0)%nat as -> by (simpl in Hi; lia).
    unfold dot. simpl. lra.
  - discriminate.
  - repeat constructor.
  - discriminate.
  - repeat constructor.
Defined.

(** ** Multiplication by [Sigma()] and the gain of [forward] *)

Lemma dot_comm (u v : list R) : dot u v = dot v u.
Proof.
  unfold dot. revert v. induction u as [|a u IH]; intros [|b v]; simpl;
    try done. rewrite IH. lra.
Qed.

Lemma dot_self_nonneg (v : list R) : 0 <= dot v v.
Proof.
  unfold dot. induction v as [|a v IH]; simpl; [lra|].
  pose proof (Rle_0_sqr a) as Ha. unfold Rsqr in Ha. lra.
Qed.

(** The inner product with [c] times the [j]-th unit vector. *)
Lemma dot_indicator (v : list R) (j k : nat) (c : R) :
  dot v (map (λ i, if (j =? i)%nat then c else 0) (seq k (length v)))
  = if (k <=? j)%nat then nth (j - k) v 0 * c else 0.
Proof.
  unfold dot. revert k. induction v as [|a v IH]; intros k; simpl.
  - destruct (k <=? j)%nat; [|done]. destruct (j - k)%nat; lra.
  - rewrite IH.
    destruct (Nat.leb_spec k j) as [Hle|Hgt];
      destruct (Nat.leb_spec (S k) j) as [Hle'|Hgt'];
      destruct (Nat.eqb_spec j k) as [Heq|Hne]; try lia.
    + replace (j - k)%nat with (S (j - S k)) by lia. simpl. lra.
    + subst. rewrite Nat.sub_diag. simpl. lra.
    + lra.
Qed.

Lemma vsum_map_le {A} (f g : A → R) (l : list A) :
  (∀ a, f a <= g a) → vsum (map f l) <= vsum (map g l).
Proof.
  intros Hfg. induction l as [|a l IH]; simpl; [lra|].
  pose proof (Hfg a). lra.
Qed.

Lemma vsum_map_scale {A} (c : R) (g : A → R) (l : list A) :
  vsum (map (λ a, c * g a) l) = c * vsum (map g l).
Proof. induction l as [|a l IH]; simpl; [lra|]. rewrite IH. lra. Qed.

Lemma dot_map_self {A} (f : A → R) (l : list A) :
  dot (map f l) (map f l) = vsum (map (λ a, f a * f a) l).
Proof. unfold dot. induction l as [|a l IH]; simpl; [done|]. by rewrite IH. Qed.

(** The squares of the first [m] entries add up to at most the squared
    norm, and to exactly it once [m] covers the vector. *)
Lemma partial_squares (v : list R) (m : nat) :
  vsum (map (λ j, nth j v 0 * nth j v 0) (seq 0 m)) <= dot v v
  ∧ ((length v <= m)%nat →
     vsum (map (λ j, nth j v 0 * nth j v 0) (seq 0 m)) = dot v v).
Proof.
  revert m. induction v as [|a v IH]; intros m.
  - assert (vsum (map (λ j, nth j [] 0 * nth j [] 0) (seq 0 m)) = 0) as ->.
    { generalize 0%nat. induction m as [|m IHm]; intros k; simpl; [done|].
      rewrite IHm. destruct k; lra. }
    unfold dot. simpl. split; [lra|done].
  - destruct m as [|m].
    + simpl. split; [apply (dot_self_nonneg (a :: v))|intros; lia].
    + simpl. rewrite <- seq_shift, map_map. simpl.
      destruct (IH m) as [IH1 IH2]. unfold dot in *. simpl. split; [lra|].
      intros Hm. rewrite IH2 by lia. done.
Qed.

Section Sigma_product.
Import SpectralLinear.

Variable self : t.
Hypothesis Hshaped : shaped self.
Hypothesis Hin : (0 < insize self)%nat.

(** The singular value in column [j]. *)
Let s (j : nat) : R :=
  2 * r self * (sigmoid (nth j (p self) 0) - 0.5) + sigma_mean self.

Lemma col_Sigma (j : nat) :
  (j < outsize self)%nat →
  col j (Sigma self)
  = map (λ i, if (j =? i)%nat then s j else 0) (seq 0 (insize self)).
Proof.
  intros Hj. destruct Hshaped as [_ Hp _].
  pose proof (Sigma_length self Hp) as Hlen.
  apply (nth_ext _ _ 0 0).
  - unfold col. by rewrite !length_map, length_seq.
  - intros i Hi. unfold col in *. rewrite length_map, Hlen in Hi.
    rewrite (nth_map_lt _ _ _ _ []) by lia.
    rewrite (nth_map_lt _ _ _ _ 0%nat) by (by rewrite length_seq).
    rewrite seq_nth by done. simpl.
    rewrite (Sigma_entry self Hp) by done.
    rewrite (Nat.eqb_sym j i).
    destruct (Nat.eqb_spec i j) as [->|]; done.
Qed.

(** A row times [Sigma()]: column [j] is scaled by the singular value
    [j]; columns past the row's length are zero. *)
Lemma vecmat_Sigma (v : list R) :
  length v = insize self →
  vecmat v (Sigma self) = map (λ j, nth j v 0 * s j) (seq 0 (outsize self)).
Proof.
  intros Hv. unfold vecmat.
  assert (ncols (Sigma self) = outsize self) as ->.
  { destruct Hshaped as [_ Hp _].
    apply ncols_rows; [|by apply Sigma_rows].
    intros Heq. pose proof (Sigma_length self Hp) as Hlen.
    rewrite Heq in Hlen. simpl in Hlen. clear -Hlen Hin. lia. }
  apply map_ext_in. intros j Hj. apply in_seq in Hj.
  rewrite col_Sigma by lia. rewrite <- Hv, dot_indicator.
  simpl. by rewrite Nat.sub_0_r.
Qed.

(** With all singular values in [[lo, hi]], [0 <= lo]: the gain of the
    product with [Sigma()]. *)
Lemma Sigma_gain (v : list R) (lo hi : R) :
  length v = insize self → 0 <= lo →
  (∀ j, lo <= s j <= hi) →
  dot (vecmat v (Sigma self)) (vecmat v (Sigma self)) <= hi * hi * dot v v
  ∧ ((insize self <= outsize self)%nat →
     lo * lo * dot v v <= dot (vecmat v (Sigma self)) (vecmat v (Sigma self))).
Proof.
  intros Hv Hlo Hs. rewrite vecmat_Sigma by done.
  rewrite dot_map_self.
  destruct (partial_squares v (outsize self)) as [Hle Heq].
  split.
  - apply Rle_trans
      with (vsum (map (λ j, hi * hi * (nth j v 0 * nth j v 0))
                      (seq 0 (outsize self)))).
    + apply vsum_map_le. intros j. destruct (Hs j) as [H1 H2].
      pose proof (Rle_0_sqr (nth j v 0)) as Hsq. unfold Rsqr in Hsq.
      assert (s j * s j <= hi * hi) by nra. nra.
    + rewrite vsum_map_scale. apply Rmult_le_compat_l; [nra|done].
  - intros Hio. rewrite <- Heq by lia.
    rewrite <- vsum_map_scale. apply vsum_map_le. intros j.
    destruct (Hs j) as [H1 H2].
    pose proof (Rle_0_sqr (nth j v 0)) as Hsq. unfold Rsqr in Hsq.
    assert (lo * lo <= s j * s j) by nra. nra.
Qed.
End Sigma_product.

(** X4.  For a batch [x] of rows of length [insize >= 1],
    [torch.matmul(x, self.Sigma())] returns a batch of rows of length
    [outsize] in which column [j] is column [j] of [x] times the singular
    value [2*r*(sigmoid(p_j) - 0.5) + sigma_mean] for [j < insize], and zero
    for the columns from [insize] on: a wider [Sigma()] pads with zeros, a
    narrower one drops the last columns of [x]. *)
Theorem matmul_Sigma_scales_columns (self : SpectralLinear.t) (x : mat) :
  SpectralLinear.shaped self →
  (0 < SpectralLinear.insize self)%nat →
  Forall (λ row, length row = SpectralLinear.insize self) x →
  ∃ y : mat,
    matmul x (SpectralLinear.Sigma self) = Ok y
    ∧ length y = length x
    ∧ Forall (λ row, length row = SpectralLinear.outsize self) y
    ∧ ∀ b j : nat, (b < length x)%nat → (j < SpectralLinear.outsize self)%nat →
        nth j (nth b y []) 0
        = if (j <? SpectralLinear.insize self)%nat
          then nth j (nth b x []) 0
               * (2 * SpectralLinear.r self
                    * (sigmoid (nth j (SpectralLinear.p self) 0) - 0.5)
                  + SpectralLinear.sigma_mean self)
          else 0.
Proof.
  intros Hshaped Hin Hx.
  pose proof Hshaped as [_ Hp _].
  exists (map (λ row, vecmat row (SpectralLinear.Sigma self)) x).
  split.
  { unfold matmul. rewrite forallb_lengths; [done|].
    by rewrite (Sigma_length self Hp). }
  split; [by rewrite length_map|].
  split.
  { apply Forall_map. eapply Forall_impl; [exact Hx|]. simpl.
    intros row Hrow. rewrite (vecmat_Sigma self Hshaped Hin) by done.
    by rewrite length_map, length_seq. }
  intros b j Hb Hj.
  assert (length (nth b x []) = SpectralLinear.insize self) as Hrow.
  { rewrite Forall_forall in Hx. apply Hx, list_elem_of_In, nth_In. lia. }
  rewrite (nth_map_lt _ _ _ _ []) by done.
  rewrite (vecmat_Sigma self Hshaped Hin) by done.
  rewrite (nth_map_lt _ _ _ _ 0%nat) by (by rewrite length_seq).
  rewrite seq_nth by done. simpl.
  destruct (Nat.ltb_spec j (SpectralLinear.insize self)) as [Hlt|Hge]; [done|].
  rewrite nth_overflow by lia. lra.
Qed.

Lemma matmul_Sigma_scales_columns_witness :
  ∃ y : mat,
    matmul [[1; 2]] (SpectralLinear.Sigma spectral_example) = Ok y
    ∧ length y = 1%nat.
Proof.
  destruct (matmul_Sigma_scales_columns spectral_example [[1; 2]])
    as (y & Hy & Hlen & _).
  - split; [split; [reflexivity|repeat constructor]|reflexivity
           |split; [reflexivity|repeat constructor]].
  - simpl. lia.
  - repeat constructor.
  - by exists y.
Defined.

(** X5.  On an instance state whose [r] and [sigma_mean] hold
    [(sigma_max - sigma_min)/2] and [sigma_min + r] for bounds
    [0 <= sigma_min <= sigma_max], with the allocated shapes, at most
    [insize] and [outsize] reflectors, each non-zero on its active window,
    and an all-zero bias, [forward] maps every row [x_b] of a batch to a
    row [y_b] with [|y_b|^2 <= sigma_max^2 |x_b|^2], and with
    [sigma_min^2 |x_b|^2 <= |y_b|^2] when [insize <= outsize]: the gain of
    the layer stays within the singular value bounds. *)
Theorem forward_gain_bounds
    (self : SpectralLinear.t) (sigma_min sigma_max : R) (x : mat) :
  0 <= sigma_min <= sigma_max →
  SpectralLinear.r self = (sigma_max - sigma_min) / 2 →
  SpectralLinear.sigma_mean self = sigma_min + SpectralLinear.r self →
  SpectralLinear.shaped self →
  (SpectralLinear.n_U_reflectors self <= SpectralLinear.insize self)%nat →
  (SpectralLinear.n_V_reflectors self <= SpectralLinear.outsize self)%nat →
  (0 < SpectralLinear.insize self)%nat →
  (∀ i : nat, (i < SpectralLinear.n_U_reflectors self)%nat →
     let u := skipn i (nth i (SpectralLinear.U self) []) in dot u u ≠ 0) →
  (∀ i : nat, (i < SpectralLinear.n_V_reflectors self)%nat →
     let v := skipn i (nth i (SpectralLinear.V self) []) in dot v v ≠ 0) →
  SpectralLinear.bias self = Some (repeat 0 (SpectralLinear.outsize self)) →
  Forall (λ row, length row = SpectralLinear.insize self) x →
  ∃ y : mat,
    SpectralLinear.forward self x = Ok y
    ∧ Forall2 (λ row_x row_y,
                 dot row_y row_y <= sigma_max * sigma_max * dot row_x row_x
                 ∧ ((SpectralLinear.insize self
                     <= SpectralLinear.outsize self)%nat →
                    sigma_min * sigma_min * dot row_x row_x
                    <= dot row_y row_y)) x y.
Proof.
  intros [Hmin Hle] Hr Hmean Hshaped HnU HnV Hin HU HV Hbias Hx.
  exists (map (forward_row self) x). split.
  { by apply forward_total. }
  apply Forall2_fmap_r, Forall_Forall2_diag.
  eapply Forall_impl; [exact Hx|]. simpl. intros row Hrow.
  unfold forward_row.
  destruct (reflect_rows_norm (SpectralLinear.U self)
              (SpectralLinear.insize self)
              (seq 0 (SpectralLinear.n_U_reflectors self)) row)
    as [HUlen HUnorm]; [|done|].
  { by apply (U_reflectors_nonzero self). }
  set (u' := reflect_rows _ _ _ row) in *.
  assert (length (vecmat u' (SpectralLinear.Sigma self))
          = SpectralLinear.outsize self) as Hw.
  { rewrite (vecmat_Sigma self Hshaped Hin) by done.
    by rewrite length_map, length_seq. }
  destruct (reflect_rows_norm (SpectralLinear.V self)
              (SpectralLinear.outsize self)
              (rev (seq 0 (SpectralLinear.n_V_reflectors self)))
              (vecmat u' (SpectralLinear.Sigma self)))
    as [_ HVnorm]; [|done|].
  { by apply (V_reflectors_nonzero self). }
  rewrite HVnorm, <- HUnorm.
  apply (Sigma_gain self Hshaped Hin); [done|done|].
  intros j. rewrite Hmean, Hr. by apply singular_value_bounds.
Qed.

Lemma forward_gain_bounds_witness :
  ∃ y : mat,
    SpectralLinear.forward spectral_example [[1; 2]] = Ok y
    ∧ Forall2 (λ row_x row_y,
                 dot row_y row_y <= 1 * 1 * dot row_x row_x
                 ∧ ((2 <= 2)%nat → 0.6 * 0.6 * dot row_x row_x <= dot row_y row_y))
              [[1; 2]] y.
Proof.
  apply (forward_gain_bounds spectral_example 0.6 1 [[1; 2]]).
  - lra.
  - reflexivity.
  - reflexivity.
  - split; [split; [reflexivity|repeat constructor]|reflexivity
           |split; [reflexivity|repeat constructor]].
  - simpl. lia.
  - simpl. lia.
  - simpl. lia.
  - intros i Hi. assert (i = 0)%nat as -> by (simpl in Hi; lia).
    unfold dot. simpl. lra.
  - intros i Hi. assert (i = 0)%nat as -> by (simpl in Hi; lia).
    unfold dot. simpl. lra.
  - reflexivity.
  - repeat constructor.
Defined.

(** ** More reflectors than rows, and no reflectors at all *)

Lemma index_out_of_range {A} (l : list A) (i : nat) :
  (length l <= i)%nat → index l (Z.of_nat i) = Err IndexError.
Proof.
  intros Hi. unfold index.
  destruct (Z.ltb_spec (Z.of_nat i) 0); [lia|].
  destruct (Z.ltb_spec (Z.of_nat i) (Z.of_nat (length l))); [lia|].
  by rewrite andb_false_r.
Qed.

Lemma reflect_app (M : mat) (size : nat) (l1 l2 : list nat) (x : mat) :
  SpectralLinear.reflect M size (l1 ++ l2) x
  = SpectralLinear.reflect M size l1 x ≫= SpectralLinear.reflect M size l2.
Proof.
  revert x. induction l1 as [|i l1 IH]; intros x; [done|].
  simpl. destruct (index M (Z.of_nat i)) as [u|e]; [|done]. simpl.
  destruct (SpectralLinear.Hprod x u _) as [x'|e]; [|done]. simpl.
  apply IH.
Qed.

(** The reflector loop stops at the first index past the rows of [M]. *)
Lemma reflect_past_rows (M : mat) (size n : nat) (x : mat) :
  length M = size → Forall (λ row, length row = size) M →
  Forall (λ row, length row = size) x → (size < n)%nat →
  SpectralLinear.reflect M size (seq 0 n) x = Err IndexError.
Proof.
  intros HM Hrows Hx Hn.
  replace n with (size + S (n - S size))%nat by lia.
  rewrite seq_app, reflect_app.
  rewrite reflect_total; [|apply Forall_forall|done].
  - simpl. by rewrite index_out_of_range by lia.
  - intros i Hi. apply elem_of_seq in Hi.
    split; [lia|]. split; [lia|].
    rewrite Forall_forall in Hrows.
    apply Hrows, list_elem_of_In, nth_In. lia.
Qed.

(** X6.  When [n_U_reflectors] exceeds [insize] (the default of 20
    reflectors on a narrower layer), [Umultiply], [forward] and
    [effective_W] raise [IndexError]: after [insize] reflections the loop
    reads the row [self.U[insize]], which [U] does not have. *)
Theorem forward_with_too_many_reflectors (self : SpectralLinear.t) (x : mat) :
  SpectralLinear.shaped self →
  (0 < SpectralLinear.insize self < SpectralLinear.n_U_reflectors self)%nat →
  x ≠ [] → Forall (λ row, length row = SpectralLinear.insize self) x →
  SpectralLinear.Umultiply self x = Err IndexError
  ∧ SpectralLinear.forward self x = Err IndexError
  ∧ SpectralLinear.effective_W self = Err IndexError.
Proof.
  intros [[HU HUrows] _ _] [Hin Hn] Hne Hx.
  assert (∀ x', x' ≠ [] →
            Forall (λ row, length row = SpectralLinear.insize self) x' →
            SpectralLinear.Umultiply self x' = Err IndexError) as Hraise.
  { intros x' Hne' Hx'. unfold SpectralLinear.Umultiply, has_width.
    rewrite forallb_lengths by done.
    by apply reflect_past_rows. }
  split; [by apply Hraise|]. split.
  - unfold SpectralLinear.forward. by rewrite Hraise.
  - unfold SpectralLinear.effective_W, SpectralLinear.forward.
    pose proof (eye_shape (SpectralLinear.insize self)) as [Hlen Hrows].
    rewrite Hraise; [done| |done].
    intros Heq. rewrite Heq in Hlen. simpl in Hlen. lia.
Qed.

Lemma forward_with_too_many_reflectors_witness :
  SpectralLinear.forward spectral_default_example [[1; 2]] = Err IndexError.
Proof.
  apply (forward_with_too_many_reflectors spectral_default_example [[1; 2]]).
  - split; [split; [reflexivity|repeat constructor]|reflexivity
           |split; [reflexivity|repeat constructor]].
  - simpl. lia.
  - discriminate.
  - repeat constructor.
Defined.

(** C9, as stated, fails: it speaks of every instance, and on the 2 by 2
    map [spectral_default_example], which has the allocated shapes, an
    all-zero bias and the default 20 reflectors on each side, [forward]
    and [effective_W] raise [IndexError] at [self.U[2]]; no matrix is
    returned of which [forward(x)] could be the product. *)
Lemma forward_of_default_reflectors_is_no_product :
  SpectralLinear.shaped spectral_default_example
  ∧ SpectralLinear.bias spectral_default_example
    = Some (repeat 0 (SpectralLinear.outsize spectral_default_example))
  ∧ Forall (λ row, length row
                   = SpectralLinear.insize spectral_default_example)
           [[1; 2]]
  ∧ SpectralLinear.forward spectral_default_example [[1; 2]]
    = Err IndexError
  ∧ SpectralLinear.effective_W spectral_default_example = Err IndexError
  ∧ ¬ ∃ y W : mat,
        SpectralLinear.forward spectral_default_example [[1; 2]] = Ok y
        ∧ SpectralLinear.effective_W spectral_default_example = Ok W
        ∧ matmul [[1; 2]] W = Ok y.
Proof.
  assert (∀ x, Forall (λ row, length row = 2%nat) x →
            SpectralLinear.forward spectral_default_example x
            = Err IndexError) as Hraise.
  { intros x Hx.
    unfold SpectralLinear.forward, SpectralLinear.Umultiply, has_width,
      spectral_default_example.
    cbn [SpectralLinear.insize SpectralLinear.U
         SpectralLinear.n_U_reflectors].
    rewrite forallb_lengths by done.
    rewrite reflect_past_rows; [done|done|repeat constructor|done|lia]. }
  split; [split; [split; [reflexivity|repeat constructor]|reflexivity
                 |split; [reflexivity|repeat constructor]]|].
  split; [reflexivity|]. split; [repeat constructor|].
  split; [apply Hraise; repeat constructor|].
  split; [apply Hraise; apply eye_shape|].
  intros (y & W & Hy & _). rewrite Hraise in Hy by repeat constructor.
  discriminate.
Qed.

Lemma dot_eye_row (n i : nat) (c : list R) :
  length c = n →
  dot (map (λ j, if (i =? j)%nat then 1 else 0) (seq 0 n)) c = nth i c 0.
Proof.
  intros Hc. rewrite dot_comm, <- Hc, dot_indicator. simpl.
  rewrite Nat.sub_0_r. lra.
Qed.

(** The rows of the identity pick the rows of a matrix. *)
Lemma eye_rows_vecmat (M : mat) (n m : nat) :
  has_shape M n m → (0 < n)%nat →
  map (λ e, vecmat e M) (eye n) = M.
Proof.
  intros [Hlen Hrows] Hn.
  assert (ncols M = m) as Hcols.
  { apply ncols_rows; [|done]. intros ->. simpl in Hlen. lia. }
  unfold eye. rewrite map_map.
  apply (nth_ext _ _ [] []).
  - by rewrite length_map, length_seq.
  - intros i Hi. rewrite length_map, length_seq in Hi.
    rewrite (nth_map_lt _ _ _ _ 0%nat) by (by rewrite length_seq).
    rewrite seq_nth by done. simpl.
    assert (length (nth i M []) = m) as Hrow.
    { rewrite Forall_forall in Hrows.
      apply Hrows, list_elem_of_In, nth_In. lia. }
    apply (nth_ext _ _ 0 0).
    + by rewrite length_vecmat, Hcols, Hrow.
    + intros j Hj. rewrite length_vecmat, Hcols in Hj.
      unfold vecmat.
      rewrite (nth_map_lt _ _ _ _ 0%nat) by (by rewrite length_seq, Hcols).
      rewrite seq_nth by (by rewrite Hcols). simpl.
      rewrite dot_eye_row by (unfold col; by rewrite length_map).
      unfold col. by rewrite (nth_map_lt _ _ _ _ []) by lia.
Qed.

(** X7.  With no reflectors ([n_U_reflectors = n_V_reflectors = 0]) and an
    all-zero bias, [effective_W()] is [Sigma()] itself. *)
Theorem effective_W_without_reflectors (self : SpectralLinear.t) :
  SpectralLinear.shaped self →
  (0 < SpectralLinear.insize self)%nat →
  SpectralLinear.n_U_reflectors self = 0%nat →
  SpectralLinear.n_V_reflectors self = 0%nat →
  SpectralLinear.bias self = Some (repeat 0 (SpectralLinear.outsize self)) →
  SpectralLinear.effective_W self = Ok (SpectralLinear.Sigma self).
Proof.
  intros Hshaped Hin HnU HnV Hbias.
  pose proof Hshaped as [_ Hp _].
  pose proof (eye_shape (SpectralLinear.insize self)) as [Hlen Hrows].
  unfold SpectralLinear.effective_W.
  rewrite forward_total; try done; try lia.
  f_equal. unfold forward_row, reflect_rows. rewrite HnU, HnV. simpl.
  apply (eye_rows_vecmat _ _ (SpectralLinear.outsize self)); [|done].
  split; [by apply Sigma_length|by apply Sigma_rows].
Qed.

Lemma effective_W_without_reflectors_witness :
  SpectralLinear.effective_W spectral_plain_example
  = Ok (SpectralLinear.Sigma spectral_plain_example).
Proof.
  apply effective_W_without_reflectors.
  - split; [split; [reflexivity|repeat constructor]|reflexivity
           |split; [reflexivity|repeat constructor]].
  - simpl. lia.
  - reflexivity.
  - reflexivity.
  - reflexivity.
Defined.

(** ** [NonnegativeLinear] *)

Lemma relu_nonneg (m : mat) : Forall (Forall (λ w, 0 <= w)) (relu m).
Proof.
  unfold relu. apply Forall_map, Forall_forall. intros row _. simpl.
  apply Forall_map, Forall_forall. intros w _. simpl. apply Rmax_l.
Qed.

Lemma relu_shape (m : mat) (rows cols : nat) :
  has_shape m rows cols → has_shape (relu m) rows cols.
Proof.
  intros [Hlen Hrows]. unfold relu. split; [by rewrite length_map|].
  apply Forall_map. eapply Forall_impl; [exact Hrows|]. simpl.
  intros row Hrow. by rewrite length_map.
Qed.

Lemma dot_nonneg (u v : list R) :
  Forall (λ a, 0 <= a) u → Forall (λ a, 0 <= a) v → 0 <= dot u v.
Proof.
  unfold dot. intros Hu. revert v.
  induction Hu as [|a u Ha Hu IH]; intros v Hv; [simpl; lra|].
  destruct Hv as [|b v Hb Hv]; simpl; [lra|].
  specialize (IH v Hv). nra.
Qed.

Lemma col_nonneg (m : mat) (j : nat) :
  Forall (Forall (λ a, 0 <= a)) m → Forall (λ a, 0 <= a) (col j m).
Proof.
  intros Hm. unfold col. apply Forall_map.
  eapply Forall_impl; [exact Hm|]. simpl. intros row Hrow.
  destruct (Nat.lt_ge_cases j (length row)) as [Hj|Hj].
  - rewrite Forall_forall in Hrow. apply Hrow, list_elem_of_In, nth_In. lia.
  - rewrite nth_overflow by lia. lra.
Qed.

Lemma vecmat_nonneg (v : list R) (m : mat) :
  Forall (λ a, 0 <= a) v → Forall (Forall (λ a, 0 <= a)) m →
  Forall (λ a, 0 <= a) (vecmat v m).
Proof.
  intros Hv Hm. unfold vecmat. apply Forall_map, Forall_forall.
  intros j _. simpl. apply dot_nonneg; [done|by apply col_nonneg].
Qed.

Lemma zip_plus_ge (v b : list R) :
  length v = length b → Forall (λ a, 0 <= a) v →
  Forall2 (λ y c, c <= y) (zip_with Rplus v b) b.
Proof.
  intros Hlen Hv. revert b Hlen.
  induction Hv as [|a v Ha Hv IH]; intros [|c b] Hlen; simpl in *;
    try discriminate; constructor; [lra|]. apply IH. lia.
Qed.

Lemma above_nonneg (l b : list R) :
  Forall2 (λ a c, c <= a) l b → Forall (λ c, 0 <= c) b →
  Forall (λ a, 0 <= a) l.
Proof.
  intros Hlb. induction Hlb as [|a c l b Hac Hlb IH]; intros Hb;
    [constructor|].
  apply Forall_cons in Hb as [Hc Hb]. constructor; [lra|by apply IH].
Qed.

(** X8.  [NonnegativeLinear.effective_W()] has the shape of the weight and
    no negative entry; [forward] maps a batch without negative entries to
    a batch in which every entry is at least the bias entry of its
    column, whatever the sign of the bias; so the output has no negative
    entry when the bias has none. *)
Theorem NonnegativeLinear_is_nonnegative
    (self : NonnegativeLinear.t) (insize outsize : nat) (x : mat) :
  has_shape (NonnegativeLinear.weight self) insize outsize →
  (0 < insize)%nat →
  length (NonnegativeLinear.bias self) = outsize →
  Forall (λ row, length row = insize) x →
  Forall (Forall (λ a, 0 <= a)) x →
  has_shape (NonnegativeLinear.effective_W self) insize outsize
  ∧ Forall (Forall (λ w, 0 <= w)) (NonnegativeLinear.effective_W self)
  ∧ ∃ y : mat,
      NonnegativeLinear.forward self x = Ok y
      ∧ has_shape y (length x) outsize
      ∧ Forall (λ row_y,
                  Forall2 (λ a b, b <= a) row_y (NonnegativeLinear.bias self))
               y
      ∧ (Forall (λ b, 0 <= b) (NonnegativeLinear.bias self) →
         Forall (Forall (λ a, 0 <= a)) y).
Proof.
  intros Hw Hin Hb Hx Hpos.
  pose proof (relu_shape _ _ _ Hw) as HW.
  pose proof (relu_nonneg (NonnegativeLinear.weight self)) as HWpos.
  fold (NonnegativeLinear.effective_W self) in HW, HWpos.
  split; [done|]. split; [done|].
  assert (ncols (NonnegativeLinear.effective_W self) = outsize) as Hcols.
  { destruct HW as [Hlen Hrows]. apply ncols_rows; [|done].
    intros Heq. rewrite Heq in Hlen. simpl in Hlen. lia. }
  exists (map (λ row, zip_with Rplus row (NonnegativeLinear.bias self))
              (map (λ row, vecmat row (NonnegativeLinear.effective_W self)) x)).
  assert (Forall (λ row_y,
                    Forall2 (λ a b, b <= a) row_y
                            (NonnegativeLinear.bias self))
            (map (λ row, zip_with Rplus row (NonnegativeLinear.bias self))
               (map (λ row, vecmat row (NonnegativeLinear.effective_W self))
                    x))) as Hge.
  { rewrite map_map. apply Forall_map.
    eapply Forall_impl; [exact Hpos|]. cbn beta. intros row Hrow.
    apply zip_plus_ge; [by rewrite length_vecmat, Hcols, Hb|].
    by apply vecmat_nonneg. }
  split; [|split; [|split; [done|]]].
  - unfold NonnegativeLinear.forward, matmul.
    rewrite forallb_lengths by (destruct HW as [-> _]; done).
    cbn [mbind result_bind]. unfold add_row_bias.
    rewrite forallb_lengths; [done|].
    apply Forall_map, Forall_forall. intros row _. simpl.
    by rewrite length_vecmat, Hcols, Hb.
  - split; [by rewrite !length_map|].
    rewrite map_map. apply Forall_map, Forall_forall. intros row _. simpl.
    rewrite length_zip_with, length_vecmat, Hcols, Hb. lia.
  - intros Hbias. eapply Forall_impl; [exact Hge|]. cbn beta.
    intros row_y Hrow. by apply (above_nonneg _ (NonnegativeLinear.bias self)).
Qed.

Lemma NonnegativeLinear_is_nonnegative_witness :
  ∃ y : mat,
    NonnegativeLinear.forward
      {| NonnegativeLinear.weight := [[1; -2]; [-3; 4]];
         NonnegativeLinear.bias := [-1; 5] |} [[1; 2]] = Ok y
    ∧ Forall (λ row_y, Forall2 (λ a b, b <= a) row_y [-1; 5]) y.
Proof.
  destruct (NonnegativeLinear_is_nonnegative
              {| NonnegativeLinear.weight := [[1; -2]; [-3; 4]];
                 NonnegativeLinear.bias := [-1; 5] |} 2 2 [[1; 2]])
    as (_ & _ & y & Hy & _ & Hge & _).
  - split; [reflexivity|repeat constructor].
  - lia.
  - reflexivity.
  - repeat constructor.
  - repeat constructor; lra.
  - by exists y.
Defined.

(** ** [PerronFrobeniusLinear.forward] *)

Lemma map_nth_all (row : list R) :
  map (λ j, nth j row 0) (seq 0 (length row)) = row.
Proof.
  apply (nth_ext _ _ 0 0); [by rewrite length_map, length_seq|].
  intros j Hj. rewrite length_map, length_seq in Hj.
  rewrite (nth_map_lt _ _ _ _ 0%nat) by (by rewrite length_seq).
  by rewrite seq_nth.
Qed.

Lemma vsum_map_plus {A} (c : R) (f g : A → R) (l : list A) :
  vsum (map (λ a, c * f a + g a) l) = c * vsum (map f l) + vsum (map g l).
Proof. induction l as [|a l IH]; simpl; [lra|]. rewrite IH. lra. Qed.

Lemma vsum_zeros {A} (l : list A) : vsum (map (λ _, 0) l) = 0.
Proof. induction l as [|a l IH]; simpl; [done|]. rewrite IH. lra. Qed.

(** The entries of a row-by-matrix product add up to the inner product of
    the row with the row sums of the matrix. *)
Lemma vsum_vecmat_cols (v : list R) (W : mat) (m : nat) :
  Forall (λ row, length row = m) W →
  vsum (map (λ j, dot v (col j W)) (seq 0 m)) = dot v (map vsum W).
Proof.
  revert W. induction v as [|a v IH]; intros W HW.
  - unfold dot. simpl. apply vsum_zeros.
  - destruct HW as [|row W Hrow HW].
    + unfold dot, col. simpl. apply vsum_zeros.
    + unfold dot, col in *. simpl.
      rewrite (vsum_map_plus a (λ j, nth j row 0)).
      rewrite <- Hrow, map_nth_all, Hrow. by rewrite IH.
Qed.

Lemma abs_dot_le (v c : list R) :
  Forall (λ a, 0 <= a) c → Rabs (dot v c) <= dot (map Rabs v) c.
Proof.
  unfold dot. intros Hc. revert v.
  induction Hc as [|b c Hb Hc IH]; intros [|a v]; simpl;
    try (rewrite Rabs_R0; lra).
  eapply Rle_trans; [apply Rabs_triang|].
  specialize (IH v). rewrite Rabs_mult, (Rabs_right b) by lra. lra.
Qed.

Section PerronFrobenius_forward.
Import PerronFrobeniusLinear.

Variable self : t.
Variables insize outsize : nat.
Hypothesis Hbounds : 0 <= sigma_min self <= sigma_max self.
Hypothesis Hweight : has_shape (weight self) insize outsize.
Hypothesis Hscaling : has_shape (scaling self) insize outsize.
Hypothesis Hin : (0 < insize)%nat.
Hypothesis Hout : (0 < outsize)%nat.

Lemma effective_W_nonneg : Forall (Forall (λ w, 0 <= w)) (effective_W self).
Proof.
  unfold effective_W.
  apply (Forall2_zip_with (λ s, sigma_min self <= s <= sigma_max self)
                          (λ w, 0 <= w)).
  - simpl. intros a c [Ha _] Hc. apply Rmult_le_pos; lra.
  - apply Forall_forall. intros row Hrow.
    apply list_elem_of_lookup in Hrow as [i Hi].
    rewrite <- (nth_lookup_Some _ _ [] _ Hi).
    apply s_clamped_row_bounds. lra.
  - apply Forall_map, Forall_forall. intros row _. apply softmax_nonneg.
Qed.

Lemma row_sums_bounded :
  Forall (λ s, sigma_min self <= s <= sigma_max self)
         (map vsum (effective_W self)).
Proof.
  apply Forall_map, Forall_forall. intros row Hrow. simpl.
  apply list_elem_of_lookup in Hrow as [i Hi].
  pose proof (lookup_lt_Some _ _ _ Hi) as Hlt.
  destruct (effective_W_shape self insize outsize Hweight Hscaling)
    as [Hlen _].
  rewrite <- (nth_lookup_Some _ _ [] _ Hi).
  apply (row_sum_bounds self insize outsize); (done || lra || lia).
Qed.

Lemma ncols_effective_W : ncols (effective_W self) = outsize.
Proof.
  destruct (effective_W_shape self insize outsize Hweight Hscaling)
    as [Hlen Hrows].
  apply ncols_rows; [|done]. intros Heq. rewrite Heq in Hlen.
  simpl in Hlen. clear -Hlen Hin. lia.
Qed.

(** The 1-norm of a row shrinks by at most [sigma_max]. *)
Lemma vecmat_one_norm (v : list R) :
  length v = insize →
  vsum (map Rabs (vecmat v (effective_W self)))
  <= sigma_max self * vsum (map Rabs v).
Proof.
  intros Hv. unfold vecmat. rewrite ncols_effective_W, map_map.
  destruct (effective_W_shape self insize outsize Hweight Hscaling)
    as [Hlen Hrows].
  apply Rle_trans
    with (vsum (map (λ j, dot (map Rabs v) (col j (effective_W self)))
                    (seq 0 outsize))).
  - apply vsum_map_le. intros j. apply abs_dot_le, col_nonneg.
    apply effective_W_nonneg.
  - rewrite (vsum_vecmat_cols _ _ outsize) by done.
    rewrite dot_comm.
    apply (weighted_sum_bounds _ _ (sigma_min self)).
    + by rewrite !length_map, Hlen, Hv.
    + apply row_sums_bounded.
    + apply Forall_map, Forall_forall. intros a _. apply Rabs_pos.
Qed.

(** The total of a non-negative row is scaled by a factor within the
    bounds. *)
Lemma vecmat_total (v : list R) :
  length v = insize → Forall (λ a, 0 <= a) v →
  sigma_min self * vsum v <= vsum (vecmat v (effective_W self))
                          <= sigma_max self * vsum v.
Proof.
  intros Hv Hpos. unfold vecmat. rewrite ncols_effective_W.
  destruct (effective_W_shape self insize outsize Hweight Hscaling)
    as [Hlen Hrows].
  rewrite (vsum_vecmat_cols _ _ outsize) by done.
  rewrite dot_comm.
  apply weighted_sum_bounds; [|apply row_sums_bounded|done].
  by rewrite length_map, Hlen, Hv.
Qed.
End PerronFrobenius_forward.

(** X9.  For a [PerronFrobeniusLinear] with [0 <= sigma_min <= sigma_max],
    weight and scaling of shape [insize x outsize] (both at least 1) and an
    all-zero bias, [forward] maps every row [x_b] to a row [y_b] whose
    1-norm is at most [sigma_max] times that of [x_b]; when [x_b] has no
    negative entry, the sum of [y_b] lies between [sigma_min] and
    [sigma_max] times the sum of [x_b]. *)
Theorem PerronFrobenius_forward_is_bounded
    (self : PerronFrobeniusLinear.t) (insize outsize : nat) (x : mat) :
  0 <= PerronFrobeniusLinear.sigma_min self
    <= PerronFrobeniusLinear.sigma_max self →
  has_shape (PerronFrobeniusLinear.weight self) insize outsize →
  has_shape (PerronFrobeniusLinear.scaling self) insize outsize →
  (0 < insize)%nat → (0 < outsize)%nat →
  PerronFrobeniusLinear.bias self = repeat 0 outsize →
  Forall (λ row, length row = insize) x →
  ∃ y : mat,
    PerronFrobeniusLinear.forward self x = Ok y
    ∧ Forall2 (λ row_x row_y,
                 vsum (map Rabs row_y)
                 <= PerronFrobeniusLinear.sigma_max self * vsum (map Rabs row_x)
                 ∧ (Forall (λ a, 0 <= a) row_x →
                    PerronFrobeniusLinear.sigma_min self * vsum row_x
                    <= vsum row_y
                    <= PerronFrobeniusLinear.sigma_max self * vsum row_x))
              x y.
Proof.
  intros Hb Hw Hs Hin Hout Hbias Hx.
  exists (map (λ row, vecmat row (PerronFrobeniusLinear.effective_W self)) x).
  split.
  - unfold PerronFrobeniusLinear.forward, matmul.
    destruct (effective_W_shape self insize outsize Hw Hs) as [Hlen _].
    rewrite forallb_lengths by (by rewrite Hlen).
    cbn [mbind result_bind]. rewrite Hbias. apply add_bias_zeros.
    apply Forall_map, Forall_forall. intros row _. simpl.
    by rewrite length_vecmat, (ncols_effective_W self insize outsize).
  - apply Forall2_fmap_r, Forall_Forall2_diag.
    eapply Forall_impl; [exact Hx|]. simpl. intros row Hrow. split.
    + by apply (vecmat_one_norm self insize outsize).
    + intros Hpos. by apply (vecmat_total self insize outsize).
Qed.

Lemma PerronFrobenius_forward_is_bounded_witness :
  ∃ y : mat,
    PerronFrobeniusLinear.forward pf_example [[2]] = Ok y
    ∧ Forall2 (λ row_x row_y,
                 vsum (map Rabs row_y) <= 1 * vsum (map Rabs row_x)
                 ∧ (Forall (λ a, 0 <= a) row_x →
                    0.95 * vsum row_x <= vsum row_y <= 1 * vsum row_x))
              [[2]] y.
Proof.
  apply (PerronFrobenius_forward_is_bounded pf_example 1 2 [[2]]).
  - simpl. lra.
  - split; [reflexivity|repeat constructor].
  - split; [reflexivity|repeat constructor].
  - lia.
  - lia.
  - reflexivity.
  - repeat constructor.
Defined.

(** ** [OrthogonalWeight] *)

Lemma transpose_shape (Q : mat) (n m : nat) :
  has_shape Q n m → (0 < n)%nat → has_shape (transpose Q) m n.
Proof.
  intros [Hlen Hrows] Hn.
  assert (ncols Q = m) as Hcols.
  { apply ncols_rows; [|done]. intros ->. simpl in Hlen. lia. }
  unfold transpose. rewrite Hcols. split.
  - by rewrite length_map, length_seq.
  - apply Forall_map, Forall_forall. intros j _. simpl.
    unfold col. by rewrite length_map.
Qed.

Lemma matmul_shape (A B : mat) (n m : nat) :
  Forall (λ row, length row = n) A → length B = n → ncols B = m →
  matmul A B = Ok (map (λ row, vecmat row B) A)
  ∧ has_shape (map (λ row, vecmat row B) A) (length A) m.
Proof.
  intros HA HB Hcols. split.
  - unfold matmul. by rewrite forallb_lengths by (by rewrite HB).
  - split; [by rewrite length_map|].
    apply Forall_map, Forall_forall. intros row _. simpl.
    by rewrite length_vecmat.
Qed.

Lemma same_shape_has_shape (a b : mat) (n m : nat) :
  has_shape a n m → has_shape b n m → same_shape a b = true.
Proof.
  intros [Ha Hra] [Hb Hrb]. subst n. revert b Hb Hrb.
  induction Hra as [|ra a Hr Hra IH]; intros [|rb b] Hb Hrb;
    simpl in *; try discriminate; [done|].
  inversion Hrb; subst. rewrite IH by (lia || done).
  rewrite andb_true_r. apply Nat.eqb_eq. congruence.
Qed.

Lemma sumsq_zero (v : list R) : dot v v = 0 → Forall (λ a, a = 0) v.
Proof.
  unfold dot. induction v as [|a v IH]; simpl; [constructor|].
  intros H. pose proof (dot_self_nonneg v) as Hv. unfold dot in Hv.
  constructor; [nra|]. apply IH. nra.
Qed.

Lemma difference_zero (u v : list R) :
  length u = length v → dot (zip_with Rminus u v) (zip_with Rminus u v) = 0 →
  u = v.
Proof.
  intros Hlen H. apply sumsq_zero in H. revert v Hlen H.
  induction u as [|a u IH]; intros [|b v] Hlen H; simpl in *;
    try discriminate; [done|].
  inversion H; subst. f_equal; [lra|]. apply IH; [lia|done].
Qed.

Lemma sumsq_nonneg (l : mat) : 0 <= vsum (map (λ row, dot row row) l).
Proof.
  induction l as [|row l IH]; simpl; [lra|].
  pose proof (dot_self_nonneg row). lra.
Qed.

(** The flattened 2-norm of a difference vanishes exactly when the two
    matrices are equal. *)
Lemma norm2_difference (a b : mat) (n m : nat) :
  has_shape a n m → has_shape b n m →
  0 <= norm2 (zip_with (zip_with Rminus) a b)
  ∧ (norm2 (zip_with (zip_with Rminus) a b) = 0 ↔ a = b).
Proof.
  intros [Ha Hra] [Hb Hrb]. unfold norm2.
  split; [apply sqrt_pos|].
  split.
  - intros H. apply sqrt_eq_0 in H; [|apply sumsq_nonneg].
    subst n. revert b Hb Hrb H.
    induction Hra as [|ra a Hr Hra IH]; intros [|rb b] Hb Hrb H;
      simpl in *; try discriminate; [done|].
    inversion Hrb as [|? ? Hrb1 Hrb2]; subst.
    pose proof (dot_self_nonneg (zip_with Rminus ra rb)) as Hd.
    pose proof (sumsq_nonneg (zip_with (zip_with Rminus) a b)) as Hs.
    f_equal.
    + apply difference_zero; [congruence|lra].
    + apply IH; [lia|done|lra].
  - intros <-.
    assert (vsum (map (λ row, dot row row) (zip_with (zip_with Rminus) a a))
            = 0) as ->; [|apply sqrt_0].
    clear. induction a as [|ra a IH]; simpl; [done|]. rewrite IH.
    assert (dot (zip_with Rminus ra ra) (zip_with Rminus ra ra) = 0) as ->;
      [|lra].
    unfold dot. induction ra as [|x ra IHr]; simpl; [done|].
    rewrite IHr. lra.
Qed.

Lemma norm2_scalar_nonneg (s : R) : 0 <= s → norm2_scalar s = s.
Proof. intros Hs. unfold norm2_scalar. by apply sqrt_square. Qed.

Lemma transpose_eye (n : nat) : transpose (eye n) = eye n.
Proof.
  destruct n as [|n']; [done|].
  remember (S n') as n eqn:Hn. unfold transpose.
  rewrite (ncols_rows (eye n) n); [|by subst|apply eye_shape].
  unfold eye. apply map_ext_in. intros j Hj. apply in_seq in Hj.
  unfold col. rewrite map_map. apply map_ext_in. intros i Hi.
  apply in_seq in Hi. cbn beta.
  rewrite nth_eye_row by lia. by rewrite Nat.eqb_sym.
Qed.

Lemma matmul_eye_l (M : mat) (n m : nat) :
  has_shape M n m → matmul (eye n) M = Ok M.
Proof.
  intros HM. destruct n as [|n'].
  - destruct HM as [Hlen _]. by destruct M.
  - destruct (eye_shape (S n')) as [_ Hrows]. unfold matmul.
    rewrite forallb_lengths by (destruct HM as [-> _]; done).
    f_equal. apply (eye_rows_vecmat _ _ m); [done|lia].
Qed.

(** What [forward] computes from a square [Q]. *)
Lemma orthogonality_error (self : OrthogonalWeight.t) :
  has_shape (OrthogonalWeight.Q self) (OrthogonalWeight.nx self)
            (OrthogonalWeight.nx self) →
  ∃ (err : R) (qqt qtq : mat),
    matmul (OrthogonalWeight.Q self) (transpose (OrthogonalWeight.Q self))
    = Ok qqt
    ∧ matmul (transpose (OrthogonalWeight.Q self)) (OrthogonalWeight.Q self)
      = Ok qtq
    ∧ OrthogonalWeight.forward self = Ok err
    ∧ 0 <= err
    ∧ (err = 0 ↔ qqt = eye (OrthogonalWeight.nx self)
                 ∧ qtq = eye (OrthogonalWeight.nx self)).
Proof.
  destruct self as [Q n]. simpl. intros HQ.
  assert (∃ qqt qtq, matmul Q (transpose Q) = Ok qqt
                     ∧ matmul (transpose Q) Q = Ok qtq
                     ∧ has_shape qqt n n ∧ has_shape qtq n n)
    as (qqt & qtq & H1 & H2 & Hs1 & Hs2).
  { destruct n as [|n'].
    - destruct HQ as [Hlen _]. destruct Q; [|discriminate].
      exists [], []. repeat split; constructor.
    - pose proof (transpose_shape Q _ _ HQ ltac:(lia)) as HT.
      pose proof HQ as [HQlen HQrows]. pose proof HT as [HTlen HTrows].
      destruct (matmul_shape Q (transpose Q) (S n') (S n')) as [E1 S1];
        [done|done|apply ncols_rows; [by destruct (transpose Q)|done]|].
      destruct (matmul_shape (transpose Q) Q (S n') (S n')) as [E2 S2];
        [done|done|apply ncols_rows; [by destruct Q|done]|].
      rewrite HQlen in S1. rewrite HTlen in S2. by eauto 10. }
  pose proof (eye_shape n) as He.
  destruct (norm2_difference (eye n) qqt n n He Hs1) as [Hp1 Hz1].
  destruct (norm2_difference (eye n) qtq n n He Hs2) as [Hp2 Hz2].
  eexists _, qqt, qtq. split; [done|]. split; [done|].
  split.
  { unfold OrthogonalWeight.forward. simpl. rewrite H1, H2.
    cbn [mbind result_bind]. unfold msub.
    rewrite (same_shape_has_shape _ _ n n He Hs1).
    rewrite (same_shape_has_shape _ _ n n He Hs2).
    cbn [mbind result_bind]. reflexivity. }
  rewrite norm2_scalar_nonneg by lra.
  split; [lra|]. split.
  - intros H. split; symmetry; [apply Hz1|apply Hz2]; lra.
  - intros [-> ->]. destruct Hz1 as [_ ->]; [lra|done].
Qed.

(** X10.  For a square [Q] of size [nx], [OrthogonalWeight.forward()]
    returns a non-negative number, and returns zero exactly when both
    [Q Q^T] and [Q^T Q] are the identity. *)
Theorem OrthogonalWeight_error_vanishes_iff_orthogonal
    (self : OrthogonalWeight.t) :
  has_shape (OrthogonalWeight.Q self) (OrthogonalWeight.nx self)
            (OrthogonalWeight.nx self) →
  ∃ err : R,
    OrthogonalWeight.forward self = Ok err
    ∧ 0 <= err
    ∧ (err = 0
       ↔ matmul (OrthogonalWeight.Q self) (transpose (OrthogonalWeight.Q self))
         = Ok (eye (OrthogonalWeight.nx self))
         ∧ matmul (transpose (OrthogonalWeight.Q self)) (OrthogonalWeight.Q self)
           = Ok (eye (OrthogonalWeight.nx self))).
Proof.
  intros HQ.
  destruct (orthogonality_error self HQ)
    as (err & qqt & qtq & H1 & H2 & Hf & Hpos & Hzero).
  exists err. split; [done|]. split; [done|].
  rewrite H1, H2, Hzero. split.
  - by intros [-> ->].
  - by intros [[= ->] [= ->]].
Qed.

Lemma OrthogonalWeight_error_vanishes_iff_orthogonal_witness :
  ∃ err : R,
    OrthogonalWeight.forward
      {| OrthogonalWeight.Q := [[0; 1]; [1; 0]]; OrthogonalWeight.nx := 2 |}
    = Ok err
    ∧ 0 <= err.
Proof.
  destruct (OrthogonalWeight_error_vanishes_iff_orthogonal
              {| OrthogonalWeight.Q := [[0; 1]; [1; 0]];
                 OrthogonalWeight.nx := 2 |}) as (err & Herr & Hpos & _).
  - split; [reflexivity|repeat constructor].
  - by exists err.
Defined.

Lemma orthogonality_error_eye (n : nat) :
  OrthogonalWeight.forward
    {| OrthogonalWeight.Q := eye n; OrthogonalWeight.nx := n |}
  = Ok 0.
Proof.
  destruct (orthogonality_error
              {| OrthogonalWeight.Q := eye n; OrthogonalWeight.nx := n |})
    as (err & qqt & qtq & H1 & H2 & -> & _ & Hzero); [apply eye_shape|].
  simpl in *. f_equal. apply Hzero.
  rewrite transpose_eye in H1, H2.
  rewrite (matmul_eye_l (eye n) n n (eye_shape n)) in H1, H2.
  by injection H1 as <-; injection H2 as <-.
Qed.

(** X11.  At the identity, [Q = torch.eye(nx)], the orthogonality error is
    exactly zero, for every size [nx]. *)
Theorem OrthogonalWeight_error_at_identity (n : nat) :
  OrthogonalWeight.forward
    {| OrthogonalWeight.Q := eye n; OrthogonalWeight.nx := n |}
  = Ok 0.
Proof. apply orthogonality_error_eye. Qed.

(** ** [SVDLinear] *)

Lemma vecmat_eye (v : list R) (n : nat) :
  (0 < n)%nat → length v = n → vecmat v (eye n) = v.
Proof.
  intros Hn Hv.
  pose proof (linear_representation n n (λ v, v) v (linear_id n) Hn Hv) as H.
  by rewrite map_id in H.
Qed.

(** Products of a row with a product of matrices. *)
Lemma vecmat_assoc (v : list R) (A B : mat) (n m : nat) :
  has_shape A n m → (0 < n)%nat → length v = n →
  vecmat v (map (λ row, vecmat row B) A) = vecmat (vecmat v A) B.
Proof.
  intros HA Hn Hv.
  transitivity (vecmat v (map (λ e, vecmat (vecmat e A) B) (eye n))).
  { f_equal.
    transitivity (map (λ row, vecmat row B) (map (λ e, vecmat e A) (eye n)));
      [by rewrite (eye_rows_vecmat A n m HA Hn)|by rewrite map_map]. }
  apply (linear_representation n (ncols B) (λ e, vecmat (vecmat e A) B));
    [|done..].
  apply (linear_compose n (ncols A) (ncols B)
           (λ v, vecmat v A) (λ v, vecmat v B)); apply linear_vecmat.
Qed.

Lemma dot_vecmat (v w : list R) (A : mat) (n m : nat) :
  has_shape A n m → (0 < n)%nat → length v = n →
  dot (vecmat v A) w = dot v (map (λ row, dot row w) A).
Proof.
  intros HA Hn Hv.
  rewrite (functional_representation n (λ v, dot (vecmat v A) w)); [|..|done].
  - f_equal.
    transitivity (map (λ row, dot row w) (map (λ e, vecmat e A) (eye n)));
      [by rewrite map_map|by rewrite (eye_rows_vecmat A n m HA Hn)].
  - intros a b u u' Hu Hu'.
    destruct (linear_vecmat A n) as [_ Hlin]. rewrite Hlin by done.
    apply dot_lincomb. by rewrite !length_vecmat.
Qed.

Lemma col_transpose (A : mat) (n m i : nat) :
  has_shape A n m → (i < n)%nat → (0 < m)%nat →
  col i (transpose A) = nth i A [].
Proof.
  intros HA Hi Hm. pose proof HA as [Hlen Hrows].
  assert (ncols A = m) as Hcols.
  { apply ncols_rows; [|done]. intros ->. simpl in Hlen. lia. }
  unfold transpose, col. rewrite Hcols, map_map.
  transitivity (map (λ j, nth j (nth i A []) 0) (seq 0 m)).
  - apply map_ext. intros j. by rewrite (nth_map_lt _ _ _ _ []) by lia.
  - rewrite <- (has_shape_nth n m A i HA Hi). apply map_nth_all.
Qed.

Lemma vecmat_transpose (y : list R) (A : mat) (n m : nat) :
  has_shape A n m → (0 < n)%nat → (0 < m)%nat →
  vecmat y (transpose A) = map (λ row, dot y row) A.
Proof.
  intros HA Hn Hm. pose proof HA as [Hlen Hrows].
  pose proof (transpose_shape A n m HA Hn) as [HTlen HTrows].
  unfold vecmat.
  rewrite (ncols_rows (transpose A) n); [| |done].
  2:{ intros E. rewrite E in HTlen. simpl in HTlen. lia. }
  apply (nth_ext _ _ 0 0); [by rewrite !length_map, length_seq|].
  intros i Hi. rewrite length_map, length_seq in Hi.
  rewrite (nth_map_lt _ _ _ _ 0%nat) by (by rewrite length_seq).
  rewrite (nth_map_lt _ _ _ _ []) by lia.
  by rewrite seq_nth, (col_transpose A n m) by done.
Qed.

(** A matrix with [Q Q^T = I] keeps the 2-norm of every row vector it is
    multiplied with. *)
Lemma orthogonal_preserves_norm (Q : mat) (n : nat) (v : list R) :
  has_shape Q n n → (0 < n)%nat → length v = n →
  matmul Q (transpose Q) = Ok (eye n) →
  dot (vecmat v Q) (vecmat v Q) = dot v v.
Proof.
  intros HQ Hn Hv Horth.
  rewrite (dot_vecmat v (vecmat v Q) Q n n) by done. f_equal.
  transitivity (vecmat (vecmat v Q) (transpose Q)).
  { rewrite (vecmat_transpose _ Q n n) by done.
    apply map_ext. intros row. apply dot_comm. }
  rewrite <- (vecmat_assoc v Q (transpose Q) n n) by done.
  unfold matmul in Horth.
  destruct (forallb _ Q); [|discriminate]. injection Horth as ->.
  by apply vecmat_eye.
Qed.

Lemma zip_with_seq_map {A B C} (F : A → B → C) (g : nat → A) (h : R → B)
    (l : list R) (k : nat) :
  zip_with F (map g (seq k (length l))) (map h l)
  = map (λ i, F (g i) (h (nth (i - k) l 0))) (seq k (length l)).
Proof.
  revert k. induction l as [|a l IH]; intros k; simpl; [done|].
  rewrite Nat.sub_diag. f_equal. rewrite IH.
  apply map_ext_in. intros i Hi. apply in_seq in Hi.
  by replace (i - k)%nat with (S (i - S k)) by lia.
Qed.

(** The gain of a product with a diagonal of entries in [[lo, hi]]. *)
Lemma diagonal_gain (v : list R) (s : nat → R) (m : nat) (lo hi : R) :
  0 <= lo → (∀ j, lo <= s j <= hi) →
  dot (map (λ j, nth j v 0 * s j) (seq 0 m))
      (map (λ j, nth j v 0 * s j) (seq 0 m)) <= hi * hi * dot v v
  ∧ ((length v <= m)%nat →
     lo * lo * dot v v
     <= dot (map (λ j, nth j v 0 * s j) (seq 0 m))
            (map (λ j, nth j v 0 * s j) (seq 0 m))).
Proof.
  intros Hlo Hs. rewrite dot_map_self.
  destruct (partial_squares v m) as [Hle Heq].
  split.
  - apply Rle_trans
      with (vsum (map (λ j, hi * hi * (nth j v 0 * nth j v 0)) (seq 0 m))).
    + apply vsum_map_le. intros j. destruct (Hs j) as [H1 H2].
      pose proof (Rle_0_sqr (nth j v 0)) as Hsq. unfold Rsqr in Hsq.
      assert (s j * s j <= hi * hi) by nra. nra.
    + rewrite vsum_map_scale. apply Rmult_le_compat_l; [nra|done].
  - intros Hio. rewrite <- Heq by lia.
    rewrite <- vsum_map_scale. apply vsum_map_le. intros j.
    destruct (Hs j) as [H1 H2].
    pose proof (Rle_0_sqr (nth j v 0)) as Hsq. unfold Rsqr in Hsq.
    assert (lo * lo <= s j * s j) by nra. nra.
Qed.

Lemma ncols_map_vecmat (A B : mat) :
  A ≠ [] → ncols (map (λ row, vecmat row B) A) = ncols B.
Proof. intros HA. destruct A as [|row A]; [done|]. apply length_vecmat. Qed.

Lemma nonempty_length (A : mat) (n : nat) :
  length A = n → (0 < n)%nat → A ≠ [].
Proof. intros Hlen Hn ->. simpl in Hlen. lia. Qed.

Section SVD.
Variable self : SVDLinear.t.
Let n : nat := SVDLinear.insize self.
Let m : nat := SVDLinear.outsize self.
Let UQ : mat := OrthogonalWeight.Q (SVDLinear.U self).
Let VQ : mat := OrthogonalWeight.Q (SVDLinear.V self).
Hypothesis Hsigma : length (SVDLinear.sigma self) = n.
Hypothesis HU : has_shape UQ n n.
Hypothesis HV : has_shape VQ m m.
Hypothesis Hn : (0 < n)%nat.
Hypothesis Hm : (0 < m)%nat.

(** The clamped singular value of row [i]. *)
Let sc (i : nat) : R :=
  SVDLinear.sigma_max self
  - (SVDLinear.sigma_max self - SVDLinear.sigma_min self)
    * sigmoid (nth i (SVDLinear.sigma self) 0).

Let S : mat :=
  map (λ i, map (λ j, if (i =? j)%nat then sc i else 0) (seq 0 m)) (seq 0 n).

Let W : mat :=
  map (λ row, vecmat row (map (λ srow, vecmat srow VQ) S)) UQ.

Lemma Sigma_bounded_rows : SVDLinear.Sigma_bounded self = Ok S.
Proof.
  unfold SVDLinear.Sigma_bounded, SVDLinear.sigma_clamped.
  fold n m. rewrite length_map, Hsigma, Nat.eqb_refl. f_equal.
  unfold eye_rect, S. rewrite <- Hsigma.
  rewrite (zip_with_seq_map
             (λ (row : list R) (si : R), map (λ e, e * si) row)).
  apply map_ext. intros i. rewrite Nat.sub_0_r, map_map.
  apply map_ext. intros j. unfold sc. destruct (i =? j)%nat; lra.
Qed.

Lemma Sigma_bounded_shape : has_shape S n m.
Proof.
  unfold S. split.
  - by rewrite length_map, length_seq.
  - apply Forall_map, Forall_forall. intros i _. simpl.
    by rewrite length_map, length_seq.
Qed.

Lemma sc_bounds (i : nat) :
  SVDLinear.sigma_min self <= SVDLinear.sigma_max self →
  SVDLinear.sigma_min self <= sc i <= SVDLinear.sigma_max self.
Proof.
  intros Hb. unfold sc.
  pose proof (sigmoid_bounds (nth i (SVDLinear.sigma self) 0)). nra.
Qed.

Lemma Sigma_bounded_entry (i j : nat) :
  (i < n)%nat → (j < m)%nat →
  nth j (nth i S []) 0 = if (i =? j)%nat then sc i else 0.
Proof.
  intros Hi Hj. unfold S.
  rewrite (nth_map_lt _ _ _ _ 0%nat) by (by rewrite length_seq).
  rewrite (nth_map_lt _ _ _ _ 0%nat) by (by rewrite length_seq).
  by rewrite !seq_nth by done.
Qed.

Lemma vecmat_Sigma_bounded (v : list R) :
  length v = n →
  vecmat v S = map (λ j, nth j v 0 * sc j) (seq 0 m).
Proof.
  intros Hv. unfold vecmat.
  destruct Sigma_bounded_shape as [Hlen Hrows].
  rewrite (ncols_rows S m); [|by apply (nonempty_length S n)|done].
  apply map_ext_in. intros j Hj. apply in_seq in Hj.
  assert (col j S
          = map (λ i, if (j =? i)%nat then sc j else 0)
                (seq 0 (length v))) as ->.
  { unfold col, S. rewrite map_map, Hv.
    apply map_ext. intros i.
    rewrite (nth_map_lt _ _ _ _ 0%nat) by (rewrite length_seq; lia).
    rewrite seq_nth by lia. simpl.
    rewrite Nat.eqb_sym. by destruct (Nat.eqb_spec j i) as [->|]. }
  rewrite dot_indicator. simpl. by rewrite Nat.sub_0_r.
Qed.

Lemma effective_W_rows : SVDLinear.effective_W self = Ok W.
Proof.
  unfold SVDLinear.effective_W. rewrite Sigma_bounded_rows.
  destruct Sigma_bounded_shape as [HSlen HSrows].
  destruct HU as [HUlen HUrows]. destruct HV as [HVlen HVrows].
  cbn [mbind result_bind]. unfold matmul. fold VQ UQ.
  rewrite forallb_lengths by (by rewrite HVlen).
  cbn [mbind result_bind].
  by rewrite forallb_lengths by (by rewrite length_map, HSlen).
Qed.

Lemma ncols_W : ncols W = m.
Proof.
  destruct Sigma_bounded_shape as [HSlen _].
  destruct HU as [HUlen _]. destruct HV as [HVlen HVrows].
  unfold W.
  rewrite ncols_map_vecmat by (by apply (nonempty_length UQ n)).
  rewrite ncols_map_vecmat by (by apply (nonempty_length S n)).
  apply ncols_rows; [by apply (nonempty_length VQ m)|done].
Qed.

(** With [U] and [V] orthogonal, the singular values bound the gain. *)
Lemma row_gain (row : list R) :
  length row = n →
  0 <= SVDLinear.sigma_min self <= SVDLinear.sigma_max self →
  matmul UQ (transpose UQ) = Ok (eye n) →
  matmul VQ (transpose VQ) = Ok (eye m) →
  dot (vecmat row W) (vecmat row W)
  <= SVDLinear.sigma_max self * SVDLinear.sigma_max self * dot row row
  ∧ ((n <= m)%nat →
     SVDLinear.sigma_min self * SVDLinear.sigma_min self * dot row row
     <= dot (vecmat row W) (vecmat row W)).
Proof.
  intros Hrow Hb HUo HVo.
  destruct Sigma_bounded_shape as [HSlen HSrows].
  assert (ncols UQ = n) as HUcols.
  { destruct HU as [HUlen HUrows].
    apply ncols_rows; [by apply (nonempty_length UQ n)|done]. }
  assert (length (vecmat row UQ) = n) as Hlen1
    by (by rewrite length_vecmat).
  unfold W.
  rewrite (vecmat_assoc row UQ _ n n) by done.
  rewrite (vecmat_assoc _ S VQ n m) by (done || apply Sigma_bounded_shape).
  rewrite (orthogonal_preserves_norm VQ m); [|done..| |done].
  2:{ rewrite length_vecmat.
      apply ncols_rows; [by apply (nonempty_length S n)|done]. }
  rewrite vecmat_Sigma_bounded by done.
  rewrite <- (orthogonal_preserves_norm UQ n row) by done.
  destruct (diagonal_gain (vecmat row UQ) sc m
              (SVDLinear.sigma_min self) (SVDLinear.sigma_max self))
    as [Hhi Hlo]; [lra| |].
  { intros j. apply sc_bounds. lra. }
  split; [done|]. intros Hnm. apply Hlo. lia.
Qed.

Lemma forward_rows (x : mat) :
  SVDLinear.bias self = repeat 0 m →
  Forall (λ row, length row = n) x →
  SVDLinear.forward self x = Ok (map (λ row, vecmat row W) x).
Proof.
  intros Hbias Hx. unfold SVDLinear.forward.
  rewrite effective_W_rows. cbn [mbind result_bind]. unfold matmul.
  destruct HU as [HUlen _].
  rewrite forallb_lengths by (by unfold W; rewrite length_map, HUlen).
  cbn [mbind result_bind]. rewrite Hbias. unfold add_row_bias.
  assert (Forall (λ row, length row = m) (map (λ row, vecmat row W) x))
    as Hy.
  { apply Forall_map, Forall_forall. intros row _. simpl.
    by rewrite length_vecmat, ncols_W. }
  rewrite forallb_lengths by (by rewrite repeat_length).
  f_equal. rewrite <- (map_id (map (λ row, vecmat row W) x)) at 2.
  apply map_ext_in. intros row Hrow.
  rewrite Forall_forall in Hy.
  rewrite <- (Hy row) by (by apply list_elem_of_In).
  apply zip_with_zeros.
Qed.
End SVD.

(** A zero [spectral_error] makes both factors orthogonal. *)
Lemma spectral_error_zero (self : SVDLinear.t) :
  has_shape (OrthogonalWeight.Q (SVDLinear.U self))
            (OrthogonalWeight.nx (SVDLinear.U self))
            (OrthogonalWeight.nx (SVDLinear.U self)) →
  has_shape (OrthogonalWeight.Q (SVDLinear.V self))
            (OrthogonalWeight.nx (SVDLinear.V self))
            (OrthogonalWeight.nx (SVDLinear.V self)) →
  ∃ err : R,
    SVDLinear.spectral_error self = Ok err
    ∧ 0 <= err
    ∧ (err = 0 →
       matmul (OrthogonalWeight.Q (SVDLinear.U self))
              (transpose (OrthogonalWeight.Q (SVDLinear.U self)))
       = Ok (eye (OrthogonalWeight.nx (SVDLinear.U self)))
       ∧ matmul (OrthogonalWeight.Q (SVDLinear.V self))
                (transpose (OrthogonalWeight.Q (SVDLinear.V self)))
         = Ok (eye (OrthogonalWeight.nx (SVDLinear.V self)))).
Proof.
  intros HU HV.
  destruct (orthogonality_error _ HU)
    as (eu & uut & utu & Hu1 & _ & Hfu & Hpu & Hzu).
  destruct (orthogonality_error _ HV)
    as (ev & vvt & vtv & Hv1 & _ & Hfv & Hpv & Hzv).
  exists (eu + ev). unfold SVDLinear.spectral_error.
  rewrite Hfu, Hfv. cbn [mbind result_bind].
  split; [done|]. split; [lra|]. intros Hz.
  destruct Hzu as [Hzu _]. destruct Hzv as [Hzv _].
  destruct Hzu as [-> _]; [lra|]. destruct Hzv as [-> _]; [lra|]. done.
Qed.

(** X12.  With one [sigma] per input ([sigma] has [insize] rows) and
    [sigma_min <= sigma_max], the matrix [Sigma_bounded] built by
    [SVDLinear.effective_W] has shape [insize x outsize], is zero off the
    diagonal, and carries
    [sigma_max - (sigma_max - sigma_min) * sigmoid(sigma_i)] at [(i, i)], a
    value between [sigma_min] and [sigma_max]. *)
Theorem SVDLinear_singular_values_clamped (self : SVDLinear.t) :
  length (SVDLinear.sigma self) = SVDLinear.insize self →
  SVDLinear.sigma_min self <= SVDLinear.sigma_max self →
  ∃ S : mat,
    SVDLinear.Sigma_bounded self = Ok S
    ∧ has_shape S (SVDLinear.insize self) (SVDLinear.outsize self)
    ∧ ∀ i j : nat,
        (i < SVDLinear.insize self)%nat → (j < SVDLinear.outsize self)%nat →
        nth j (nth i S []) 0
        = (if (i =? j)%nat
           then SVDLinear.sigma_max self
                - (SVDLinear.sigma_max self - SVDLinear.sigma_min self)
                  * sigmoid (nth i (SVDLinear.sigma self) 0)
           else 0)
        ∧ SVDLinear.sigma_min self
          <= SVDLinear.sigma_max self
             - (SVDLinear.sigma_max self - SVDLinear.sigma_min self)
               * sigmoid (nth i (SVDLinear.sigma self) 0)
          <= SVDLinear.sigma_max self.
Proof.
  intros Hsigma Hb. eexists. split; [by apply Sigma_bounded_rows|].
  split; [apply Sigma_bounded_shape|].
  intros i j Hi Hj. split.
  - by apply Sigma_bounded_entry.
  - by apply sc_bounds.
Qed.

Lemma SVDLinear_singular_values_clamped_witness :
  ∃ S : mat,
    SVDLinear.Sigma_bounded svd_example = Ok S ∧ has_shape S 2 2.
Proof.
  destruct (SVDLinear_singular_values_clamped svd_example)
    as (S & HS & Hshape & _).
  - reflexivity.
  - simpl. lra.
  - by exists S.
Defined.

(** X13.  An [SVDLinear] whose factors [U.Q] ([insize x insize]) and [V.Q]
    ([outsize x outsize]) make [spectral_error] zero, with one [sigma] per
    input, [0 <= sigma_min <= sigma_max] and the all-zero bias it is built
    with: [forward] maps every row [x_b] to a row [y_b] with
    [|y_b| <= sigma_max * |x_b|] in the 2-norm, and with
    [sigma_min * |x_b| <= |y_b|] when [insize <= outsize]. *)
Theorem SVDLinear_gain_when_spectral_error_is_zero
    (self : SVDLinear.t) (x : mat) :
  length (SVDLinear.sigma self) = SVDLinear.insize self →
  OrthogonalWeight.nx (SVDLinear.U self) = SVDLinear.insize self →
  OrthogonalWeight.nx (SVDLinear.V self) = SVDLinear.outsize self →
  has_shape (OrthogonalWeight.Q (SVDLinear.U self))
            (SVDLinear.insize self) (SVDLinear.insize self) →
  has_shape (OrthogonalWeight.Q (SVDLinear.V self))
            (SVDLinear.outsize self) (SVDLinear.outsize self) →
  (0 < SVDLinear.insize self)%nat → (0 < SVDLinear.outsize self)%nat →
  0 <= SVDLinear.sigma_min self <= SVDLinear.sigma_max self →
  SVDLinear.bias self = repeat 0 (SVDLinear.outsize self) →
  SVDLinear.spectral_error self = Ok 0 →
  Forall (λ row, length row = SVDLinear.insize self) x →
  ∃ y : mat,
    SVDLinear.forward self x = Ok y
    ∧ Forall2 (λ row_x row_y,
                 dot row_y row_y
                 <= SVDLinear.sigma_max self * SVDLinear.sigma_max self
                    * dot row_x row_x
                 ∧ ((SVDLinear.insize self <= SVDLinear.outsize self)%nat →
                    SVDLinear.sigma_min self * SVDLinear.sigma_min self
                    * dot row_x row_x
                    <= dot row_y row_y))
              x y.
Proof.
  intros Hsigma HnU HnV HU HV Hn Hm Hb Hbias Herr Hx.
  destruct (spectral_error_zero self) as (err & Herr' & _ & Horth).
  { by rewrite HnU. }
  { by rewrite HnV. }
  rewrite Herr in Herr'. injection Herr' as <-.
  destruct Horth as [HUo HVo]; [done|]. rewrite HnU in HUo. rewrite HnV in HVo.
  eexists. split; [by apply forward_rows|].
  apply Forall2_fmap_r, Forall_Forall2_diag.
  eapply Forall_impl; [exact Hx|]. simpl. intros row Hrow.
  by apply row_gain.
Qed.

Lemma SVDLinear_gain_when_spectral_error_is_zero_witness :
  ∃ y : mat,
    SVDLinear.forward svd_example [[1; 2]] = Ok y
    ∧ Forall2 (λ row_x row_y,
                 dot row_y row_y <= 1 * 1 * dot row_x row_x
                 ∧ ((2 <= 2)%nat → 0.1 * 0.1 * dot row_x row_x <= dot row_y row_y))
              [[1; 2]] y.
Proof.
  apply (SVDLinear_gain_when_spectral_error_is_zero svd_example [[1; 2]]).
  - reflexivity.
  - reflexivity.
  - reflexivity.
  - split; [reflexivity|repeat constructor].
  - split; [reflexivity|repeat constructor].
  - simpl. lia.
  - simpl. lia.
  - simpl. lra.
  - reflexivity.
  - unfold SVDLinear.spectral_error, svd_example. simpl SVDLinear.U.
    simpl SVDLinear.V. rewrite (orthogonality_error_eye 2).
    cbn [mbind result_bind]. f_equal. lra.
  - repeat constructor.
Defined.

(** * Further properties of [simulators.py] *)

(** ** [MultiSequenceOpenLoopSimulator.agg] *)

Lemma append_all_raises {V} (d : gmap string V) (acc : gmap string (list V)) :
  ¬ dom d ⊆ dom acc → append_all d acc = Err KeyError.
Proof.
  intros Hn. unfold append_all.
  assert ((∃ a, map_fold (λ k v r, m ← r; l ← getitem m k;
                                   Ok (<[k := l ++ [v]]> m)) (Ok acc) d = Ok a
                ∧ dom a = dom acc ∧ dom d ⊆ dom acc)
          ∨ map_fold (λ k v r, m ← r; l ← getitem m k;
                               Ok (<[k := l ++ [v]]> m)) (Ok acc) d
            = Err KeyError) as [(a & _ & _ & Hsub)|H]; [|done|done].
  apply (map_fold_weak_ind (λ r m,
    (∃ a, r = Ok a ∧ dom a = dom acc ∧ dom m ⊆ dom acc)
    ∨ r = Err KeyError)).
  - left. exists acc. split; [done|]. split; [done|]. set_solver.
  - intros i x m r Hi [(a & -> & Ha & Hsub)| ->]; [|by right].
    cbn [mbind result_bind]. unfold getitem.
    destruct (a !! i) as [l|] eqn:Hl; cbn [mbind result_bind]; [|by right].
    left. eexists. split; [done|].
    assert (i ∈ dom a) as Hin by (apply elem_of_dom; eauto).
    rewrite !dom_insert_L. split.
    + rewrite <- Ha. apply subseteq_union_1_L. by apply singleton_subseteq_l.
    + apply union_least; [|done]. apply singleton_subseteq_l. by rewrite <- Ha.
Qed.

Lemma collect_raises (outputs : list (gmap string value))
    (agg_outputs : gmap string (list value)) :
  ¬ Forall (λ data, dom data ⊆ dom agg_outputs) outputs →
  MultiSequenceOpenLoopSimulator.collect outputs agg_outputs = Err KeyError.
Proof.
  revert agg_outputs. induction outputs as [|d outputs IH];
    intros acc Hn; simpl.
  - destruct Hn. constructor.
  - destruct (decide (dom d ⊆ dom acc)) as [Hsub|Hsub].
    + rewrite append_all_total by done. cbn [mbind result_bind].
      apply IH. intros HF. apply Hn. constructor; [done|].
      eapply Forall_impl; [exact HF|]. simpl. intros d'.
      by rewrite dom_map_imap_total.
    + by rewrite append_all_raises.
Qed.

(** What a successful pass of [dict_mapM] has stored. *)
Lemma dict_mapM_inv {A B} (f : string → A → result B) (d : gmap string A)
    (r : gmap string B) :
  dict_mapM f d = Ok r →
  ∀ k, match d !! k with
       | Some a => ∃ b, f k a = Ok b ∧ r !! k = Some b
       | None => r !! k = None
       end.
Proof.
  unfold dict_mapM. revert r.
  apply (map_fold_weak_ind (λ res m,
    ∀ r, res = Ok r →
    ∀ k, match m !! k with
         | Some a => ∃ b, f k a = Ok b ∧ r !! k = Some b
         | None => r !! k = None
         end)).
  - intros r [= <-] k. by rewrite !lookup_empty.
  - intros i x m res Hi IH r Hr k.
    destruct res as [m'|e]; [|done]. cbn [mbind result_bind] in Hr.
    destruct (f i x) as [b|e] eqn:Hf; [|done].
    cbn [mbind result_bind] in Hr. injection Hr as <-.
    destruct (decide (i = k)) as [<-|Hne].
    + rewrite !lookup_insert_eq. eauto.
    + rewrite !lookup_insert_ne by done. by apply IH.
Qed.

(** What [agg] has returned, whenever it returns. *)
Lemma agg_inv (self : MultiSequenceOpenLoopSimulator.t)
    (first : gmap string value) (rest : list (gmap string value))
    (res : gmap string aggregate) :
  MultiSequenceOpenLoopSimulator.agg self (first :: rest) = Ok res →
  ∀ k, match first !! k with
       | Some v =>
           ∃ a, MultiSequenceOpenLoopSimulator.agg_entry self
                  (v :: omap (λ data, data !! k) rest) = Ok a
                ∧ res !! k = Some a
       | None => res !! k = None
       end.
Proof.
  unfold MultiSequenceOpenLoopSimulator.agg.
  pose proof (index_nat (first :: rest) 0%nat first eq_refl) as Hi.
  change (Z.of_nat 0) with 0%Z in Hi. rewrite Hi.
  cbn [mbind result_bind].
  destruct (decide (Forall (λ data, dom data
                                    ⊆ dom ((λ _, @nil value) <$> first))
                           (first :: rest))) as [HF|HF].
  2:{ by rewrite collect_raises. }
  rewrite collect_total by done. cbn [mbind result_bind].
  intros Hres k. pose proof (dict_mapM_inv _ _ _ Hres k) as Hk.
  rewrite map_lookup_imap, lookup_fmap in Hk.
  destruct (first !! k) as [v|] eqn:Hfirst; simpl in Hk; [|done].
  by rewrite Hfirst in Hk.
Qed.

(** X14.  [agg] raises [IndexError] on an empty list of outputs, and
    [KeyError] as soon as some output after the first one holds a key that
    the first one does not hold, whatever the other entries are. *)
Theorem agg_raises_on_empty_list_and_new_keys
    (self : MultiSequenceOpenLoopSimulator.t) :
  MultiSequenceOpenLoopSimulator.agg self [] = Err IndexError
  ∧ ∀ (first data : gmap string value) (rest : list (gmap string value))
      (k : string),
      data ∈ rest → is_Some (data !! k) → first !! k = None →
      MultiSequenceOpenLoopSimulator.agg self (first :: rest) = Err KeyError.
Proof.
  split; [done|]. intros first data rest k Hdata Hk Hfirst.
  unfold MultiSequenceOpenLoopSimulator.agg.
  pose proof (index_nat (first :: rest) 0%nat first eq_refl) as Hi.
  change (Z.of_nat 0) with 0%Z in Hi. rewrite Hi.
  cbn [mbind result_bind]. rewrite collect_raises; [done|].
  intros HF. apply Forall_cons in HF as [_ HF].
  rewrite Forall_forall in HF. specialize (HF data Hdata).
  rewrite dom_fmap_L in HF.
  apply elem_of_dom in Hk. apply not_elem_of_dom in Hfirst. set_solver.
Qed.

(** X15.  Whenever [agg] returns, it returns a dictionary with exactly the
    keys of the first output, and an entry whose first collected value is a
    string is returned as the plain list of the values collected under its
    key, in the order of the outputs, never as a tensor. *)
Theorem agg_keeps_string_entries
    (self : MultiSequenceOpenLoopSimulator.t)
    (first : gmap string value) (rest : list (gmap string value))
    (res : gmap string aggregate) :
  MultiSequenceOpenLoopSimulator.agg self (first :: rest) = Ok res →
  dom res = dom first
  ∧ ∀ (k : string) (s : string),
      first !! k = Some (VStr s) →
      res !! k
      = Some (Collected (VStr s :: omap (λ data, data !! k) rest)).
Proof.
  intros Hres. pose proof (agg_inv self first rest res Hres) as Hinv.
  split.
  - apply set_eq. intros k. rewrite !elem_of_dom. specialize (Hinv k).
    destruct (first !! k) as [v|].
    + destruct Hinv as (a & _ & ->). split; eauto.
    + rewrite Hinv. split; intros [? ?]; done.
  - intros k s Hk. specialize (Hinv k). rewrite Hk in Hinv.
    destruct Hinv as (a & Ha & ->). f_equal.
    unfold MultiSequenceOpenLoopSimulator.agg_entry in Ha.
    pose proof (index_nat (VStr s :: omap (λ data, data !! k) rest) 0%nat
                  (VStr s) eq_refl) as Hi.
    change (Z.of_nat 0) with 0%Z in Hi. rewrite Hi in Ha.
    cbn [mbind result_bind] in Ha. by injection Ha as <-.
Qed.

Lemma agg_raises_on_empty_list_and_new_keys_witness :
  MultiSequenceOpenLoopSimulator.agg
    {| MultiSequenceOpenLoopSimulator.model := Ok;
       MultiSequenceOpenLoopSimulator.stack := false |}
    [ {["loss"%string := VTensor (scalar 1)]};
      {["name"%string := VStr "dev"]} ]
  = Err KeyError.
Proof.
  apply (proj2 (agg_raises_on_empty_list_and_new_keys
                  {| MultiSequenceOpenLoopSimulator.model := Ok;
                     MultiSequenceOpenLoopSimulator.stack := false |})
           _ {["name"%string := VStr "dev"]} _ "name"%string).
  - by constructor.
  - by eexists.
  - reflexivity.
Defined.

Lemma agg_keeps_string_entries_witness :
  ({["name"%string := Collected [VStr "train"; VStr "dev"]]}
     : gmap string aggregate) !! "name"%string
  = Some (Collected [VStr "train"; VStr "dev"]).
Proof.
  exact (proj2 (agg_keeps_string_entries
                  {| MultiSequenceOpenLoopSimulator.model := Ok;
                     MultiSequenceOpenLoopSimulator.stack := false |}
                  {["name"%string := VStr "train"]}
                  [ {["name"%string := VStr "dev"]} ]
                  {["name"%string := Collected [VStr "train"; VStr "dev"]]}
                  eq_refl)
           "name"%string "train"%string eq_refl).
Defined.

(** ** [ClosedLoopSimulator]: the step data *)

Lemma step_data_loop_total (window : tensor → result tensor)
    (g : tensor → tensor) (keys : list string)
    (data step_data : gmap string tensor) :
  (∀ key v, key ∈ keys → data !! key = Some v → window v = Ok (g v)) →
  ∃ sd : gmap string tensor,
    ClosedLoopSimulator.step_data_loop window keys data step_data = Ok sd
    ∧ ∀ key,
        sd !! key
        = if decide (key ∈ keys)
          then match data !! key with
               | Some v => Some (g v)
               | None => step_data !! key
               end
          else step_data !! key.
Proof.
  revert step_data. induction keys as [|key0 keys IH];
    intros step_data Hw; cbn [ClosedLoopSimulator.step_data_loop].
  - exists step_data. split; [done|]. intros key.
    rewrite decide_False; [done|]. apply not_elem_of_nil.
  - destruct (data !! key0) as [v0|] eqn:H0.
    + rewrite (Hw key0 v0) by (done || by left). cbn [mbind result_bind].
      destruct (IH (<[key0 := g v0]> step_data)) as (sd & -> & Hsd).
      { intros key v Hkey. apply Hw. by right. }
      exists sd. split; [done|]. intros key. rewrite Hsd.
      destruct (decide (key = key0)) as [->|Hne].
      * rewrite H0, lookup_insert_eq.
        rewrite (decide_True (P := key0 ∈ key0 :: keys)) by (by left).
        by destruct (decide (key0 ∈ keys)).
      * rewrite lookup_insert_ne by done.
        destruct (decide (key ∈ keys)) as [Hin|Hnin].
        -- by rewrite decide_True by (by right).
        -- rewrite decide_False; [done|].
           rewrite elem_of_cons. tauto.
    + destruct (IH step_data) as (sd & -> & Hsd).
      { intros key v Hkey. apply Hw. by right. }
      exists sd. split; [done|]. intros key. rewrite Hsd.
      destruct (decide (key = key0)) as [->|Hne].
      * rewrite H0.
        rewrite (decide_True (P := key0 ∈ key0 :: keys)) by (by left).
        by destruct (decide (key0 ∈ keys)).
      * destruct (decide (key ∈ keys)) as [Hin|Hnin].
        -- by rewrite decide_True by (by right).
        -- rewrite decide_False; [done|].
           rewrite elem_of_cons. tauto.
Qed.

Lemma step_data_loop_raises (window : tensor → result tensor) (e : exn)
    (keys : list string) (data step_data : gmap string tensor)
    (key : string) (v : tensor) :
  (∀ v e', window v = Err e' → e' = e) →
  key ∈ keys → data !! key = Some v → window v = Err e →
  ClosedLoopSimulator.step_data_loop window keys data step_data = Err e.
Proof.
  intros Honly Hkey Hv Hraise. revert step_data.
  induction keys as [|key0 keys IH]; intros step_data; simpl.
  - by apply elem_of_nil in Hkey.
  - destruct (data !! key0) as [v0|] eqn:H0.
    + destruct (window v0) as [w|e'] eqn:Hw0; cbn [mbind result_bind].
      * apply elem_of_cons in Hkey as [->|Hkey]; [congruence|].
        by apply IH.
      * by rewrite (Honly v0 e').
    + apply elem_of_cons in Hkey as [->|Hkey]; [congruence|].
      by apply IH.
Qed.

Lemma slice_time_window (a b : Z) (t : tensor) (n : nat) (s : list nat) :
  shape t = n :: s → (2 <= length s)%nat →
  (0 <= a)%Z → (a <= b)%Z → (b <= Z.of_nat n)%Z →
  slice_time a b t
  = Ok {| shape := Z.to_nat (b - a) :: s;
          data := firstn (Z.to_nat (b - a) * numel s)
                         (skipn (Z.to_nat a * numel s) (data t)) |}.
Proof.
  intros Hshape Hs Ha Hab Hb. unfold slice_time, ndim. rewrite Hshape.
  cbn [length]. destruct (Nat.leb_spec 3 (S (length s))) as [_|]; [|lia].
  unfold slice_index.
  destruct (Z.ltb_spec a 0); [lia|]. destruct (Z.ltb_spec b 0); [lia|].
  rewrite !Z.min_l by lia.
  by replace (Z.to_nat b - Z.to_nat a)%nat with (Z.to_nat (b - a)) by lia.
Qed.

Lemma index_time_block (k : Z) (t : tensor) (n : nat) (s : list nat) :
  shape t = n :: s → (2 <= length s)%nat →
  (0 <= k)%Z → (k < Z.of_nat n)%Z →
  index_time k t
  = Ok {| shape := s;
          data := firstn (numel s) (skipn (Z.to_nat k * numel s) (data t)) |}.
Proof.
  intros Hshape Hs Hk Hkn. unfold index_time, ndim. rewrite Hshape.
  cbn [length]. destruct (Nat.leb_spec 3 (S (length s))) as [_|]; [|lia].
  destruct (Z.ltb_spec k 0); [lia|].
  destruct (Z.leb_spec 0 k); [|lia].
  by destruct (Z.ltb_spec k (Z.of_nat n)); [|lia].
Qed.

Lemma index_time_raises (k : Z) (t : tensor) (e : exn) :
  index_time k t = Err e → e = IndexError.
Proof.
  unfold index_time. destruct (3 <=? ndim t)%nat; [|by intros [= <-]].
  destruct (shape t) as [|n s]; [by intros [= <-]|].
  destruct (_ && _); [done|by intros [= <-]].
Qed.

Lemma index_time_past_the_end (k : Z) (t : tensor) :
  (Z.of_nat (hd 0%nat (shape t)) <= k)%Z → index_time k t = Err IndexError.
Proof.
  intros Hk. unfold index_time. destruct (3 <=? ndim t)%nat; [|done].
  destruct (shape t) as [|n s]; [done|]. simpl in Hk.
  destruct (Z.ltb_spec k 0); [lia|].
  destruct (Z.ltb_spec k (Z.of_nat n)); [lia|].
  by rewrite andb_false_r.
Qed.

(** X16.  With [0 <= policy.nsteps <= k] and every tensor of the argument
    [data] (here [inputs]) of at least three dimensions and at least [k]
    time steps, [step_data_policy] and [step_data_estimator] both return,
    for each of their input keys found in [inputs] and for no other key,
    the [policy.nsteps] time steps before [k]: the estimator's window has
    the length of the policy's horizon, not [estimator.window_size]. *)
Theorem step_data_windows_follow_the_policy_horizon
    (self : ClosedLoopSimulator.t) (est : ClosedLoopSimulator.component)
    (inputs : gmap string tensor) (k : Z) :
  let nsteps := ClosedLoopSimulator.nsteps (ClosedLoopSimulator.policy self) in
  let window (v : tensor) : tensor :=
    {| shape := Z.to_nat nsteps :: tl (shape v);
       data := firstn (Z.to_nat nsteps * numel (tl (shape v)))
                 (skipn (Z.to_nat (k - nsteps) * numel (tl (shape v)))
                        (data v)) |} in
  ClosedLoopSimulator.estimator self = Some est →
  (0 <= nsteps <= k)%Z →
  (∀ key v, inputs !! key = Some v →
     (3 <= ndim v)%nat ∧ (k <= Z.of_nat (hd 0%nat (shape v)))%Z) →
  ∃ sd_policy sd_estimator : gmap string tensor,
    ClosedLoopSimulator.step_data_policy self inputs k = Ok sd_policy
    ∧ ClosedLoopSimulator.step_data_estimator self inputs k = Ok sd_estimator
    ∧ (∀ key,
         sd_policy !! key
         = if decide (key ∈ ClosedLoopSimulator.input_keys
                              (ClosedLoopSimulator.policy self))
           then window <$> inputs !! key else None)
    ∧ (∀ key,
         sd_estimator !! key
         = if decide (key ∈ ClosedLoopSimulator.input_keys est)
           then window <$> inputs !! key else None).
Proof.
  intros nsteps window Hest Hk Hdata.
  assert (∀ v key, inputs !! key = Some v →
            slice_time (k - nsteps) k v = Ok (window v)) as Hwindow.
  { intros v key Hv. destruct (Hdata key v Hv) as [Hdim Hlen].
    unfold ndim in Hdim. destruct (shape v) as [|n s] eqn:Hshape;
      [simpl in Hdim; lia|].
    simpl in Hdim, Hlen.
    rewrite (slice_time_window _ _ v n s) by (done || lia).
    unfold window. rewrite Hshape. cbn [tl].
    by replace (k - (k - nsteps))%Z with nsteps by lia. }
  destruct (step_data_loop_total (slice_time (k - nsteps) k) window
              (ClosedLoopSimulator.input_keys (ClosedLoopSimulator.policy self))
              inputs ∅) as (sdp & Hp & Hsdp).
  { intros key v _ Hv. by apply (Hwindow v key). }
  destruct (step_data_loop_total (slice_time (k - nsteps) k) window
              (ClosedLoopSimulator.input_keys est) inputs ∅)
    as (sde & He & Hsde).
  { intros key v _ Hv. by apply (Hwindow v key). }
  exists sdp, sde. split; [done|]. split.
  { unfold ClosedLoopSimulator.step_data_estimator,
      ClosedLoopSimulator.estimator_attr. rewrite Hest.
    cbn [mbind result_bind]. done. }
  split; intros key; [rewrite Hsdp|rewrite Hsde];
    destruct (decide _); [|done| |done];
    by destruct (inputs !! key).
Qed.

Lemma step_data_windows_follow_the_policy_horizon_witness :
  ∃ sd_policy sd_estimator : gmap string tensor,
    ClosedLoopSimulator.step_data_policy example_loop
      (ClosedLoopSimulator.sim_data example_loop) 3 = Ok sd_policy
    ∧ ClosedLoopSimulator.step_data_estimator example_loop
        (ClosedLoopSimulator.sim_data example_loop) 3 = Ok sd_estimator.
Proof.
  destruct (step_data_windows_follow_the_policy_horizon
              example_loop example_estimator
              (ClosedLoopSimulator.sim_data example_loop) 3 eq_refl)
    as (sdp & sde & Hp & He & _).
  - simpl. lia.
  - intros key v. simpl.
    destruct (decide (key = "Yp"%string)) as [->|Hne].
    + rewrite lookup_insert_eq. intros [= <-]. simpl. unfold ndim. simpl. lia.
    + by rewrite lookup_insert_ne.
  - by exists sdp, sde.
Defined.

(** X17.  For [k >= 0], [step_data_emulator] returns the single time step
    [k] of every emulator input key found in the argument [data] (here
    [inputs]), with one dimension fewer, when all of them have at least
    three dimensions and more than [k] time steps, and raises [IndexError]
    as soon as one of them has [k] time steps or fewer. *)
Theorem step_data_emulator_reads_time_step_k
    (self : ClosedLoopSimulator.t) (inputs : gmap string tensor) (k : Z) :
  let keys :=
    ClosedLoopSimulator.input_keys (ClosedLoopSimulator.emulator self) in
  let block (v : tensor) : tensor :=
    {| shape := tl (shape v);
       data := firstn (numel (tl (shape v)))
                 (skipn (Z.to_nat k * numel (tl (shape v)))
                        (data v)) |} in
  (0 <= k)%Z →
  ((∀ key v, key ∈ keys → inputs !! key = Some v →
      (3 <= ndim v)%nat ∧ (k < Z.of_nat (hd 0%nat (shape v)))%Z) →
   ∃ sd : gmap string tensor,
     ClosedLoopSimulator.step_data_emulator self inputs k = Ok sd
     ∧ ∀ key,
         sd !! key
         = if decide (key ∈ keys) then block <$> inputs !! key else None)
  ∧ ∀ key v, key ∈ keys → inputs !! key = Some v →
      (Z.of_nat (hd 0%nat (shape v)) <= k)%Z →
      ClosedLoopSimulator.step_data_emulator self inputs k = Err IndexError.
Proof.
  intros keys block Hk. split.
  - intros Hdata.
    destruct (step_data_loop_total (index_time k) block keys inputs ∅)
      as (sd & Hsd & Hlookup).
    { intros key v Hkey Hv. destruct (Hdata key v Hkey Hv) as [Hdim Hlen].
      unfold ndim in Hdim. destruct (shape v) as [|n s] eqn:Hshape;
        [simpl in Hdim; lia|].
      simpl in Hdim, Hlen.
      rewrite (index_time_block k v n s) by (done || lia).
      unfold block. by rewrite Hshape. }
    exists sd. split; [done|]. intros key. rewrite Hlookup.
    destruct (decide _); [|done]. by destruct (inputs !! key).
  - intros key v Hkey Hv Hlen.
    apply (step_data_loop_raises _ _ _ _ _ key v); [|done|done|].
    + apply index_time_raises.
    + by apply index_time_past_the_end.
Qed.

Lemma step_data_emulator_reads_time_step_k_witness :
  ClosedLoopSimulator.step_data_emulator example_loop
    (ClosedLoopSimulator.sim_data example_loop) 8
  = Err IndexError.
Proof.
  apply (proj2 (step_data_emulator_reads_time_step_k example_loop
                  (ClosedLoopSimulator.sim_data example_loop) 8
                  ltac:(lia))
           "Yp"%string {| shape := [8; 1; 1]%nat;
                          data := [0; 1; 2; 3; 4; 5; 6; 7]%R |}).
  - simpl. by right; left.
  - reflexivity.
  - simpl. lia.
Defined.

(** ** [ClosedLoopSimulator.simulate]: where it stops *)

Lemma elem_of_range (a b k : Z) : k ∈ range a b ↔ (a <= k < b)%Z.
Proof.
  unfold range. rewrite list_elem_of_In, in_map_iff. split.
  - intros (i & <- & Hi). apply in_seq in Hi. lia.
  - intros Hk. exists (Z.to_nat (k - a)). split; [lia|].
    apply in_seq. lia.
Qed.

Lemma loop_raises (self : ClosedLoopSimulator.t) (ks : list Z) (k : Z)
    (e : exn) (cl_data : gmap string (list tensor)) :
  k ∈ ks → ClosedLoopSimulator.step self k = Err e →
  ∃ e', ClosedLoopSimulator.loop self ks cl_data = Err e'.
Proof.
  intros Hk Hstep. revert cl_data.
  induction ks as [|k0 ks IH]; intros cl_data; simpl.
  - by apply elem_of_nil in Hk.
  - destruct (ClosedLoopSimulator.step self k0) as [out|e0] eqn:H0;
      cbn [mbind result_bind]; [|by eexists].
    destruct (ClosedLoopSimulator.append_data cl_data out) as [cl'|e1];
      cbn [mbind result_bind]; [|by eexists].
    apply elem_of_cons in Hk as [->|Hk]; [congruence|]. by apply IH.
Qed.

Lemma step_raises_past_the_end (self : ClosedLoopSimulator.t) (k : Z)
    (key : string) (v : tensor) :
  key ∈ ClosedLoopSimulator.input_keys (ClosedLoopSimulator.emulator self) →
  ClosedLoopSimulator.sim_data self !! key = Some v →
  (Z.of_nat (hd 0%nat (shape v)) <= k)%Z →
  ∃ e, ClosedLoopSimulator.step self k = Err e.
Proof.
  intros Hkey Hv Hlen. unfold ClosedLoopSimulator.step.
  destruct (match ClosedLoopSimulator.estimator self with
            | Some est => _
            | None => _
            end) as [estim_out|e]; cbn [mbind result_bind]; [|by eexists].
  destruct (ClosedLoopSimulator.step_data_policy _ _ _) as [sdp|e];
    cbn [mbind result_bind]; [|by eexists].
  destruct (ClosedLoopSimulator.call _ _) as [policy_out|e];
    cbn [mbind result_bind]; [|by eexists].
  destruct (ClosedLoopSimulator.rhc _ _) as [policy_out'|e];
    cbn [mbind result_bind]; [|by eexists].
  unfold ClosedLoopSimulator.step_data_emulator.
  rewrite (step_data_loop_raises _ IndexError _ _ _ key v);
    [by eexists| |done|done|].
  - apply index_time_raises.
  - by apply index_time_past_the_end.
Qed.

(** X18.  [simulate(nsim)] with [nsim >= 1] raises whenever [sim_data]
    holds, under an input key of the emulator, a series with fewer than
    [start_k + nsim] time steps: the loop reads [sim_data] at every index
    from [start_k] to [start_k + nsim - 1] and the series is never
    extended. *)
Theorem simulate_raises_past_the_end_of_the_data
    (self : ClosedLoopSimulator.t) (nsim k0 : Z)
    (key : string) (v : tensor) :
  ClosedLoopSimulator.start_k self = Ok k0 →
  key ∈ ClosedLoopSimulator.input_keys (ClosedLoopSimulator.emulator self) →
  ClosedLoopSimulator.sim_data self !! key = Some v →
  (1 <= nsim)%Z →
  (Z.of_nat (hd 0%nat (shape v)) < k0 + nsim)%Z →
  ∃ e, ClosedLoopSimulator.simulate self nsim = Err e.
Proof.
  intros Hstart Hkey Hv Hnsim Hlen. unfold ClosedLoopSimulator.simulate.
  destruct (ClosedLoopSimulator.cl_keys self) as [keys|e];
    cbn [mbind result_bind]; [|by eexists].
  unfold ClosedLoopSimulator.steps. rewrite Hstart.
  cbn [mbind result_bind].
  destruct (step_raises_past_the_end self
              (Z.max k0 (Z.of_nat (hd 0%nat (shape v)))) key v)
    as [e He]; [done|done|lia|].
  destruct (loop_raises self (range k0 (k0 + nsim))
              (Z.max k0 (Z.of_nat (hd 0%nat (shape v)))) e
              (foldl (λ d key, <[key := []]> d) ∅ keys)) as [e' ->];
    [apply elem_of_range; lia|done|].
  by eexists.
Qed.

Lemma simulate_raises_past_the_end_of_the_data_witness :
  ∃ e, ClosedLoopSimulator.simulate example_loop 6 = Err e.
Proof.
  apply (simulate_raises_past_the_end_of_the_data example_loop 6 3
           "Yp"%string {| shape := [8; 1; 1]%nat;
                          data := [0; 1; 2; 3; 4; 5; 6; 7]%R |}).
  - reflexivity.
  - simpl. by right; left.
  - reflexivity.
  - lia.
  - simpl. lia.
Defined.

(** ** [ClosedLoopSimulator.rhc] and [append_data] *)

Lemma select_time_first_inv (v first : tensor) :
  select_time [0%Z] v = Ok first →
  ∃ s : list nat,
    (2 <= length s)%nat
    ∧ first = {| shape := 1%nat :: s; data := firstn (numel s) (data v) |}.
Proof.
  unfold select_time, index_time, ndim. destruct v as [sh dt].
  cbn [shape data]. destruct (3 <=? length sh)%nat eqn:H3; [|done].
  destruct sh as [|n s]; [done|]. apply Nat.leb_le in H3. simpl in H3.
  destruct n as [|n]; [done|]. simpl. intros [= <-].
  exists s. split; [lia|]. by rewrite app_nil_r.
Qed.

(** X19.  [rhc] is idempotent: applied to a dictionary it has returned, it
    returns that dictionary again. *)
Theorem rhc_is_idempotent
    (self : ClosedLoopSimulator.t) (policy_out out : gmap string tensor) :
  ClosedLoopSimulator.rhc self policy_out = Ok out →
  ClosedLoopSimulator.rhc self out = Ok out.
Proof.
  unfold ClosedLoopSimulator.rhc.
  destruct (index _ 0) as [key|e]; cbn [mbind result_bind]; [|done].
  unfold getitem at 1.
  destruct (policy_out !! key) as [v|]; cbn [mbind result_bind]; [|done].
  destruct (select_time [0%Z] v) as [first|e] eqn:Hsel;
    cbn [mbind result_bind]; [|done].
  intros [= <-]. unfold getitem. rewrite lookup_insert_eq.
  cbn [mbind result_bind].
  destruct (select_time_first_inv v first Hsel) as (s & Hs & ->).
  rewrite (select_time_first _ 0 s Hs). cbn [mbind result_bind].
  rewrite firstn_firstn, Nat.min_id. by rewrite insert_insert_eq.
Qed.

Lemma rhc_is_idempotent_witness :
  ClosedLoopSimulator.rhc example_loop
    (<["U_pred"%string := {| shape := [1; 1; 1]%nat; data := [1%R] |}]>
       (<["U_pred"%string := {| shape := [2; 1; 1]%nat; data := [1; 2]%R |}]>
          ∅))
  = Ok (<["U_pred"%string := {| shape := [1; 1; 1]%nat; data := [1%R] |}]>
          (<["U_pred"%string := {| shape := [2; 1; 1]%nat;
                                   data := [1; 2]%R |}]> ∅)).
Proof.
  apply (rhc_is_idempotent example_loop
           (<["U_pred"%string := {| shape := [2; 1; 1]%nat;
                                    data := [1; 2]%R |}]> ∅)).
  reflexivity.
Defined.

(** An exception of [dict_mapM] is an exception of its body. *)
Lemma dict_mapM_err_inv {A B} (f : string → A → result B)
    (d : gmap string A) (e : exn) :
  dict_mapM f d = Err e → ∃ k a, d !! k = Some a ∧ f k a = Err e.
Proof.
  unfold dict_mapM.
  apply (map_fold_weak_ind (λ res m,
    res = Err e → ∃ k a, m !! k = Some a ∧ f k a = Err e)).
  - done.
  - intros i x m res Hi IH Hres.
    destruct res as [m'|e0]; cbn [mbind result_bind] in Hres.
    + destruct (f i x) as [b|e0] eqn:Hf; [done|].
      cbn [mbind result_bind] in Hres. injection Hres as ->.
      exists i, x. by rewrite lookup_insert_eq.
    + destruct (IH Hres) as (k & a & Hk & Hf). exists k, a.
      split; [|done]. rewrite lookup_insert_ne; [done|]. congruence.
Qed.

Lemma dict_mapM_raises_only {A B} (f : string → A → result B)
    (d : gmap string A) (k : string) (a : A) (e : exn) :
  (∀ k a e', f k a = Err e' → e' = e) →
  d !! k = Some a → f k a = Err e → dict_mapM f d = Err e.
Proof.
  intros Honly Hk Hf.
  destruct (dict_mapM_raises f d k a e Hk Hf) as [e' He']. rewrite He'.
  destruct (dict_mapM_err_inv f d e' He') as (k' & a' & _ & Hf').
  by rewrite (Honly k' a' e' Hf').
Qed.

(** X20.  [append_data] returns exactly when [step_data] holds every key
    of [sim_data]: each list is then extended by the step's tensor under
    its key, and keys of [step_data] that [sim_data] lacks are ignored;
    otherwise it raises [KeyError]. *)
Theorem append_data_extends_every_list
    (sim_data : gmap string (list tensor)) (step_data : gmap string tensor) :
  (dom sim_data ⊆ dom step_data →
   ∃ res : gmap string (list tensor),
     ClosedLoopSimulator.append_data sim_data step_data = Ok res
     ∧ dom res = dom sim_data
     ∧ ∀ key l, sim_data !! key = Some l →
         ∃ v, step_data !! key = Some v ∧ res !! key = Some (l ++ [v]))
  ∧ (¬ dom sim_data ⊆ dom step_data →
     ClosedLoopSimulator.append_data sim_data step_data = Err KeyError).
Proof.
  unfold ClosedLoopSimulator.append_data. split.
  - intros Hsub.
    rewrite (dict_mapM_total _
               (λ key l, l ++ option_list (step_data !! key))); cycle 1.
    { intros key l Hl.
      assert (key ∈ dom step_data) as Hin
        by (apply Hsub, elem_of_dom; eauto).
      apply elem_of_dom in Hin as [v Hv]. unfold getitem. by rewrite Hv. }
    eexists. split; [done|]. split; [apply dom_map_imap_total|].
    intros key l Hl.
    assert (key ∈ dom step_data) as Hin
      by (apply Hsub, elem_of_dom; eauto).
    apply elem_of_dom in Hin as [v Hv]. exists v. split; [done|].
    by rewrite map_lookup_imap, Hl, Hv.
  - intros Hn.
    assert (∃ key, key ∈ dom sim_data ∧ key ∉ dom step_data)
      as (key & Hin & Hout).
    { destruct (decide (set_Forall (λ key, key ∈ dom step_data)
                          (dom sim_data))) as [Hall|Hnot].
      - destruct Hn. intros key Hkey. by apply Hall.
      - apply not_set_Forall_Exists in Hnot; [|apply _].
        destruct Hnot as (key & Hkey & Hnkey). by exists key. }
    apply elem_of_dom in Hin as [l Hl]. apply not_elem_of_dom in Hout.
    apply (dict_mapM_raises_only _ _ key l); [|done|].
    + intros k a e'. unfold getitem.
      destruct (step_data !! k); cbn [mbind result_bind]; [done|].
      by intros [= <-].
    + unfold getitem. by rewrite Hout.
Qed.

Lemma append_data_extends_every_list_witness :
  ClosedLoopSimulator.append_data
    (<["Y_pred"%string := []]> ∅)
    (<["U_pred"%string := scalar 0]> ∅)
  = Err KeyError.
Proof.
  apply (proj2 (append_data_extends_every_list
                  (<["Y_pred"%string := []]> ∅)
                  (<["U_pred"%string := scalar 0]> ∅))).
  intros Hsub.
  assert ("Y_pred"%string ∈ dom (<["U_pred"%string := scalar 0]>
                                   (∅ : gmap string tensor))) as Hin.
  { apply Hsub, elem_of_dom. by eexists. }
  apply elem_of_dom in Hin as [v Hv]. discriminate.
Defined.

(** ** [ClosedLoopSimulator.simulate]: the degenerate calls *)

Lemma torch_cat_raises (ts : list tensor) (e : exn) :
  torch_cat ts = Err e → e = RuntimeError.
Proof.
  unfold torch_cat. destruct ts as [|t0 ts]; [by intros [= <-]|].
  destruct (shape t0) as [|n s]; [by intros [= <-]|].
  destruct (forallb _ _); [done|by intros [= <-]].
Qed.

Lemma range_empty (a b : Z) : (b <= a)%Z → range a b = [].
Proof.
  intros Hba. unfold range.
  by replace (Z.to_nat (b - a)) with 0%nat by lia.
Qed.

(** X21.  Once the regularization keys have been removed, [simulate(nsim)]
    with [nsim <= 0] runs no step: it raises [RuntimeError] ([torch.cat] of
    an empty list) when some key is retained, and returns the empty
    dictionary when none is. *)
Theorem simulate_without_steps
    (self : ClosedLoopSimulator.t) (nsim : Z) (keys : list string) :
  ClosedLoopSimulator.cl_keys self = Ok keys →
  (nsim <= 0)%Z →
  ClosedLoopSimulator.simulate self nsim
  = match keys with
    | [] => Ok ∅
    | _ :: _ => Err RuntimeError
    end.
Proof.
  intros Hkeys Hnsim. unfold ClosedLoopSimulator.simulate.
  rewrite Hkeys. cbn [mbind result_bind].
  unfold ClosedLoopSimulator.steps, ClosedLoopSimulator.start_k.
  unfold ClosedLoopSimulator.cl_keys in Hkeys.
  unfold ClosedLoopSimulator.estimator_attr in *.
  destruct (ClosedLoopSimulator.estimator self) as [est|]; [|done].
  cbn [mbind result_bind]. rewrite range_empty by lia.
  cbn [ClosedLoopSimulator.loop mbind result_bind].
  destruct keys as [|key keys']; [done|].
  apply (dict_mapM_raises_only _ _ key []).
  - intros _ l e'. apply torch_cat_raises.
  - rewrite init_cl_data_lookup. by rewrite decide_True by (by left).
  - done.
Qed.

Lemma simulate_without_steps_witness :
  ClosedLoopSimulator.simulate example_loop 0 = Err RuntimeError.
Proof.
  apply (simulate_without_steps example_loop 0
           ["x0_estim"; "U_pred"; "Y_pred"]%string).
  - reflexivity.
  - lia.
Defined.

Lemma list_remove_missing (x : string) (l : list string) :
  x ∉ l → list_remove x l = Err ValueError.
Proof.
  induction l as [|y l IH]; intros Hx; simpl; [done|].
  rewrite not_elem_of_cons in Hx. destruct Hx as [Hne Hx].
  rewrite decide_False by done. by rewrite IH.
Qed.

Lemma list_remove_present (x : string) (l : list string) :
  x ∈ l →
  ∃ l', list_remove x l = Ok l' ∧ ∀ y, y ≠ x → y ∈ l' ↔ y ∈ l.
Proof.
  induction l as [|z l IH]; intros Hx; simpl.
  - by apply elem_of_nil in Hx.
  - destruct (decide (x = z)) as [<-|Hne].
    + exists l. split; [done|]. intros y Hy. rewrite elem_of_cons. tauto.
    + apply elem_of_cons in Hx as [->|Hx]; [done|].
      destruct (IH Hx) as (l' & -> & Hl'). cbn [mbind result_bind].
      exists (z :: l'). split; [done|]. intros y Hy.
      rewrite !elem_of_cons, Hl' by done. tauto.
Qed.

(** X22.  With an estimator, [simulate] raises [ValueError] unless the
    output keys of the estimator, the policy and the emulator hold, between
    them, all three of ["reg_error_dynamics"], ["reg_error_policy"] and
    ["reg_error_estim"]: each is removed with [list.remove]. *)
Theorem simulate_needs_the_regularization_keys
    (self : ClosedLoopSimulator.t) (est : ClosedLoopSimulator.component)
    (nsim : Z) :
  let keys :=
    ClosedLoopSimulator.output_keys est
    ++ ClosedLoopSimulator.output_keys (ClosedLoopSimulator.policy self)
    ++ ClosedLoopSimulator.output_keys (ClosedLoopSimulator.emulator self) in
  ClosedLoopSimulator.estimator self = Some est →
  ¬ ("reg_error_dynamics"%string ∈ keys
     ∧ "reg_error_policy"%string ∈ keys
     ∧ "reg_error_estim"%string ∈ keys) →
  ClosedLoopSimulator.simulate self nsim = Err ValueError.
Proof.
  intros keys Hest Hmissing.
  unfold ClosedLoopSimulator.simulate, ClosedLoopSimulator.cl_keys,
    ClosedLoopSimulator.estimator_attr.
  rewrite Hest. cbn [mbind result_bind]. fold keys.
  destruct (decide ("reg_error_dynamics"%string ∈ keys)) as [Hd|Hd];
    [|by rewrite list_remove_missing].
  destruct (list_remove_present _ _ Hd) as (l1 & -> & Hl1).
  cbn [mbind result_bind].
  destruct (decide ("reg_error_policy"%string ∈ keys)) as [Hp|Hp];
    [|by rewrite list_remove_missing by (by rewrite Hl1)].
  destruct (list_remove_present "reg_error_policy" l1) as (l2 & -> & Hl2);
    [by rewrite Hl1|].
  cbn [mbind result_bind].
  destruct (decide ("reg_error_estim"%string ∈ keys)) as [He|He];
    [tauto|].
  by rewrite list_remove_missing by (by rewrite Hl2, Hl1).
Qed.

Lemma simulate_needs_the_regularization_keys_witness :
  ClosedLoopSimulator.simulate
    {| ClosedLoopSimulator.sim_data := ∅;
       ClosedLoopSimulator.emulator := example_emulator;
       ClosedLoopSimulator.policy := example_policy;
       ClosedLoopSimulator.estimator := Some example_policy |} 5
  = Err ValueError.
Proof.
  apply (simulate_needs_the_regularization_keys
           {| ClosedLoopSimulator.sim_data := ∅;
              ClosedLoopSimulator.emulator := example_emulator;
              ClosedLoopSimulator.policy := example_policy;
              ClosedLoopSimulator.estimator := Some example_policy |}
           example_policy 5 eq_refl).
  intros (_ & _ & He). simpl in He.
  repeat (apply elem_of_cons in He as [He|He]; [discriminate|]).
  by apply elem_of_nil in He.
Defined.

(** ** [Simulator.test_eval] *)

Lemma union_absorbed {V} (a b : gmap string V) :
  dom b ⊆ dom a → a ∪ b = a.
Proof.
  intros Hsub. apply map_eq. intros k. rewrite lookup_union.
  destruct (a !! k) as [v|] eqn:Ha.
  - by destruct (b !! k).
  - assert (b !! k = None) as ->; [|done].
    apply not_elem_of_dom. intros Hb. apply Hsub in Hb.
    by apply elem_of_dom in Hb as [? ?]; congruence.
Qed.

(** X23.  [test_eval] of an [OpenLoopSimulator] whose model returns on the
    three partitions merges the three outputs with the later partition
    winning: test over dev over train.  When the test output holds every
    key of the other two, what it returns is the test output alone.  On the
    base class, whose [simulate] returns [None], it raises [TypeError]. *)
Theorem test_eval_later_partitions_win {D V : Type}
    (self : Simulator.t D V) (train dev test : gmap string V) :
  Simulator.model self (Simulator.train_data self) = Ok train →
  Simulator.model self (Simulator.dev_data self) = Ok dev →
  Simulator.model self (Simulator.test_data self) = Ok test →
  Simulator.test_eval OpenLoopSimulator.simulate self
  = Ok (test ∪ (dev ∪ train))
  ∧ (dom train ⊆ dom test → dom dev ⊆ dom test →
     Simulator.test_eval OpenLoopSimulator.simulate self = Ok test)
  ∧ Simulator.test_eval Simulator.simulate self = Err TypeError.
Proof.
  intros Htrain Hdev Htest.
  assert (Simulator.test_eval OpenLoopSimulator.simulate self
          = Ok (test ∪ (dev ∪ train))) as Heval.
  { unfold Simulator.test_eval, OpenLoopSimulator.simulate.
    cbn [foldl mbind result_bind]. rewrite Htrain.
    cbn [mbind result_bind Simulator.merge]. rewrite Hdev.
    cbn [mbind result_bind Simulator.merge]. rewrite Htest.
    cbn [mbind result_bind Simulator.merge].
    by rewrite (right_id_L ∅ (∪)). }
  split; [done|]. split; [|done].
  intros H1 H2. rewrite Heval. f_equal. apply union_absorbed.
  rewrite dom_union_L. by apply union_least.
Qed.

Lemma test_eval_later_partitions_win_witness :
  Simulator.test_eval OpenLoopSimulator.simulate
    {| Simulator.model := λ d : gmap string nat, Ok d;
       Simulator.train_data := <["loss"%string := 1%nat]> ∅;
       Simulator.dev_data := <["loss"%string := 2%nat]> ∅;
       Simulator.test_data := <["loss"%string := 3%nat]> ∅;
       Simulator.eval_sim := true |}
  = Ok (<["loss"%string := 3%nat]> ∅).
Proof.
  apply (proj1 (proj2 (test_eval_later_partitions_win
           {| Simulator.model := λ d : gmap string nat, Ok d;
              Simulator.train_data := <["loss"%string := 1%nat]> ∅;
              Simulator.dev_data := <["loss"%string := 2%nat]> ∅;
              Simulator.test_data := <["loss"%string := 3%nat]> ∅;
              Simulator.eval_sim := true |}
           (<["loss"%string := 1%nat]> ∅) (<["loss"%string := 2%nat]> ∅)
           (<["loss"%string := 3%nat]> ∅) eq_refl eq_refl eq_refl)));
    apply (bool_decide_unpack _); reflexivity.
Defined.

(** ** [ClosedLoopSimulator.simulate]: any number of steps *)

Lemma length_range (a b : Z) : length (range a b) = Z.to_nat (b - a).
Proof. unfold range. by rewrite length_map, length_seq. Qed.

(** X24.  With an estimator, output keys that are pairwise distinct and
    hold the three regularization keys, and [nsim >= 1]: [simulate(nsim)]
    starts at [k0 = max(policy.nsteps, estimator.window_size)]; if every
    step [k0 <= k < k0 + nsim] succeeds with one time step per retained
    key, it returns, for every retained key and for no other, the
    concatenation of the [nsim] step outputs in the order of the steps, of
    length [nsim] along the time axis. *)
Theorem simulate_returns_nsim_steps
    (self : ClosedLoopSimulator.t) (est : ClosedLoopSimulator.component)
    (nsim : Z) (outs : Z → string → tensor) (tails : string → list nat) :
  let keys :=
    ClosedLoopSimulator.output_keys est
    ++ ClosedLoopSimulator.output_keys (ClosedLoopSimulator.policy self)
    ++ ClosedLoopSimulator.output_keys (ClosedLoopSimulator.emulator self) in
  let retained (key : string) :=
    key ∈ keys ∧ key ≠ "reg_error_dynamics"%string
    ∧ key ≠ "reg_error_policy"%string ∧ key ≠ "reg_error_estim"%string in
  let k0 :=
    Z.max (ClosedLoopSimulator.nsteps (ClosedLoopSimulator.policy self))
          (ClosedLoopSimulator.window_size est) in
  ClosedLoopSimulator.estimator self = Some est →
  (1 <= nsim)%Z →
  NoDup keys →
  "reg_error_dynamics"%string ∈ keys →
  "reg_error_policy"%string ∈ keys →
  "reg_error_estim"%string ∈ keys →
  (∀ k : Z, (k0 <= k < k0 + nsim)%Z →
     ∃ out, ClosedLoopSimulator.step self k = Ok out
            ∧ ∀ key, retained key →
                out !! key = Some (outs k key)
                ∧ shape (outs k key) = 1%nat :: tails key) →
  ClosedLoopSimulator.start_k self = Ok k0
  ∧ ∃ res : gmap string tensor,
      ClosedLoopSimulator.simulate self nsim = Ok res
      ∧ (∀ key, is_Some (res !! key) ↔ retained key)
      ∧ ∀ key, retained key →
          res !! key
          = Some {| shape := Z.to_nat nsim :: tails key;
                    data := concat (map (λ k, data (outs k key))
                                        (range k0 (k0 + nsim))) |}.
Proof.
  intros keys retained k0 Hest Hnsim Hnd Hdyn Hpol Hestim Hsteps.
  subst retained. cbn beta in *.
  assert (ClosedLoopSimulator.start_k self = Ok k0) as Hstart.
  { unfold ClosedLoopSimulator.start_k, ClosedLoopSimulator.estimator_attr.
    rewrite Hest. cbn [mbind result_bind]. f_equal. unfold k0.
    destruct (Z.leb_spec (ClosedLoopSimulator.window_size est)
                (ClosedLoopSimulator.nsteps (ClosedLoopSimulator.policy self)));
      lia. }
  split; [done|].
  destruct (cl_keys_retained self est Hest Hnd Hdyn Hpol Hestim)
    as (l & Hl & Hmem). fold keys in Hmem.
  unfold ClosedLoopSimulator.simulate, ClosedLoopSimulator.steps.
  rewrite Hl, Hstart. cbn [mbind result_bind].
  set (ks := range k0 (k0 + nsim)).
  assert (length ks = Z.to_nat nsim) as Hlen.
  { unfold ks. rewrite length_range. f_equal. lia. }
  set (cl_data := foldl (λ d key, <[key := []]> d) ∅ l).
  assert (∀ key, cl_data !! key
                 = if decide (key ∈ l) then Some [] else None) as Hcl.
  { intros key. unfold cl_data. rewrite init_cl_data_lookup.
    by rewrite lookup_empty. }
  rewrite (loop_total self outs); cycle 1.
  { intros k Hk. apply elem_of_range in Hk.
    destruct (Hsteps k Hk) as (out & Hout & Hkeys).
    exists out. split; [done|]. intros key [l' Hl'].
    rewrite Hcl in Hl'. destruct (decide (key ∈ l)) as [Hin|]; [|done].
    by apply Hkeys, Hmem. }
  cbn [mbind result_bind].
  set (g := λ (key : string) (ts : list tensor),
              {| shape := Z.to_nat nsim :: tails key;
                 data := concat (map data ts) |}).
  rewrite (dict_mapM_total _ g); cycle 1.
  { intros key ts. rewrite map_lookup_imap, Hcl.
    destruct (decide (key ∈ l)) as [Hin|]; [|done]. simpl.
    intros [= <-].
    rewrite (torch_cat_uniform _ 1 (tails key)).
    - unfold g. by rewrite length_map, Hlen, Nat.mul_1_r.
    - intros Hnil. apply (f_equal length) in Hnil.
      rewrite length_map, Hlen in Hnil. simpl in Hnil. lia.
    - apply Forall_map, Forall_forall. intros k Hk. simpl.
      apply elem_of_range in Hk.
      destruct (Hsteps k Hk) as (out & _ & Hkeys).
      by apply Hkeys, Hmem. }
  eexists. split; [done|].
  assert (∀ key, map_imap (λ key ts, Some (g key ts))
                   (map_imap (λ key l0, Some (l0 ++ map (λ k, outs k key) ks))
                      cl_data) !! key
                 = if decide (key ∈ l)
                   then Some {| shape := Z.to_nat nsim :: tails key;
                                data := concat (map (λ k, data (outs k key))
                                                    ks) |}
                   else None) as Hres.
  { intros key. rewrite !map_lookup_imap, Hcl.
    destruct (decide (key ∈ l)); [|done]. simpl. unfold g.
    by rewrite map_map. }
  split.
  - intros key. rewrite Hres, <- Hmem.
    destruct (decide (key ∈ l)); split; intros H; try done.
  - intros key Hkey. rewrite Hres. rewrite decide_True; [done|].
    by apply Hmem.
Qed.

Lemma simulate_returns_nsim_steps_witness :
  ∃ res : gmap string tensor,
    ClosedLoopSimulator.simulate example_loop 2 = Ok res
    ∧ res !! "Y_pred"%string
      = Some {| shape := [2; 1; 1]%nat; data := [5; 5]%R |}.
Proof.
  destruct (simulate_returns_nsim_steps example_loop example_estimator 2
              (λ _ key, default (scalar 0) (example_step_output !! key))
              (λ _, [1; 1]%nat))
    as (_ & res & Hres & _ & Hkeys).
  - reflexivity.
  - lia.
  - compute_done.
  - compute_done.
  - compute_done.
  - compute_done.
  - intros k Hk. exists example_step_output. split.
    + simpl in Hk. assert (k = 3 ∨ k = 4)%Z as [->| ->] by lia; reflexivity.
    + intros key (Hin & Hdyn & Hpol & Hestim). simpl in Hin.
      repeat (apply elem_of_cons in Hin as [->|Hin]; [done|]).
      by apply not_elem_of_nil in Hin.
  - exists res. split; [exact Hres|].
    rewrite Hkeys; [reflexivity|]. compute_done.
Defined.
